(** * CANOpenAnalyzer: frame store, filter table, column sort and signal decoding

    A shallow embedding of the parts of the analyzer that carry real
    invariants:

    - [Utility.processIntegerSignal] (utility.h): the bit-level integer
      signal extractor;
    - [CANFrameModel] (canframemodel.cpp): the frame store with its filter
      table, the per-frame and bulk ingestion paths, the wholesale refresh
      of the filtered view, the filter file loader and the column sort.

    Conventions.  C++ [int] values are integers of [Z].  Signed overflow
    is undefined in C++: the extractor comes with its [int] additions formed
    over the integers ([Utility.processIntegerSignal]) and with each of
    them checked ([Utility.processIntegerSignal_int]); no statement about
    the store depends on an overflow.  The 64-bit values ([int64_t],
    [uint64_t]) are integers of [Z] with the conversions between the signed
    and unsigned views written out.  A [QByteArray] is a list of bytes, a
    [QVector] a list, a [QMap<int, bool>] a [gmap Z bool].  An operation
    that C++ leaves undefined (a shift count outside the width of its
    operand, an index outside a container) has no result: functions that
    can reach one return an [option].  Signals and view notifications
    ([beginResetModel], [emit], the mutex) are not part of the state. *)

From Stdlib Require Import ZArith Lia List Ascii String.
From stdpp Require Import base option list gmap.

Local Open Scope Z_scope.

(** ** Fixed-width integers *)

Module Int.

(** Conversion to [uint64_t]: reduction modulo [2^64]. *)
Definition to_uint64 (z : Z) : Z := z mod 2 ^ 64.

(** Conversion to [int64_t]: the two's complement reading of the low 64 bits. *)
Definition to_int64 (z : Z) : Z := (z + 2 ^ 63) mod 2 ^ 64 - 2 ^ 63.

(** [1ULL << n]; the count has to lie in [0, 64). *)
Definition shl1_u64 (n : Z) : option Z :=
  if decide (0 <= n < 64) then Some (Z.shiftl 1 n) else None.

(** [1 << n] on [int]; the count has to lie in [0, 31). *)
Definition shl1_int (n : Z) : option Z :=
  if decide (0 <= n < 31) then Some (Z.shiftl 1 n) else None.

(** Conversion of an [unsigned int] to [int]. *)
Definition to_int32 (z : Z) : Z := (z + 2 ^ 31) mod 2 ^ 32 - 2 ^ 31.

(** [~x] on [uint64_t]. *)
Definition not_u64 (x : Z) : Z := 2 ^ 64 - 1 - x.

(** [a += x] with [a : int64_t] and [x : uint64_t]: the sum is formed in
    [uint64_t] and converted back. *)
Definition add_i64_u64 (a x : Z) : Z := to_int64 (to_uint64 (to_uint64 a + x)).

(** A [char] promoted to [int] (two's complement, signed [char]). *)
Definition char_to_int (b : Byte.byte) : Z :=
  let u := Z.of_N (Byte.to_N b) in if u <? 128 then u else u - 256.

Definition in_int64 (z : Z) : Prop := - 2 ^ 63 <= z < 2 ^ 63.

(** The values of an [int]. *)
Definition in_int (z : Z) : Prop := - 2 ^ 31 <= z < 2 ^ 31.

#[global] Instance in_int_dec (z : Z) : Decision (in_int z) :=
  and_dec (decide (- 2 ^ 31 <= z)) (decide (z < 2 ^ 31)).

(** [a + b] on [int]: defined when the sum is an [int]. *)
Definition add_int (a b : Z) : option Z :=
  if decide (in_int (a + b)) then Some (a + b) else None.

End Int.

(** ** Utility::processIntegerSignal *)

Module Utility.
Import Int.

(** Outcome of one pass through a loop body: the function has returned, the
    loop goes on with a new state, or the body ran into undefined
    behaviour. *)
Inductive flow (A : Type) : Type :=
  | Undefined : flow A
  | Return : Z -> flow A
  | Continue : A -> flow A.
Arguments Undefined {A}.
Arguments Return {A} _.
Arguments Continue {A} _.

(** [data.size()] and [data.count()]. *)
Definition size (data : list Byte.byte) : Z := Z.of_nat (length data).

(** [data[i]] on a [const QByteArray]: defined for [0 <= i < size]. *)
Definition byte_at (data : list Byte.byte) (i : Z) : option Byte.byte :=
  if decide (0 <= i) then data !! Z.to_nat i else None.

(** [data[bit / 8] & (1 << (bit % 8))] as a condition. *)
Definition bit_set (data : list Byte.byte) (bit : Z) : option bool :=
  c ← byte_at data (bit ÷ 8);
  m ← shl1_int (Z.rem bit 8);
  Some (negb (Z.land (char_to_int c) m =? 0)).

(** The loop state: the payload bit position [bit] and the accumulated
    [result]. *)
Record state := St { bit : Z; result : Z }.

(** The guarded read of one payload bit, common to both loops; [dest] is the
    result bit that a set payload bit contributes. *)
Definition read_bit (data : list Byte.byte) (dest : Z) (s : state) : flow Z :=
  if bit s <? 64 then
    let bytePos := bit s ÷ 8 in
    if bytePos >=? size data then Return 0
    else match bit_set data (bit s) with
         | None => Undefined
         | Some true =>
             match shl1_u64 dest with
             | None => Undefined
             | Some x => Continue (add_i64_u64 (result s) x)
             end
         | Some false => Continue (result s)
         end
  else Continue (result s).

(** Body of the little-endian loop. *)
Definition le_body (data : list Byte.byte) (bitpos : Z) (s : state) : flow state :=
  match read_bit data bitpos s with
  | Undefined => Undefined
  | Return v => Return v
  | Continue r => Continue (St (bit s + 1) r)
  end.

(** Advance of the bit position in motorola mode. *)
Definition be_next (bit : Z) : Z :=
  if Z.rem bit 8 =? 0 then bit + 15 else bit - 1.

(** Body of the big-endian loop. *)
Definition be_body (data : list Byte.byte) (sigSize bitpos : Z) (s : state) : flow state :=
  match read_bit data (sigSize - bitpos - 1) s with
  | Undefined => Undefined
  | Return v => Return v
  | Continue r => Continue (St (be_next (bit s)) r)
  end.

(** [for (bitpos = from; ...; bitpos++)] with [n] iterations left. *)
Fixpoint for_loop (body : Z -> state -> flow state) (n : nat) (bitpos : Z)
    (s : state) : flow state :=
  match n with
  | O => Continue s
  | S n' =>
      match body bitpos s with
      | Continue s' => for_loop body n' (bitpos + 1) s'
      | r => r
      end
  end.

(** The sign extension that closes the function. *)
Definition sign_extend (sigSize result : Z) : option Z :=
  m ← shl1_u64 (sigSize - 1);
  let mask := to_int64 m in
  if decide (Z.land result mask = mask) then
    s ← shl1_u64 sigSize;
    let signedMask := not_u64 (to_uint64 (s - 1)) in
    Some (to_int64 (Z.lor (Z.land (to_uint64 (-1)) signedMask) (to_uint64 result)))
  else Some result.

(** The function, with its [int] additions ([startBit + sigSize], [bit++],
    [bit += 15]) formed over the integers: this is the function on the
    arguments for which none of these additions overflows;
    [processIntegerSignal_int] below checks them. *)
Definition processIntegerSignal (data : list Byte.byte) (startBit sigSize : Z)
    (littleEndian isSigned : bool) : option Z :=
  let maxBytes := (startBit + sigSize) ÷ 8 in
  if size data <? maxBytes then Some 0
  else
    let body := if littleEndian then le_body data else be_body data sigSize in
    match for_loop body (Z.to_nat sigSize) 0 (St startBit 0) with
    | Undefined => None
    | Return v => Some v
    | Continue s =>
        if isSigned then sign_extend sigSize (result s) else Some (result s)
    end.

(** The payload bit positions the loop visits, in order. *)
Fixpoint traversal (littleEndian : bool) (bit : Z) (n : nat) : list Z :=
  match n with
  | O => []
  | S n' => bit :: traversal littleEndian (if littleEndian then bit + 1 else be_next bit) n'
  end.

(** *** Notions used to state the properties of the loops *)

(** The body of the loop for either byte order. *)
Definition body_of (data : list Byte.byte) (sigSize : Z) (littleEndian : bool) :=
  if littleEndian then le_body data else be_body data sigSize.

Definition next_bit (littleEndian : bool) (b : Z) : Z :=
  if littleEndian then b + 1 else be_next b.

Definition dest_of (sigSize : Z) (littleEndian : bool) (bitpos : Z) : Z :=
  if littleEndian then bitpos else sigSize - bitpos - 1.

(** The accumulated value after [k] passes: the low [k] bits in intel
    mode, the high [k] bits of the field in motorola mode. *)
Definition acc_ok (sigSize : Z) (le : bool) (k r : Z) : Prop :=
  if le then 0 <= r < 2 ^ k
  else exists q, 0 <= q < 2 ^ k /\ r = q * 2 ^ (sigSize - k).

(** Payload bit [n]: bit [n mod 8] of byte [n / 8], read off the unsigned
    value of the byte; [false] outside the payload. *)
Definition payload_bit (data : list Byte.byte) (n : Z) : bool :=
  match byte_at data (n / 8) with
  | Some c => Z.testbit (Z.of_N (Byte.to_N c)) (n mod 8)
  | None => false
  end.

(** The bit position of the walk at pass [k]. *)
Definition position (littleEndian : bool) (startBit : Z) (k : nat) : Z :=
  Nat.iter k (next_bit littleEndian) startBit.

(** What pass [k] of the loop reads: the payload bit at its position, and
    nothing from position 64 on. *)
Definition bit_read (data : list Byte.byte) (littleEndian : bool) (startBit : Z)
    (k : nat) : bool :=
  (position littleEndian startBit k <? 64)
  && payload_bit data (position littleEndian startBit k).

(** *** The function with its [int] additions checked

    [startBit], [sigSize], [bit] and [bitpos] are [int]s: the sum
    [startBit + sigSize] and the steps [bit++], [bit += 15] and [bit--] are
    undefined when they leave the range of [int].  ([bitpos++] stays below
    [sigSize], and [sigSize - bitpos - 1] between 0 and [sigSize].) *)

(** Body of the little-endian loop, [bit++] checked. *)
Definition le_body_int (data : list Byte.byte) (bitpos : Z) (s : state) : flow state :=
  match read_bit data bitpos s with
  | Undefined => Undefined
  | Return v => Return v
  | Continue r =>
      match add_int (bit s) 1 with
      | Some b => Continue (St b r)
      | None => Undefined
      end
  end.

(** Advance of the bit position in motorola mode, checked. *)
Definition be_next_int (bit : Z) : option Z :=
  if Z.rem bit 8 =? 0 then add_int bit 15 else add_int bit (-1).

(** Body of the big-endian loop, the advance checked. *)
Definition be_body_int (data : list Byte.byte) (sigSize bitpos : Z) (s : state)
    : flow state :=
  match read_bit data (sigSize - bitpos - 1) s with
  | Undefined => Undefined
  | Return v => Return v
  | Continue r =>
      match be_next_int (bit s) with
      | Some b => Continue (St b r)
      | None => Undefined
      end
  end.

(** [processIntegerSignal] on [int] arguments, every [int] addition
    checked. *)
Definition processIntegerSignal_int (data : list Byte.byte) (startBit sigSize : Z)
    (littleEndian isSigned : bool) : option Z :=
  if decide (in_int startBit /\ in_int sigSize) then
    sum ← add_int startBit sigSize;
    let maxBytes := sum ÷ 8 in
    if size data <? maxBytes then Some 0
    else
      let body := if littleEndian then le_body_int data else be_body_int data sigSize in
      match for_loop body (Z.to_nat sigSize) 0 (St startBit 0) with
      | Undefined => None
      | Return v => Some v
      | Continue s =>
          if isSigned then sign_extend sigSize (result s) else Some (result s)
      end
  else None.

(** The checked body of the loop for either byte order. *)
Definition body_of_int (data : list Byte.byte) (sigSize : Z) (littleEndian : bool) :=
  if littleEndian then le_body_int data else be_body_int data sigSize.

(** The eight-byte payload whose only set bit is bit 63, and the
    nine-byte payload whose only set bit is bit 7. *)
Definition top_bit_payload : list Byte.byte :=
  [Byte.x00; Byte.x00; Byte.x00; Byte.x00; Byte.x00; Byte.x00; Byte.x00; Byte.x80].

Definition bit7_payload : list Byte.byte :=
  [Byte.x80; Byte.x00; Byte.x00; Byte.x00; Byte.x00; Byte.x00; Byte.x00; Byte.x00;
   Byte.x00].

End Utility.

(** ** The Qt text primitives used by the filter file loader

    [QByteArray::simplified], [split], [toInt] and [toUpper], and the
    line-wise reading of a [QFile], after the documentation of Qt 5. *)

Module QByteArray.

Definition code (c : ascii) : Z := Z.of_nat (nat_of_ascii c).

(** White space of the C locale: space, and the characters 9 to 13. *)
Definition isspace (c : ascii) : bool :=
  (code c =? 32) || ((9 <=? code c) && (code c <=? 13)).

(** [simplified_from pending s]: [s] without leading and trailing white
    space and with every inner run of white space replaced by one space;
    [pending] tells that a word has been emitted already, so that a space
    goes before the next one. *)
Fixpoint simplified_from (started pending : bool) (s : list ascii) : list ascii :=
  match s with
  | [] => []
  | c :: rest =>
      if isspace c then simplified_from started started rest
      else if pending then " "%char :: c :: simplified_from true false rest
      else c :: simplified_from true false rest
  end.

Definition simplified (s : list ascii) : list ascii := simplified_from false false s.

(** [split(sep)]: the fields between the separators; always at least one. *)
Fixpoint split (sep : ascii) (s : list ascii) : list (list ascii) :=
  match s with
  | [] => [[]]
  | c :: rest =>
      if Ascii.eqb c sep then [] :: split sep rest
      else match split sep rest with
           | tok :: toks => (c :: tok) :: toks
           | [] => [[c]]
           end
  end.

Definition toUpper (s : list ascii) : list ascii :=
  (fun c => if (97 <=? code c) && (code c <=? 122)
            then ascii_of_nat (Z.to_nat (code c - 32)) else c) <$> s.

Definition hex_digit (c : ascii) : option Z :=
  let n := code c in
  if (48 <=? n) && (n <=? 57) then Some (n - 48)
  else if (97 <=? n) && (n <=? 102) then Some (n - 87)
  else if (65 <=? n) && (n <=? 70) then Some (n - 55)
  else None.

(** The digits of a hexadecimal number followed by white space only. *)
Fixpoint hex_digits (acc : Z) (s : list ascii) : option Z :=
  match s with
  | [] => Some acc
  | c :: rest =>
      match hex_digit c with
      | Some d => hex_digits (16 * acc + d) rest
      | None => if forallb isspace s then Some acc else None
      end
  end.

Fixpoint skip_space (s : list ascii) : list ascii :=
  match s with
  | c :: rest => if isspace c then skip_space rest else s
  | [] => []
  end.

Definition skip_0x (s : list ascii) : list ascii :=
  match s with
  | c0 :: c1 :: rest =>
      if (code c0 =? 48) && ((code c1 =? 120) || (code c1 =? 88)) then rest else s
  | _ => s
  end.

(** [toInt(nullptr, 16)]: optional white space, an optional sign, an
    optional [0x], at least one hexadecimal digit, optional white space;
    0 when the text is not of that form or the value is no [int]. *)
Definition toInt16 (s : list ascii) : Z :=
  let s := skip_space s in
  let '(neg, s) :=
    match s with
    | c :: rest =>
        if code c =? 45 then (true, rest)
        else if code c =? 43 then (false, rest)
        else (false, s)
    | [] => (false, s)
    end in
  let s := skip_0x s in
  match s with
  | [] => 0
  | c :: _ =>
      match hex_digit c, hex_digits 0 s with
      | Some _, Some v =>
          let v := if neg then - v else v in
          if (- 2 ^ 31 <=? v) && (v <? 2 ^ 31) then v else 0
      | _, _ => 0
      end
  end.

(** The lines that successive [readLine] calls return until [atEnd]: each
    line runs up to and including its newline; the last one may lack it. *)
Fixpoint readLines (s : list ascii) : list (list ascii) :=
  match s with
  | [] => []
  | c :: rest =>
      if code c =? 10 then [c] :: readLines rest
      else match readLines rest with
           | line :: lines => (c :: line) :: lines
           | [] => [[c]]
           end
  end.

(** *** Notions used to state the properties of the loader *)

(** The text of [s] before its first [sep]; all of [s] when it has none. *)
Fixpoint before (sep : ascii) (s : list ascii) : list ascii :=
  match s with
  | [] => []
  | c :: rest => if Ascii.eqb c sep then [] else c :: before sep rest
  end.

(** A text made of hexadecimal digits, and its value. *)
Definition all_hex (s : list ascii) : Prop :=
  Forall (fun c => is_Some (hex_digit c)) s.

Definition hex_value (s : list ascii) : Z :=
  foldl (fun acc c => 16 * acc + default 0 (hex_digit c)) 0 s.

End QByteArray.

(** ** CANFrameModel: the frame store *)

Module CANFrameModel.

(** Modelled from the spec: the [CANFrame] structure (declared in
    can_structs.h, a header that is not among the translated files).  The
    fields are the ones the model reads and writes: the identifier, the bus,
    the extended and remote flags, the direction, the time stamp in
    microseconds, the payload, and the two fields of overwrite mode,
    [timedelta] and [frameCount] (the specification's [interArrivalDelta]
    and [sequenceCount]), which are kept as unbounded integers. *)
Record CANFrame := Frame {
  frameId : Z;
  bus : Z;
  extended : bool;
  remote : bool;
  isReceived : bool;
  timeStamp : Z;
  payload : list Byte.byte;
  timedelta : Z;
  frameCount : Z
}.

Definition setTimeStamp (t : Z) (f : CANFrame) : CANFrame :=
  Frame (frameId f) (bus f) (extended f) (remote f) (isReceived f) t
        (payload f) (timedelta f) (frameCount f).

Definition setTimedelta (d : Z) (f : CANFrame) : CANFrame :=
  Frame (frameId f) (bus f) (extended f) (remote f) (isReceived f) (timeStamp f)
        (payload f) d (frameCount f).

Definition setFrameCount (c : Z) (f : CANFrame) : CANFrame :=
  Frame (frameId f) (bus f) (extended f) (remote f) (isReceived f) (timeStamp f)
        (payload f) (timedelta f) c.

(** Modelled from the spec: the [Column] enumeration (declared in
    canframemodel.h, a header that is not among the translated files); the
    members are the cases of the switch in [getCANFrameVal]. *)
Inductive Column :=
  | TimeStamp | FrameId | Extended | Remote | Direction | Bus | Length
  | ASCII | Data | CANOpenFunction | CANOpenNode | NUM_COLUMN.

(** The members of the model that the operations below read or write. *)
Record Model := Mk {
  frames : list CANFrame;
  filteredFrames : list CANFrame;
  filters : gmap Z bool;
  overwriteDups : bool;
  sortDirAsc : bool;
  timeOffset : Z;
  lastUpdateNumFrames : Z;
  needFilterRefresh : bool;
  filterNMTon : bool;
  filterSYNCon : bool;
  filterEMCYon : bool;
  filterTIMEon : bool;
  filterHBEATon : bool
}.

Definition with_frames (x : list CANFrame) (m : Model) : Model :=
  Mk x (filteredFrames m) (filters m) (overwriteDups m) (sortDirAsc m)
     (timeOffset m) (lastUpdateNumFrames m) (needFilterRefresh m)
     (filterNMTon m) (filterSYNCon m) (filterEMCYon m) (filterTIMEon m)
     (filterHBEATon m).

Definition with_filteredFrames (x : list CANFrame) (m : Model) : Model :=
  Mk (frames m) x (filters m) (overwriteDups m) (sortDirAsc m)
     (timeOffset m) (lastUpdateNumFrames m) (needFilterRefresh m)
     (filterNMTon m) (filterSYNCon m) (filterEMCYon m) (filterTIMEon m)
     (filterHBEATon m).

Definition with_filters (x : gmap Z bool) (m : Model) : Model :=
  Mk (frames m) (filteredFrames m) x (overwriteDups m) (sortDirAsc m)
     (timeOffset m) (lastUpdateNumFrames m) (needFilterRefresh m)
     (filterNMTon m) (filterSYNCon m) (filterEMCYon m) (filterTIMEon m)
     (filterHBEATon m).

Definition with_sortDirAsc (x : bool) (m : Model) : Model :=
  Mk (frames m) (filteredFrames m) (filters m) (overwriteDups m) x
     (timeOffset m) (lastUpdateNumFrames m) (needFilterRefresh m)
     (filterNMTon m) (filterSYNCon m) (filterEMCYon m) (filterTIMEon m)
     (filterHBEATon m).

Definition with_lastUpdateNumFrames (x : Z) (m : Model) : Model :=
  Mk (frames m) (filteredFrames m) (filters m) (overwriteDups m) (sortDirAsc m)
     (timeOffset m) x (needFilterRefresh m)
     (filterNMTon m) (filterSYNCon m) (filterEMCYon m) (filterTIMEon m)
     (filterHBEATon m).

Definition with_needFilterRefresh (x : bool) (m : Model) : Model :=
  Mk (frames m) (filteredFrames m) (filters m) (overwriteDups m) (sortDirAsc m)
     (timeOffset m) (lastUpdateNumFrames m) x
     (filterNMTon m) (filterSYNCon m) (filterEMCYon m) (filterTIMEon m)
     (filterHBEATon m).

(** The state that the constructor sets up; the protocol-class flags,
    which the constructor leaves alone, are taken as off. *)
Definition init : Model :=
  Mk [] [] ∅ false false 0 0 false false false false false false.

(** The filter key of an identifier: [id & 0x7F]. *)
Definition filter_key (id : Z) : Z := Z.land id 0x7F.

(** [filters[k]] through the non-const [QMap::operator[]]: a missing key is
    inserted with the default value [false]. *)
Definition index_filters (k : Z) (t : gmap Z bool) : bool * gmap Z bool :=
  match t !! k with
  | Some v => (v, t)
  | None => (false, <[k := false]> t)
  end.

(** The loop of [any_filters_are_configured] over the values of the table:
    it returns [true] at the first value that is not [true].  The outcome
    does not depend on the order in which the values come. *)
Fixpoint scan_configured (vals : list bool) : bool :=
  match vals with
  | [] => false
  | val :: rest => if val then scan_configured rest else true
  end.

Definition any_filters_are_configured (m : Model) : bool :=
  scan_configured (map_to_list (filters m)).*2.

(** Returns [false] if the frame is to be filtered out. *)
Definition filterFrameConsideringFunction (frame_id : Z) (m : Model) : bool :=
  let func := Z.shiftr (Z.land frame_id 0x7FF) 7 in
  if func =? 0 then (if filterNMTon m then false else true)
  else if func =? 1 then
    if Z.land frame_id 0x7F =? 0
    then (if filterSYNCon m then false else true)
    else (if filterEMCYon m then false else true)
  else if func =? 2 then (if filterTIMEon m then false else true)
  else if func =? 14 then (if filterHBEATon m then false else true)
  else true.

(** [filters[id & 0x7F] && filterFrameConsideringFunction(id)], with the
    table as [operator[]] leaves it. *)
Definition passes (f : CANFrame) (m : Model) : bool * Model :=
  let '(v, t) := index_filters (filter_key (frameId f)) (filters m) in
  let m' := with_filters t m in
  (v && filterFrameConsideringFunction (frameId f) m', m').

(** The two frames belong to the same row of overwrite mode. *)
Definition same_row (a b : CANFrame) : bool :=
  (frameId a =? frameId b) && (bus a =? bus b).

(** The scan of the full store in overwrite mode: the first row of the same
    identifier and bus is replaced by the incoming frame, which takes the
    row's count plus one and the time since the row's time stamp.  Returns
    the store and the frame as updated, or [None] when no row matches. *)
Fixpoint overwrite_scan (tempFrame : CANFrame) (rows : list CANFrame)
    : option (list CANFrame * CANFrame) :=
  match rows with
  | [] => None
  | row :: rest =>
      if same_row row tempFrame then
        let t1 := setFrameCount (frameCount row + 1) tempFrame in
        let t2 := setTimedelta (timeStamp t1 - timeStamp row) t1 in
        Some (t2 :: rest, t2)
      else
        match overwrite_scan tempFrame rest with
        | Some (rest', t) => Some (row :: rest', t)
        | None => None
        end
  end.

(** The loop that mirrors a replaced row into the filtered view. *)
Definition mirror_filtered (tempFrame : CANFrame) (view : list CANFrame) : list CANFrame :=
  (fun row => if same_row row tempFrame then tempFrame else row) <$> view.

(** Registration of a key that the table does not hold yet, as [addFrame]
    does it. *)
Definition register_key (k : Z) (m : Model) : Model :=
  match filters m !! k with
  | Some _ => m
  | None =>
      let v := if any_filters_are_configured m then false else true in
      with_needFilterRefresh true (with_filters (<[k := v]> (filters m)) m)
  end.

(** Append to the full store and, if the filters let the frame pass, to the
    filtered view; the copy in the view is reset as the code resets it. *)
Definition append_fresh (reset : CANFrame -> CANFrame) (tempFrame : CANFrame)
    (m : Model) : Model :=
  let m1 := with_frames (frames m ++ [tempFrame]) m in
  let '(ok, m2) := passes tempFrame m1 in
  if ok then with_filteredFrames (filteredFrames m2 ++ [reset tempFrame]) m2
  else m2.

Definition addFrame (frame : CANFrame) (autoRefresh : bool) (m : Model) : Model :=
  let tempFrame := setTimeStamp (timeStamp frame - timeOffset m) frame in
  let m := with_lastUpdateNumFrames (lastUpdateNumFrames m + 1) m in
  let m := register_key (filter_key (frameId tempFrame)) m in
  if negb (overwriteDups m) then
    append_fresh (setFrameCount 1) tempFrame m
  else
    match overwrite_scan tempFrame (frames m) with
    | None =>
        append_fresh (fun t => setTimedelta 0 (setFrameCount 1 t)) tempFrame m
    | Some (rows, t) =>
        with_filteredFrames (mirror_filtered t (filteredFrames m))
          (with_frames rows m)
    end.

(** [addFrames]: one [addFrame] per frame of the batch. *)
Definition addFrames (pFrames : list CANFrame) (m : Model) : Model :=
  foldl (fun acc frame => addFrame frame false acc) m pFrames.

(** The first loop of [sendRefresh]. *)
Fixpoint refresh_scan (rows : list CANFrame) (tempContainer : list CANFrame)
    (m : Model) : list CANFrame * Model :=
  match rows with
  | [] => (tempContainer, m)
  | row :: rest =>
      let '(ok, m') := passes row m in
      refresh_scan rest (if ok then tempContainer ++ [row] else tempContainer) m'
  end.

Definition sendRefresh (m : Model) : Model :=
  let '(tempContainer, m') := refresh_scan (frames m) [] m in
  with_lastUpdateNumFrames 0 (with_filteredFrames ([] ++ tempContainer) m').

Definition setFilterState (ID : Z) (state : bool) (m : Model) : Model :=
  match filters m !! filter_key ID with
  | None => m
  | Some _ =>
      sendRefresh (with_filters (<[Int.to_int32 ID := state]> (filters m)) m)
  end.

Definition setAllFilters (state : bool) (m : Model) : Model :=
  sendRefresh (with_filters ((fun _ => state) <$> filters m) m).

(** One pass through the loop of [insertFrames]. *)
Definition insert_one (m : Model) (f : CANFrame) : Model :=
  let m1 := with_frames (frames m ++ [f]) m in
  let k := filter_key (frameId f) in
  let m2 := match filters m1 !! k with
            | Some _ => m1
            | None => with_needFilterRefresh true
                        (with_filters (<[k := true]> (filters m1)) m1)
            end in
  let '(ok, m3) := passes f m2 in
  if ok then with_filteredFrames (filteredFrames m3 ++ [f]) m3 else m3.

Definition insertFrames (newFrames : list CANFrame) (m : Model) : Model :=
  with_lastUpdateNumFrames (Z.of_nat (length newFrames))
    (foldl insert_one m newFrames).

(** *** The column sort *)

(** [frames[row]] and [frames->at(row)]: defined for [0 <= row < count]. *)
Definition at_row (rows : list CANFrame) (row : Z) : option CANFrame :=
  if decide (0 <= row) then rows !! Z.to_nat row else None.

(** The loop of the [Data] and [ASCII] cases of [getCANFrameVal]:
    [temp += static_cast<uint64_t>(payload[i]) << (56 - 8 * i)].  The shift
    count is non-negative for the first eight bytes, which is all a frame
    of at most eight bytes has. *)
Fixpoint pack_payload (bytes : list Byte.byte) (i : Z) (temp : Z) : Z :=
  match bytes with
  | [] => temp
  | c :: rest =>
      pack_payload rest (i + 1)
        (Int.to_uint64
           (temp + Int.to_uint64 (Z.shiftl (Int.to_uint64 (Int.char_to_int c)) (56 - 8 * i))))
  end.

(** The switch of [getCANFrameVal] on a frame; the value is a [uint64_t]. *)
Definition frameVal (overwrite : bool) (col : Column) (frame : CANFrame) : Z :=
  match col with
  | TimeStamp =>
      if overwrite then Int.to_uint64 (timedelta frame)
      else Int.to_uint64 (timeStamp frame)
  | FrameId => Int.to_uint64 (frameId frame)
  | Extended => if extended frame then 1 else 0
  | Remote =>
      if overwrite then Int.to_uint64 (frameCount frame)
      else if remote frame then 1 else 0
  | Direction => if isReceived frame then 1 else 0
  | Bus => Int.to_uint64 (bus frame)
  | Length => Int.to_uint64 (Z.of_nat (length (payload frame)))
  | ASCII | Data => pack_payload (payload frame) 0 0
  | CANOpenFunction => Int.to_uint64 (Z.shiftr (frameId frame) 7)
  | CANOpenNode => Int.to_uint64 (Z.land (frameId frame) 0x7f)
  | NUM_COLUMN => 0
  end.

(** [getCANFrameVal] reads the full store of the model.  The sort never
    asks for a negative row; the model answers 0 there. *)
Definition getCANFrameVal (row : Z) (col : Column) (m : Model) : Z :=
  if row >=? Z.of_nat (length (frames m)) then 0
  else match at_row (frames m) row with
       | Some frame => frameVal (overwriteDups m) col frame
       | None => 0
       end.

(** The comparison that keeps a scan going: [a < b] in the ascending sort,
    [a > b] in the descending one. *)
Definition strictly_before (asc : bool) (a b : Z) : bool :=
  if asc then a <? b else a >? b.

(** [do { i++; } while ((i < upperBound) && getCANFrameVal(i, column) < piv);]
    ([> piv] when descending).  [n] bounds the number of further passes;
    [None] means that the bound was too small. *)
Fixpoint scan_up (asc : bool) (n : nat) (col : Column) (upperBound piv i : Z)
    (m : Model) : option Z :=
  let i := i + 1 in
  if (i <? upperBound) && strictly_before asc (getCANFrameVal i col m) piv then
    match n with
    | O => None
    | S n' => scan_up asc n' col upperBound piv i m
    end
  else Some i.

(** [do { j--; } while ((j > lowerBound) && getCANFrameVal(j, column) > piv);]
    ([< piv] when descending). *)
Fixpoint scan_down (asc : bool) (n : nat) (col : Column) (lowerBound piv j : Z)
    (m : Model) : option Z :=
  let j := j - 1 in
  if (j >? lowerBound) && strictly_before asc piv (getCANFrameVal j col m) then
    match n with
    | O => None
    | S n' => scan_down asc n' col lowerBound piv j m
    end
  else Some j.

(** The exchange of rows [i] and [j] through [at] and [replace]. *)
Definition swap_rows (i j : Z) (m : Model) : option Model :=
  temp ← at_row (frames m) i;
  fj ← at_row (frames m) j;
  Some (with_frames (<[Z.to_nat j := temp]> (<[Z.to_nat i := fj]> (frames m))) m).

(** The [for (;;)] loop of the partition; returns [p] and the store. *)
Fixpoint partition_loop (asc : bool) (n : nat) (col : Column)
    (lowerBound upperBound piv i j : Z) (m : Model) : option (Z * Model) :=
  match n with
  | O => None
  | S n' =>
      i' ← scan_up asc (Z.to_nat (upperBound - i)) col upperBound piv i m;
      j' ← scan_down asc (Z.to_nat (j - lowerBound)) col lowerBound piv j m;
      if i' <? j' then
        m' ← swap_rows i' j' m;
        partition_loop asc n' col lowerBound upperBound piv i' j' m'
      else Some (j', m)
  end.

(** [qSortCANFrameAsc] ([asc = true]) and [qSortCANFrameDesc]
    ([asc = false]); the two functions differ in the two comparisons of the
    scans only.  [n] bounds the depth of the recursion. *)
Fixpoint qSortCANFrame (asc : bool) (n : nat) (column : Column)
    (lowerBound upperBound : Z) (m : Model) : option Model :=
  if lowerBound <? upperBound then
    match n with
    | O => None
    | S n' =>
        let piv := getCANFrameVal (lowerBound + (upperBound - lowerBound) ÷ 2) column m in
        let i := lowerBound - 1 in
        let j := upperBound + 1 in
        '(p, m1) ← partition_loop asc (Z.to_nat (upperBound - lowerBound + 2))
                     column lowerBound upperBound piv i j m;
        m2 ← qSortCANFrame asc n' column lowerBound p m1;
        qSortCANFrame asc n' column (p + 1) upperBound m2
    end
  else Some m.

Definition qSortCANFrameAsc := qSortCANFrame true.
Definition qSortCANFrameDesc := qSortCANFrame false.

Definition sortByColumn (column : Column) (m : Model) : option Model :=
  let m := with_sortDirAsc (negb (sortDirAsc m)) m in
  let count := Z.of_nat (length (frames m)) in
  m' ← (if sortDirAsc m
        then qSortCANFrameAsc (length (frames m)) column 0 (count - 1) m
        else qSortCANFrameDesc (length (frames m)) column 0 (count - 1) m);
  Some (sendRefresh m').

(** *** The filter file *)

(** The body of the [while] loop of [loadFilterFile] for one line read.
    [tokens[1]] does not exist when the line holds no comma: the access is
    undefined and the result is [None]. *)
Definition load_line (raw : list ascii) (t : gmap Z bool) : option (gmap Z bool) :=
  let line := QByteArray.simplified raw in
  if Z.of_nat (length line) >? 2 then
    let tokens := QByteArray.split ","%char line in
    t0 ← tokens !! 0%nat;
    let ID := QByteArray.toInt16 t0 in
    t1 ← tokens !! 1%nat;
    if decide (QByteArray.toUpper t1 = ["T"%char])
    then Some (<[filter_key ID := true]> t)
    else Some (<[filter_key ID := false]> t)
  else Some t.

Fixpoint load_lines (lines : list (list ascii)) (t : gmap Z bool)
    : option (gmap Z bool) :=
  match lines with
  | [] => Some t
  | raw :: rest => t' ← load_line raw t; load_lines rest t'
  end.

(** [file] is the text that the named file yields when read in text mode,
    [None] when it cannot be opened.  The table is cleared, filled line by
    line, and the view refreshed. *)
Definition loadFilterFile (file : option string) (m : Model) : option Model :=
  match file with
  | None => Some m
  | Some content =>
      t ← load_lines (QByteArray.readLines (list_ascii_of_string content)) ∅;
      Some (sendRefresh (with_filters t m))
  end.

(** *** Notions used to state the properties of the store *)

(** The condition [filters[id & 0x7F] && filterFrameConsideringFunction(id)]
    read off a state without touching it: an absent key reads [false]. *)
Definition shouldInclude (m : Model) (f : CANFrame) : bool :=
  default false (filters m !! filter_key (frameId f))
  && filterFrameConsideringFunction (frameId f) m.

(** [m'] is [m] up to entries that [operator[]] has added to the filter
    table: every lookup reads as before, an absent key as [false]. *)
Definition agree (m m' : Model) : Prop :=
  m' = with_filters (filters m') m /\
  forall k, default false (filters m' !! k) = default false (filters m !! k) /\
            (forall v, filters m !! k = Some v -> filters m' !! k = Some v).

(** The pair that identifies a row of overwrite mode. *)
Definition row_key (f : CANFrame) : Z * Z := (frameId f, bus f).

(** The number of frames of a sequence with the given identifier and bus. *)
Fixpoint occurrences (p : Z * Z) (fs : list CANFrame) : Z :=
  match fs with
  | [] => 0
  | f :: rest => (if bool_decide (row_key f = p) then 1 else 0) + occurrences p rest
  end.

(** The [frameCount] that the first frame of a sequence with the given
    identifier and bus carries. *)
Fixpoint first_count (p : Z * Z) (fs : list CANFrame) : Z :=
  match fs with
  | [] => 0
  | f :: rest => if bool_decide (row_key f = p) then frameCount f else first_count p rest
  end.

(** The state of a store in overwrite mode that has ingested [fs]. *)
Definition dedup_inv (fs : list CANFrame) (m : Model) : Prop :=
  overwriteDups m = true /\
  NoDup (row_key <$> frames m) /\
  (forall p, p ∈ row_key <$> frames m <-> p ∈ row_key <$> fs) /\
  (forall row, row ∈ frames m ->
     frameCount row = first_count (row_key row) fs + occurrences (row_key row) fs - 1).

(** A fresh model switched to overwrite mode. *)
Definition dedup_init : Model :=
  Mk [] [] ∅ true false 0 0 false false false false false false.

(** A frame that arrives with a [frameCount] of 5. *)
Definition counted_frame : CANFrame := Frame 0x100 0 false false true 0 [] 0 5.

(** The order of the requested direction on keys. *)
Definition ord (asc : bool) (a b : Z) : Prop := if asc then a <= b else b <= a.

(** The key of row [k] of a store under a key function; 0 outside the
    store, as [getCANFrameVal] has it. *)
Definition valL (kf : CANFrame -> Z) (rows : list CANFrame) (k : Z) : Z :=
  match at_row rows k with
  | Some f => kf f
  | None => 0
  end.

(** The rows between two bounds are in the order of the direction. *)
Definition sorted_between (asc : bool) (kf : CANFrame -> Z) (rows : list CANFrame)
    (lo hi : Z) : Prop :=
  forall a b, lo <= a -> a <= b -> b <= hi -> ord asc (valL kf rows a) (valL kf rows b).

(** A store of five frames, for examples. *)
Definition five_row_model : Model :=
  Mk ((fun id => Frame id 0 false false true 0 [] 0 1) <$> [5; 3; 9; 1; 3]) []
     ∅ false false 0 0 false false false false false false.

(** [rows'] results from [rows] by exchanges of rows between the bounds
    [lo] and [hi]. *)
Inductive permuted_within (lo hi : Z) : list CANFrame -> list CANFrame -> Prop :=
  | pw_refl rows : permuted_within lo hi rows rows
  | pw_step rows i j a b rows' :
      lo <= i <= hi -> lo <= j <= hi ->
      at_row rows i = Some a -> at_row rows j = Some b ->
      permuted_within lo hi (<[Z.to_nat j := a]> (<[Z.to_nat i := b]> rows)) rows' ->
      permuted_within lo hi rows rows'.

(** A store of one frame with identifier 5, shown in the view, with its
    key enabled; for examples. *)
Definition one_row_model : Model :=
  Mk [Frame 5 0 false false true 0 [] 0 1] [Frame 5 0 false false true 0 [] 0 1]
     (<[5 := true]> ∅) false false 0 0 false false false false false false.

(** The line feed, and the file content ["123,T\n456,F\n"]. *)
Definition newline : string := String (ascii_of_nat 10) EmptyString.

Definition two_line_file : string :=
  ("123,T" ++ newline ++ "456,F" ++ newline)%string.

(** A received data frame without payload, for examples. *)
Definition frame_with_id (id : Z) : CANFrame := Frame id 0 false false true 0 [] 0 1.

(** *** Time normalisation, clearing, bulk refresh *)

Definition with_timeOffset (x : Z) (m : Model) : Model :=
  Mk (frames m) (filteredFrames m) (filters m) (overwriteDups m) (sortDirAsc m)
     x (lastUpdateNumFrames m) (needFilterRefresh m)
     (filterNMTon m) (filterSYNCon m) (filterEMCYon m) (filterTIMEon m)
     (filterHBEATon m).

(** The loop of [normalizeTiming] that looks for the lowest time stamp,
    starting from a first candidate. *)
Fixpoint lowest_stamp (rows : list CANFrame) (timeOffset : Z) : Z :=
  match rows with
  | [] => timeOffset
  | row :: rest =>
      lowest_stamp rest (if timeStamp row <? timeOffset then timeStamp row else timeOffset)
  end.

(** [normalizeTiming]: nothing on an empty store; otherwise the lowest time
    stamp of the full store becomes the offset and is subtracted from every
    row of the store and of the view.  Time stamps are microsecond counts
    between 0 and [2^63], where the comparison and the subtraction are
    exact. *)
Definition normalizeTiming (m : Model) : Model :=
  match frames m with
  | [] => m
  | first :: _ =>
      let off := lowest_stamp (frames m) (timeStamp first) in
      let shift := fun f => setTimeStamp (timeStamp f - off) f in
      with_filteredFrames (shift <$> filteredFrames m)
        (with_frames (shift <$> frames m) (with_timeOffset off m))
  end.

(** [clearFrames]: both sequences and the counter of the bulk refresh are
    emptied; the filter definitions stay. *)
Definition clearFrames (m : Model) : Model :=
  with_lastUpdateNumFrames 0 (with_filteredFrames [] (with_frames [] m)).

(** [sendBulkRefresh]: the number of frames added since the last refresh,
    and the state with the counter reset; 0 and no reset when nothing was
    added or the view is empty. *)
Definition sendBulkRefresh (m : Model) : Z * Model :=
  if lastUpdateNumFrames m <=? 0 then (0, m)
  else if (lastUpdateNumFrames m =? 0) && negb (overwriteDups m) then (0, m)
  else if Z.of_nat (length (filteredFrames m)) =? 0 then (0, m)
  else (lastUpdateNumFrames m, with_lastUpdateNumFrames 0 m).

(** [needsFilterRefresh]: the flag, and the state with the flag cleared. *)
Definition needsFilterRefresh (m : Model) : bool * Model :=
  (needFilterRefresh m, with_needFilterRefresh false m).

(** A store of two frames with time stamps 700 and 500, both shown. *)
Definition two_stamp_model : Model :=
  Mk [Frame 1 0 false false true 700 [] 0 1; Frame 2 0 false false true 500 [] 0 1]
     [Frame 1 0 false false true 700 [] 0 1; Frame 2 0 false false true 500 [] 0 1]
     (<[1 := true]> (<[2 := true]> ∅)) false false 0 0 false false false false false false.

(** The view is in step with the store: the key of every stored frame is
    in the filter table, and the view holds the stored frames that the
    filters let pass, in the order of the store. *)
Definition view_in_step (m : Model) : Prop :=
  (forall f, f ∈ frames m -> is_Some (filters m !! filter_key (frameId f))) /\
  filteredFrames m = List.filter (shouldInclude m) (frames m).

(** *** recalcOverwrite and setOverwriteMode *)

Definition with_overwriteDups (x : bool) (m : Model) : Model :=
  Mk (frames m) (filteredFrames m) (filters m) x (sortDirAsc m)
     (timeOffset m) (lastUpdateNumFrames m) (needFilterRefresh m)
     (filterNMTon m) (filterSYNCon m) (filterEMCYon m) (filterTIMEon m)
     (filterHBEATon m).

(** [frame.bus << 29ull]: the left operand is an [int] and so is the
    result; the shift is defined for a bus that is not negative and a
    result that is an [int]. *)
Definition shl_bus (b : Z) : option Z :=
  if decide (0 <= b /\ b * 2 ^ 29 < 2 ^ 31) then Some (b * 2 ^ 29) else None.

(** [idAugmented]: the identifier plus the shifted bus, as a [uint64_t]. *)
Definition idAugmented (frame : CANFrame) : option Z :=
  s ← shl_bus (bus frame);
  Some (Int.to_uint64 (Int.to_uint64 (frameId frame) + Int.to_uint64 s)).

(** The [foreach] loop of [recalcOverwrite] over the stored frames, filling
    the hash [overWriteFrames]. *)
Fixpoint overwrite_collect (rows : list CANFrame) (overWriteFrames : gmap Z CANFrame)
    : option (gmap Z CANFrame) :=
  match rows with
  | [] => Some overWriteFrames
  | frame :: rest =>
      k ← idAugmented frame;
      match overWriteFrames !! k with
      | None =>
          overwrite_collect rest
            (<[k := setFrameCount 1 (setTimedelta 0 frame)]> overWriteFrames)
      | Some prev =>
          let f1 := setTimedelta (timeStamp frame - timeStamp prev) frame in
          let f2 := setFrameCount (frameCount prev + 1) f1 in
          overwrite_collect rest (<[k := f2]> overWriteFrames)
      end
  end.

(** [recalcOverwrite].  [values] stands for [QHash::values], which lists
    the values of a hash in an order of its own. *)
Definition recalcOverwrite (values : gmap Z CANFrame -> list CANFrame) (m : Model)
    : option Model :=
  if negb (overwriteDups m) then Some m
  else
    h ← overwrite_collect (frames m) ∅;
    let m1 := with_frames ([] ++ values h) m in
    let '(view, m2) := refresh_scan (frames m1) [] m1 in
    Some (with_filteredFrames view m2).

Definition setOverwriteMode (values : gmap Z CANFrame -> list CANFrame) (mode : bool)
    (m : Model) : option Model :=
  recalcOverwrite values (with_overwriteDups mode m).

(** An identifier of at most 29 bits on one of the buses 0 to 3. *)
Definition small_key (f : CANFrame) : Prop :=
  0 <= frameId f < 2 ^ 29 /\ 0 <= bus f <= 3.

(** The hash after the frames [done]: one entry for each identifier and bus
    seen, under its own key, counting the frames of that identifier and
    bus. *)
Definition collected (done : list CANFrame) (h : gmap Z CANFrame) : Prop :=
  (forall k f, h !! k = Some f ->
     small_key f /\ idAugmented f = Some k /\
     row_key f ∈ row_key <$> done /\
     frameCount f = occurrences (row_key f) done) /\
  (forall g, g ∈ done -> exists k, idAugmented g = Some k /\ is_Some (h !! k)).

(** A store that holds identifier 5 twice and identifier 6 once. *)
Definition repeated_model : Model :=
  Mk ((fun id => Frame id 0 false false true 0 [] 0 1) <$> [5; 6; 5]) []
     (<[5 := true]> (<[6 := false]> ∅)) false false 0 0 false false false false false false.

End CANFrameModel.

(** * Properties *)

(** ** Fixed-width integers *)

Module IntFacts.
Import Int.

Lemma to_int64_range z : in_int64 (to_int64 z).
Proof.
  unfold in_int64, to_int64.
  pose proof (Z.mod_pos_bound (z + 2 ^ 63) (2 ^ 64)). lia.
Qed.

Lemma to_uint64_small z : 0 <= z < 2 ^ 64 -> to_uint64 z = z.
Proof. intros. unfold to_uint64. apply Z.mod_small. lia. Qed.

Lemma to_int64_small z : - 2 ^ 63 <= z < 2 ^ 63 -> to_int64 z = z.
Proof. intros. unfold to_int64. rewrite Z.mod_small; lia. Qed.

Lemma to_int64_high z : 2 ^ 63 <= z < 2 ^ 64 -> to_int64 z = z - 2 ^ 64.
Proof.
  intros. unfold to_int64.
  replace (z + 2 ^ 63) with (z - 2 ^ 63 + 1 * 2 ^ 64) by lia.
  rewrite Z.mod_add by lia. rewrite Z.mod_small; lia.
Qed.

Lemma shl1_u64_Some n : 0 <= n < 64 -> shl1_u64 n = Some (2 ^ n).
Proof.
  intros. unfold shl1_u64. rewrite decide_True by lia.
  rewrite Z.shiftl_1_l. reflexivity.
Qed.

Lemma shl1_int_Some n : 0 <= n < 31 -> shl1_int n = Some (2 ^ n).
Proof.
  intros. unfold shl1_int. rewrite decide_True by lia.
  rewrite Z.shiftl_1_l. reflexivity.
Qed.

Lemma add_i64_u64_small a x :
  0 <= a -> 0 <= x -> a + x < 2 ^ 63 -> add_i64_u64 a x = a + x.
Proof.
  intros. unfold add_i64_u64.
  rewrite (to_uint64_small a) by lia.
  rewrite to_uint64_small by lia.
  apply to_int64_small. lia.
Qed.

Lemma add_i64_u64_range a x : in_int64 (add_i64_u64 a x).
Proof. apply to_int64_range. Qed.

(** [(r & 2^k) == 2^k] tests bit [k] of [r]. *)
Lemma land_pow2_eq r k :
  0 <= k -> Z.land r (2 ^ k) = 2 ^ k <-> Z.testbit r k = true.
Proof.
  intros Hk. split.
  - intros H. apply (f_equal (fun z => Z.testbit z k)) in H.
    rewrite Z.land_spec, Z.pow2_bits_true in H by lia.
    now rewrite andb_true_r in H.
  - intros H. apply Z.bits_inj'. intros n Hn.
    rewrite Z.land_spec, Z.pow2_bits_eqb by lia.
    destruct (Z.eqb_spec k n) as [->|]; [now rewrite H | apply andb_false_r].
Qed.

(** The bits above a [k]-bit field, or-ed onto the field. *)
Lemma lor_high_mask r k :
  0 <= k <= 64 -> 0 <= r < 2 ^ k ->
  Z.lor (2 ^ 64 - 2 ^ k) r = 2 ^ 64 - 2 ^ k + r.
Proof.
  intros Hk Hr.
  assert (Hdis : Z.land (2 ^ 64 - 2 ^ k) r = 0).
  { replace (2 ^ 64 - 2 ^ k) with ((2 ^ (64 - k) - 1) * 2 ^ k).
    2:{ rewrite Z.mul_sub_distr_r, <- Z.pow_add_r by lia.
        replace (64 - k + k) with 64 by lia. lia. }
    apply Z.bits_inj'. intros n Hn.
    rewrite Z.land_spec, Z.bits_0.
    destruct (Z.ltb_spec n k).
    - rewrite Z.mul_pow2_bits_low by lia. reflexivity.
    - assert (Hb : Z.testbit r n = false).
      { apply Z.testbit_false; [lia|].
        rewrite Z.div_small; [reflexivity|].
        split; [lia|]. apply Z.lt_le_trans with (2 ^ k); [lia|].
        apply Z.pow_le_mono_r; lia. }
      rewrite Hb. apply andb_false_r. }
  rewrite <- Z.lxor_lor by exact Hdis.
  symmetry. apply Z.add_nocarry_lxor. exact Hdis.
Qed.

End IntFacts.

(** ** The signal extractor *)

Module UtilityFacts.
Import Int IntFacts Utility.

Lemma bit_set_defined data b :
  0 <= b -> b ÷ 8 < size data -> is_Some (bit_set data b).
Proof.
  intros Hb Hlt. unfold bit_set, byte_at, size in *.
  assert (0 <= b ÷ 8) by (apply Z.quot_pos; lia).
  rewrite decide_True by lia.
  destruct (lookup_lt_is_Some_2 data (Z.to_nat (b ÷ 8))) as [c Hc]; [lia|].
  rewrite Hc. simpl.
  pose proof (Z.rem_bound_pos b 8 Hb ltac:(lia)).
  rewrite shl1_int_Some by lia. simpl. eauto.
Qed.

(** What one guarded read can do at a non-negative bit position with a
    destination inside the result. *)
Lemma read_bit_cases data dest s :
  0 <= bit s -> 0 <= dest < 64 ->
  (read_bit data dest s = Return 0 /\ bit s < 64 /\ size data <= bit s ÷ 8) \/
  ((64 <= bit s \/ bit s ÷ 8 < size data) /\
   (read_bit data dest s = Continue (result s) \/
    read_bit data dest s = Continue (add_i64_u64 (result s) (2 ^ dest)))).
Proof.
  intros Hb Hd. unfold read_bit.
  destruct (Z.ltb_spec (bit s) 64); [|right; split; [lia | now left]].
  destruct (Z.geb_spec (bit s ÷ 8) (size data)); [left; repeat split; lia|].
  right. split; [lia|].
  destruct (bit_set_defined data (bit s)) as [[|] ->]; try lia.
  - rewrite shl1_u64_Some by lia. now right.
  - now left.
Qed.

Lemma be_next_nonneg b : 0 <= b -> 0 <= be_next b.
Proof. intros. unfold be_next. destruct (Z.eqb_spec (Z.rem b 8) 0); [lia|].
  assert (b <> 0) by (intros ->; now apply n). lia.
Qed.

(** Invariant rule for the loop: the body either returns 0 or keeps the
    invariant. *)
Lemma for_loop_inv (P : Z -> state -> Prop) body n bitpos s :
  P bitpos s ->
  (forall k st, bitpos <= k < bitpos + Z.of_nat n -> P k st ->
     body k st = Return 0 \/ exists st', body k st = Continue st' /\ P (k + 1) st') ->
  for_loop body n bitpos s = Return 0 \/
  exists s', for_loop body n bitpos s = Continue s' /\ P (bitpos + Z.of_nat n) s'.
Proof.
  revert bitpos s. induction n as [|n IH]; intros bitpos s HP Hbody.
  - right. exists s. simpl. rewrite Z.add_0_r. auto.
  - simpl for_loop.
    destruct (Hbody bitpos s ltac:(lia) HP) as [-> | (st' & -> & HP')]; [now left|].
    destruct (IH (bitpos + 1) st' HP') as [-> | (s' & -> & HP'')].
    + intros k st Hk. apply Hbody. lia.
    + now left.
    + right. exists s'. split; [reflexivity|].
      replace (bitpos + Z.of_nat (S n)) with (bitpos + 1 + Z.of_nat n) by lia. exact HP''.
Qed.

Lemma body_of_eq data sigSize le bitpos s :
  body_of data sigSize le bitpos s =
  match read_bit data (dest_of sigSize le bitpos) s with
  | Undefined => Undefined
  | Return v => Return v
  | Continue r => Continue (St (next_bit le (bit s)) r)
  end.
Proof. destruct le; reflexivity. Qed.

Lemma next_bit_nonneg le b : 0 <= b -> 0 <= next_bit le b.
Proof. destruct le; simpl; [lia | apply be_next_nonneg]. Qed.

Lemma dest_of_range sigSize le k :
  0 <= k < sigSize -> sigSize <= 64 -> 0 <= dest_of sigSize le k < 64.
Proof. destruct le; simpl; lia. Qed.

(** The loop never runs into undefined behaviour on a layout with a
    non-negative start and at most 64 bits, and its result is an
    [int64_t]. *)
Lemma for_loop_defined data sigSize le startBit :
  0 <= startBit -> sigSize <= 64 ->
  let r := for_loop (body_of data sigSize le) (Z.to_nat sigSize) 0 (St startBit 0) in
  r = Return 0 \/ exists s', r = Continue s' /\ in_int64 (result s').
Proof.
  intros Hs Hn r. subst r.
  destruct (for_loop_inv (fun _ st => 0 <= bit st /\ in_int64 (result st))
              (body_of data sigSize le) (Z.to_nat sigSize) 0 (St startBit 0))
    as [H | (s' & H & _ & H')].
  - simpl. unfold in_int64. lia.
  - intros k st Hk [Hb Hr]. rewrite body_of_eq.
    destruct (read_bit_cases data (dest_of sigSize le k) st Hb) as [(-> & _) | (_ & [-> | ->])].
    + apply dest_of_range; lia.
    + now left.
    + right. eexists. split; [reflexivity|]. simpl. split; [now apply next_bit_nonneg | exact Hr].
    + right. eexists. split; [reflexivity|]. simpl.
      split; [now apply next_bit_nonneg | apply add_i64_u64_range].
  - now left.
  - right. eauto.
Qed.

(** A visited bit position below 64 that lies outside the payload makes the
    loop return 0. *)
Lemma for_loop_outside data sigSize le n bitpos s b :
  0 <= bit s -> 0 <= bitpos -> bitpos + Z.of_nat n <= sigSize -> sigSize <= 64 ->
  b ∈ traversal le (bit s) n -> b < 64 -> size data <= b ÷ 8 ->
  for_loop (body_of data sigSize le) n bitpos s = Return 0.
Proof.
  revert bitpos s. induction n as [|n IH]; intros bitpos s Hb Hk Hn H64 Hin Hlt Hout.
  - simpl in Hin. inversion Hin.
  - simpl in Hin. simpl for_loop. rewrite body_of_eq.
    destruct (read_bit_cases data (dest_of sigSize le bitpos) s Hb)
      as [(-> & _) | (Hread & Hcont)].
    + apply dest_of_range; lia.
    + reflexivity.
    + apply elem_of_cons in Hin as [-> | Hin]; [lia|].
      assert (Hnext : (if le then bit s + 1 else be_next (bit s)) = next_bit le (bit s))
        by (destruct le; reflexivity).
      rewrite Hnext in Hin.
      destruct Hcont as [-> | ->]; apply IH; simpl; auto using next_bit_nonneg; lia.
Qed.

Lemma processIntegerSignal_unfold data startBit sigSize le sg :
  processIntegerSignal data startBit sigSize le sg =
  if size data <? (startBit + sigSize) ÷ 8 then Some 0
  else match for_loop (body_of data sigSize le) (Z.to_nat sigSize) 0 (St startBit 0) with
       | Undefined => None
       | Return v => Some v
       | Continue s => if sg then sign_extend sigSize (result s) else Some (result s)
       end.
Proof. reflexivity. Qed.

Lemma acc_ok_keep sigSize le k r :
  0 <= k < sigSize -> acc_ok sigSize le k r -> acc_ok sigSize le (k + 1) r.
Proof.
  intros Hk. destruct le; simpl.
  - intros Hr. rewrite Z.pow_add_r by lia. lia.
  - intros (q & Hq & ->). exists (2 * q). split.
    + rewrite Z.pow_add_r by lia. lia.
    + replace (sigSize - k) with (sigSize - (k + 1) + 1) by lia.
      rewrite Z.pow_add_r by lia. lia.
Qed.

Lemma acc_ok_add sigSize le k r :
  0 <= k < sigSize -> sigSize <= 63 -> acc_ok sigSize le k r ->
  acc_ok sigSize le (k + 1) (add_i64_u64 r (2 ^ dest_of sigSize le k)).
Proof.
  intros Hk H63. destruct le; simpl.
  - intros Hr.
    assert (2 ^ (k + 1) <= 2 ^ 63) by (apply Z.pow_le_mono_r; lia).
    rewrite Z.pow_add_r in * by lia.
    rewrite add_i64_u64_small; lia.
  - intros (q & Hq & ->).
    assert (Hp : 0 < 2 ^ (sigSize - k - 1)) by (apply Z.pow_pos_nonneg; lia).
    assert (Hsplit : 2 ^ (sigSize - k) = 2 * 2 ^ (sigSize - k - 1)).
    { rewrite <- Z.pow_succ_r by lia. f_equal. lia. }
    assert (Htop : 2 ^ (k + 1) * 2 ^ (sigSize - k - 1) <= 2 ^ 63).
    { rewrite <- Z.pow_add_r by lia. apply Z.pow_le_mono_r; lia. }
    assert (Hk1 : 2 ^ (k + 1) = 2 * 2 ^ k) by (rewrite Z.pow_add_r by lia; lia).
    rewrite Hsplit.
    rewrite add_i64_u64_small; [| nia | lia | nia].
    exists (2 * q + 1). split; [lia|].
    replace (sigSize - (k + 1)) with (sigSize - k - 1) by lia. lia.
Qed.

Lemma acc_ok_final sigSize le r :
  0 <= sigSize -> acc_ok sigSize le sigSize r -> 0 <= r < 2 ^ sigSize.
Proof.
  destruct le; simpl; [auto|]. intros H (q & Hq & ->).
  rewrite Z.sub_diag. simpl. lia.
Qed.

(** The value the loop leaves is a [sigSize]-bit field. *)
Lemma for_loop_field data sigSize le startBit :
  0 <= startBit -> 0 <= sigSize <= 63 ->
  let r := for_loop (body_of data sigSize le) (Z.to_nat sigSize) 0 (St startBit 0) in
  r = Return 0 \/ exists s', r = Continue s' /\ 0 <= result s' < 2 ^ sigSize.
Proof.
  intros Hs Hn r. subst r.
  destruct (for_loop_inv (fun k st => 0 <= bit st /\ acc_ok sigSize le k (result st))
              (body_of data sigSize le) (Z.to_nat sigSize) 0 (St startBit 0))
    as [H | (s' & H & _ & H')].
  - simpl. split; [lia|]. destruct le; simpl; [lia|]. exists 0. lia.
  - intros k st Hk [Hb Hr]. rewrite body_of_eq.
    destruct (read_bit_cases data (dest_of sigSize le k) st Hb) as [(-> & _) | (_ & [-> | ->])].
    + apply dest_of_range; lia.
    + now left.
    + right. eexists. split; [reflexivity|]. simpl.
      split; [now apply next_bit_nonneg | apply acc_ok_keep; [lia | exact Hr]].
    + right. eexists. split; [reflexivity|]. simpl.
      split; [now apply next_bit_nonneg | apply acc_ok_add; [lia | lia | exact Hr]].
  - now left.
  - right. exists s'. split; [exact H|].
    apply (acc_ok_final sigSize le); [lia|].
    replace (0 + Z.of_nat (Z.to_nat sigSize)) with sigSize in H' by lia. exact H'.
Qed.

(** Sign extension of a [sigSize]-bit field, for fields of up to 63 bits. *)
Lemma sign_extend_field sigSize r :
  1 <= sigSize <= 63 -> 0 <= r < 2 ^ sigSize ->
  sign_extend sigSize r =
  Some (if Z.testbit r (sigSize - 1) then r - 2 ^ sigSize else r).
Proof.
  intros Hn Hr. unfold sign_extend.
  rewrite (shl1_u64_Some (sigSize - 1)) by lia. simpl.
  assert (Hlow : 2 ^ (sigSize - 1) < 2 ^ 63) by (apply Z.pow_lt_mono_r; lia).
  assert (Hpos : 0 < 2 ^ (sigSize - 1)) by (apply Z.pow_pos_nonneg; lia).
  assert (Hle : 2 ^ sigSize <= 2 ^ 63) by (apply Z.pow_le_mono_r; lia).
  rewrite to_int64_small by lia.
  destruct (Z.testbit r (sigSize - 1)) eqn:Hbit.
  - rewrite decide_True by (apply land_pow2_eq; [lia | exact Hbit]).
    rewrite (shl1_u64_Some sigSize) by lia. simpl. f_equal.
    rewrite (to_uint64_small (2 ^ sigSize - 1)) by lia.
    change (to_uint64 (-1)) with (Z.ones 64).
    rewrite Z.land_comm, Z.land_ones by lia.
    unfold not_u64. rewrite Z.mod_small by lia.
    rewrite (to_uint64_small r) by lia.
    replace (2 ^ 64 - 1 - (2 ^ sigSize - 1)) with (2 ^ 64 - 2 ^ sigSize) by lia.
    rewrite lor_high_mask by lia.
    rewrite to_int64_high by lia. lia.
  - rewrite decide_False; [reflexivity|].
    intros H. apply land_pow2_eq in H; [congruence | lia].
Qed.

(** C1 (as the code has it): the two-byte payload [0x12, 0x34] decodes to
    0x3412 as a 16-bit intel signal at start bit 0.  As a 16-bit motorola
    signal at start bit 0 the walk leaves the payload after bit 8 (at bit
    23) and the result is 0; the motorola layout that yields 0x1234 starts
    at bit 7. *)
Theorem extract_two_byte_scenario :
  processIntegerSignal [Byte.x12; Byte.x34] 0 16 true false = Some 13330 /\
  processIntegerSignal [Byte.x12; Byte.x34] 0 16 false false = Some 0 /\
  traversal false 0 10 = [0; 15; 14; 13; 12; 11; 10; 9; 8; 23] /\
  processIntegerSignal [Byte.x12; Byte.x34] 7 16 false false = Some 4660.
Proof. repeat split; vm_compute; reflexivity. Qed.

(** C1 as the specification states it does not hold: big-endian at start
    bit 0 does not yield 0x1234. *)
Lemma extract_big_endian_start0_not_0x1234 :
  ~ (processIntegerSignal [Byte.x12; Byte.x34] 0 16 true false = Some 13330 /\
     processIntegerSignal [Byte.x12; Byte.x34] 0 16 false false = Some 4660).
Proof. intros [_ H]. vm_compute in H. discriminate H. Qed.

(** *** The checked function *)

Lemma add_int_Some a b : in_int (a + b) -> add_int a b = Some (a + b).
Proof. intros H. unfold add_int. now rewrite decide_True. Qed.

(** The checked body is the body, undefined when the new bit position is
    no [int]. *)
Lemma body_of_int_eq data sigSize le bitpos s :
  body_of_int data sigSize le bitpos s =
  match body_of data sigSize le bitpos s with
  | Continue st => if decide (in_int (bit st)) then Continue st else Undefined
  | r => r
  end.
Proof.
  destruct le; unfold body_of_int, body_of, le_body_int, le_body, be_body_int, be_body.
  - destruct (read_bit data bitpos s); try reflexivity.
    unfold add_int. cbn [bit]. destruct (decide (in_int (bit s + 1))); reflexivity.
  - destruct (read_bit data (sigSize - bitpos - 1) s); try reflexivity.
    unfold be_next_int, be_next, add_int. cbn [bit].
    destruct (Z.rem (bit s) 8 =? 0).
    + destruct (decide (in_int (bit s + 15))); reflexivity.
    + change (bit s + -1) with (bit s - 1).
      destruct (decide (in_int (bit s - 1))); reflexivity.
Qed.

(** Where the checked loop is defined, the loop over the integers runs the
    same way. *)
Lemma for_loop_int_refines data sigSize le n bitpos s :
  for_loop (body_of_int data sigSize le) n bitpos s <> Undefined ->
  for_loop (body_of data sigSize le) n bitpos s
    = for_loop (body_of_int data sigSize le) n bitpos s.
Proof.
  revert bitpos s. induction n as [|n IH]; intros bitpos s H; [reflexivity|].
  simpl for_loop in *. rewrite body_of_int_eq in *.
  destruct (body_of data sigSize le bitpos s) as [| v | st]; try reflexivity.
  destruct (decide (in_int (bit st))); [now apply IH | congruence].
Qed.

(** Where every bit position that the walk computes is an [int], the
    checked loop is the loop over the integers. *)
Lemma for_loop_int_agree data sigSize le n bitpos s :
  Forall in_int (traversal le (bit s) (S n)) ->
  for_loop (body_of_int data sigSize le) n bitpos s
    = for_loop (body_of data sigSize le) n bitpos s.
Proof.
  revert bitpos s. induction n as [|n IH]; intros bitpos s H; [reflexivity|].
  simpl for_loop. rewrite body_of_int_eq, body_of_eq.
  assert (Hnext : Forall in_int (traversal le (next_bit le (bit s)) (S n))).
  { change (traversal le (bit s) (S (S n)))
      with (bit s :: traversal le (if le then bit s + 1 else be_next (bit s)) (S n)) in H.
    apply Forall_cons in H as [_ H]. destruct le; exact H. }
  destruct (read_bit data (dest_of sigSize le bitpos) s) as [| v | r]; try reflexivity.
  cbn [bit]. rewrite decide_True.
  - apply (IH (bitpos + 1) (St (next_bit le (bit s)) r)). exact Hnext.
  - change (traversal le (next_bit le (bit s)) (S n))
      with (next_bit le (bit s)
              :: traversal le (if le then next_bit le (bit s) + 1
                               else be_next (next_bit le (bit s))) n) in Hnext.
    now apply Forall_cons in Hnext as [Hn _].
Qed.

Lemma processIntegerSignal_int_unfold data startBit sigSize le sg :
  in_int startBit -> in_int sigSize -> in_int (startBit + sigSize) ->
  processIntegerSignal_int data startBit sigSize le sg =
  if size data <? (startBit + sigSize) ÷ 8 then Some 0
  else match for_loop (body_of_int data sigSize le) (Z.to_nat sigSize) 0 (St startBit 0) with
       | Undefined => None
       | Return v => Some v
       | Continue s => if sg then sign_extend sigSize (result s) else Some (result s)
       end.
Proof.
  intros H1 H2 H3. unfold processIntegerSignal_int.
  rewrite decide_True by (split; assumption).
  rewrite add_int_Some by assumption. reflexivity.
Qed.

(** The checked function is defined on [int] arguments with an [int] sum
    only. *)
Lemma processIntegerSignal_int_Some data startBit sigSize le sg v :
  processIntegerSignal_int data startBit sigSize le sg = Some v ->
  in_int startBit /\ in_int sigSize /\ in_int (startBit + sigSize).
Proof.
  unfold processIntegerSignal_int, add_int.
  destruct (decide (in_int startBit /\ in_int sigSize)) as [[H1 H2]|]; [|discriminate].
  destruct (decide (in_int (startBit + sigSize))); [auto | discriminate].
Qed.

(** Whatever the checked function returns, the function over the integers
    returns as well. *)
Lemma processIntegerSignal_int_refines data startBit sigSize le sg v :
  processIntegerSignal_int data startBit sigSize le sg = Some v ->
  processIntegerSignal data startBit sigSize le sg = Some v.
Proof.
  intros H. destruct (processIntegerSignal_int_Some _ _ _ _ _ _ H) as (H1 & H2 & H3).
  rewrite processIntegerSignal_int_unfold in H by assumption.
  rewrite processIntegerSignal_unfold.
  destruct (size data <? (startBit + sigSize) ÷ 8); [exact H|].
  rewrite for_loop_int_refines; [exact H|].
  intros E. rewrite E in H. discriminate H.
Qed.

(** The two agree where no [int] addition overflows. *)
Lemma processIntegerSignal_int_agree data startBit sigSize le sg :
  in_int sigSize -> in_int (startBit + sigSize) ->
  Forall in_int (traversal le startBit (S (Z.to_nat sigSize))) ->
  processIntegerSignal_int data startBit sigSize le sg
    = processIntegerSignal data startBit sigSize le sg.
Proof.
  intros H2 H3 Hwalk.
  assert (H1 : in_int startBit).
  { change (traversal le startBit (S (Z.to_nat sigSize)))
      with (startBit :: traversal le (if le then startBit + 1 else be_next startBit)
                          (Z.to_nat sigSize)) in Hwalk.
    now apply Forall_cons in Hwalk as [H1 _]. }
  rewrite processIntegerSignal_int_unfold, processIntegerSignal_unfold by assumption.
  now rewrite (for_loop_int_agree data sigSize le (Z.to_nat sigSize) 0 (St startBit 0)).
Qed.

(** The walk never falls below the byte it starts in. *)
Lemma traversal_ge le p n b :
  0 <= p -> b ∈ traversal le p n -> 8 * (p / 8) <= b.
Proof.
  revert p. induction n as [|n IH]; intros p Hp Hin; simpl in Hin; [inversion Hin|].
  apply elem_of_cons in Hin as [-> | Hin].
  - apply Z.mul_div_le. lia.
  - assert (Hnext : (if le then p + 1 else be_next p) = next_bit le p)
      by (destruct le; reflexivity).
    rewrite Hnext in Hin.
    specialize (IH (next_bit le p) (next_bit_nonneg le p Hp) Hin).
    assert (8 * (p / 8) <= 8 * (next_bit le p / 8)); [|lia].
    destruct le; simpl; unfold be_next.
    + Z.to_euclidean_division_equations. lia.
    + destruct (Z.eqb_spec (Z.rem p 8) 0); Z.to_euclidean_division_equations; lia.
Qed.

(** The motorola walk read as a count: bit 7 of a byte first, bit 0 last,
    byte after byte; every step of the walk adds one. *)
Lemma be_next_count p :
  0 <= p ->
  8 * (be_next p / 8) + 7 - be_next p mod 8 = 8 * (p / 8) + 7 - p mod 8 + 1.
Proof.
  intros Hp. unfold be_next.
  destruct (Z.eqb_spec (Z.rem p 8) 0); Z.to_euclidean_division_equations; lia.
Qed.

Lemma traversal_count p n b :
  0 <= p -> b ∈ traversal false p n ->
  0 <= b /\
  8 * (b / 8) + 7 - b mod 8 < 8 * (p / 8) + 7 - p mod 8 + Z.of_nat n.
Proof.
  revert p. induction n as [|n IH]; intros p Hp Hin; simpl in Hin; [inversion Hin|].
  apply elem_of_cons in Hin as [-> | Hin]; [lia|].
  destruct (IH (be_next p) (be_next_nonneg p Hp) Hin) as [Hb Hlt].
  rewrite be_next_count in Hlt by exact Hp. lia.
Qed.

(** No bit position of a walk from a non-negative start is further than 13
    beyond the start plus the number of steps. *)
Lemma traversal_bound le p n b :
  0 <= p -> b ∈ traversal le p n -> 0 <= b <= p + Z.of_nat n + 13.
Proof.
  destruct le.
  - revert p. induction n as [|n IH]; intros p Hp Hin; simpl in Hin; [inversion Hin|].
    apply elem_of_cons in Hin as [-> | Hin]; [lia|].
    specialize (IH (p + 1) ltac:(lia) Hin). lia.
  - intros Hp Hin. destruct (traversal_count p n b Hp Hin) as [Hb Hlt].
    split; [exact Hb|]. Z.to_euclidean_division_equations. lia.
Qed.

(** A walk that starts far enough below [2^31] computes [int]s only. *)
Lemma traversal_in_int le startBit n :
  0 <= startBit -> startBit + Z.of_nat n + 13 < 2 ^ 31 ->
  Forall in_int (traversal le startBit n).
Proof.
  intros Hs Hn. apply Forall_forall. intros b Hin.
  pose proof (traversal_bound le startBit n b Hs Hin). unfold in_int. lia.
Qed.

(** A visited bit position below 64 that lies outside the payload makes the
    checked loop return 0: no bit position computed before it overflows. *)
Lemma for_loop_int_outside data sigSize le n bitpos s b :
  0 <= bit s -> 0 <= bitpos -> bitpos + Z.of_nat n <= sigSize -> sigSize <= 64 ->
  b ∈ traversal le (bit s) n -> b < 64 -> size data <= b ÷ 8 ->
  for_loop (body_of_int data sigSize le) n bitpos s = Return 0.
Proof.
  revert bitpos s. induction n as [|n IH]; intros bitpos s Hb Hk Hn H64 Hin Hlt Hout.
  - simpl in Hin. inversion Hin.
  - simpl in Hin. simpl for_loop. rewrite body_of_int_eq, body_of_eq.
    destruct (read_bit_cases data (dest_of sigSize le bitpos) s Hb)
      as [(-> & _) | (Hread & Hcont)].
    + apply dest_of_range; lia.
    + reflexivity.
    + apply elem_of_cons in Hin as [-> | Hin]; [lia|].
      assert (Hnext : (if le then bit s + 1 else be_next (bit s)) = next_bit le (bit s))
        by (destruct le; reflexivity).
      rewrite Hnext in Hin.
      pose proof (next_bit_nonneg le (bit s) Hb) as Hpos.
      pose proof (traversal_ge le _ _ _ Hpos Hin) as Hge.
      assert (Hint : in_int (next_bit le (bit s))).
      { unfold in_int. split; [lia|].
        assert (next_bit le (bit s) < 72); [|lia].
        revert Hge Hpos. generalize (next_bit le (bit s)). intros p Hge Hpos.
        Z.to_euclidean_division_equations. lia. }
      destruct Hcont as [-> | ->]; cbn [bit]; rewrite decide_True by exact Hint;
        apply IH; simpl; auto; lia.
Qed.

(** On a layout with a non-negative start and at most 64 bits, unsigned or
    signed with 1 to 63 bits, the function over the integers returns an
    [int64_t]. *)
Lemma processIntegerSignal_defined data startBit sigSize le sg :
  0 <= startBit -> sigSize <= 64 -> sg = false \/ 1 <= sigSize <= 63 ->
  exists v, processIntegerSignal data startBit sigSize le sg = Some v /\ in_int64 v.
Proof.
  intros Hs Hn Hsg. rewrite processIntegerSignal_unfold.
  destruct (size data <? (startBit + sigSize) ÷ 8).
  { exists 0. split; [reflexivity | unfold in_int64; lia]. }
  destruct Hsg as [-> | H63].
  - destruct (for_loop_defined data sigSize le startBit Hs Hn) as [-> | (s' & -> & Hr)].
    + exists 0. split; [reflexivity | unfold in_int64; lia].
    + exists (result s'). auto.
  - destruct (for_loop_field data sigSize le startBit Hs ltac:(lia)) as [-> | (s' & -> & Hr)].
    + exists 0. split; [reflexivity | unfold in_int64; lia].
    + assert (2 ^ sigSize <= 2 ^ 63) by (apply Z.pow_le_mono_r; lia).
      destruct sg.
      * rewrite sign_extend_field by lia. eexists. split; [reflexivity|].
        unfold in_int64. destruct (Z.testbit (result s') (sigSize - 1)); lia.
      * exists (result s'). split; [reflexivity | unfold in_int64; lia].
Qed.

(** *** What a run that reaches the end of the loop has accumulated *)

Lemma read_bit_Return data dest s v : read_bit data dest s = Return v -> v = 0.
Proof.
  unfold read_bit.
  destruct (bit s <? 64); [|discriminate].
  destruct (bit s ÷ 8 >=? size data); [congruence|].
  destruct (bit_set data (bit s)) as [[|]|]; try discriminate.
  destruct (shl1_u64 dest); discriminate.
Qed.

Lemma read_bit_Continue data dest s r :
  0 <= dest < 64 -> read_bit data dest s = Continue r ->
  r = result s \/ r = add_i64_u64 (result s) (2 ^ dest).
Proof.
  intros Hd. unfold read_bit.
  destruct (bit s <? 64); [|intros [= <-]; now left].
  destruct (bit s ÷ 8 >=? size data); [discriminate|].
  destruct (bit_set data (bit s)) as [[|]|]; try discriminate.
  - rewrite shl1_u64_Some by lia. intros [= <-]. now right.
  - intros [= <-]. now left.
Qed.

(** Invariant rule for a run of the loop that reaches its end. *)
Lemma for_loop_Continue_inv (P : Z -> state -> Prop) body n bitpos s s' :
  P bitpos s ->
  (forall k st st', bitpos <= k < bitpos + Z.of_nat n -> P k st ->
     body k st = Continue st' -> P (k + 1) st') ->
  for_loop body n bitpos s = Continue s' -> P (bitpos + Z.of_nat n) s'.
Proof.
  revert bitpos s. induction n as [|n IH]; intros bitpos s HP Hbody Hrun.
  - simpl in Hrun. injection Hrun as <-. now rewrite Z.add_0_r.
  - simpl for_loop in Hrun.
    destruct (body bitpos s) as [| v | st] eqn:Hstep; try discriminate.
    replace (bitpos + Z.of_nat (S n)) with (bitpos + 1 + Z.of_nat n) by lia.
    apply (IH (bitpos + 1) st); [| | exact Hrun].
    + apply (Hbody bitpos s st); [lia | exact HP | exact Hstep].
    + intros k st0 st1 Hk. apply Hbody. lia.
Qed.

(** The loop returns nothing but 0 from its inside. *)
Lemma for_loop_Return data sigSize le n bitpos s v :
  for_loop (body_of data sigSize le) n bitpos s = Return v -> v = 0.
Proof.
  revert bitpos s. induction n as [|n IH]; intros bitpos s Hrun; [discriminate|].
  simpl for_loop in Hrun. rewrite body_of_eq in Hrun.
  destruct (read_bit data (dest_of sigSize le bitpos) s) as [| z | r] eqn:Hread;
    [discriminate | | now apply IH in Hrun].
  injection Hrun as <-. now apply read_bit_Return in Hread.
Qed.

(** A run that reaches the end of the loop leaves a [sigSize]-bit field,
    whatever the start bit. *)
Lemma for_loop_Continue_field data sigSize le startBit s' :
  0 <= sigSize <= 63 ->
  for_loop (body_of data sigSize le) (Z.to_nat sigSize) 0 (St startBit 0) = Continue s' ->
  0 <= result s' < 2 ^ sigSize.
Proof.
  intros Hn Hrun.
  apply (acc_ok_final sigSize le); [lia|].
  replace sigSize with (0 + Z.of_nat (Z.to_nat sigSize)) at 2 by lia.
  apply (for_loop_Continue_inv (fun k st => acc_ok sigSize le k (result st))
           (body_of data sigSize le) (Z.to_nat sigSize) 0 (St startBit 0) s');
    [| | exact Hrun].
  - destruct le; simpl; [lia|]. exists 0. lia.
  - intros k st st' Hk HP. rewrite body_of_eq.
    destruct (read_bit data (dest_of sigSize le k) st) as [| z | r] eqn:Hread;
      try discriminate.
    intros [= <-]. cbn [result].
    apply read_bit_Continue in Hread as [-> | ->]; [| | apply dest_of_range; lia].
    + apply acc_ok_keep; [lia | exact HP].
    + apply acc_ok_add; [lia | lia | exact HP].
Qed.

(** With up to 64 bits the accumulated value is an [int64_t]. *)
Lemma for_loop_Continue_int64 data sigSize le startBit s' :
  sigSize <= 64 ->
  for_loop (body_of data sigSize le) (Z.to_nat sigSize) 0 (St startBit 0) = Continue s' ->
  in_int64 (result s').
Proof.
  intros Hn Hrun.
  apply (for_loop_Continue_inv (fun _ st => in_int64 (result st))
           (body_of data sigSize le) (Z.to_nat sigSize) 0 (St startBit 0) s');
    [| | exact Hrun].
  - simpl. unfold in_int64. lia.
  - intros k st st' Hk HP. rewrite body_of_eq.
    destruct (read_bit data (dest_of sigSize le k) st) as [| z | r] eqn:Hread;
      try discriminate.
    intros [= <-]. cbn [result].
    apply read_bit_Continue in Hread as [-> | ->]; [| | apply dest_of_range; lia].
    + exact HP.
    + apply add_i64_u64_range.
Qed.

(** Bit 63 of an [int64_t] is its sign. *)
Lemma testbit_63_sign r : in_int64 r -> Z.testbit r 63 = (r <? 0).
Proof.
  unfold in_int64. intros Hr. destruct (Z.ltb_spec r 0).
  - apply Z.testbit_true; [lia|].
    replace (r / 2 ^ 63) with (-1); [reflexivity|].
    apply (Z.div_unique r (2 ^ 63) (-1) (r + 2 ^ 63)); lia.
  - apply Z.testbit_false; [lia|]. rewrite Z.div_small by lia. reflexivity.
Qed.

(** [(r & mask) == mask] for the mask [1ULL << 63] read as an [int64_t]. *)
Lemma land_min_int64 r : in_int64 r -> Z.land r (- 2 ^ 63) = - 2 ^ 63 <-> r < 0.
Proof.
  unfold in_int64. intros Hr.
  change (- 2 ^ 63) with (Z.lnot (Z.ones 63)) at 1.
  rewrite <- Z.ldiff_land, Z.ldiff_ones_r by lia.
  rewrite Z.shiftr_div_pow2, Z.shiftl_mul_pow2 by lia.
  destruct (Z.ltb_spec r 0).
  - replace (r / 2 ^ 63) with (-1); [split; [auto | reflexivity]|].
    apply (Z.div_unique r (2 ^ 63) (-1) (r + 2 ^ 63)); lia.
  - rewrite Z.div_small by lia. split; [discriminate | lia].
Qed.

(** The sign extension of a 64-bit field: nothing to do when the sign bit
    is clear; with the sign bit set, [1ULL << sigSize] shifts by 64. *)
Lemma sign_extend_64 r :
  in_int64 r -> sign_extend 64 r = if Z.testbit r 63 then None else Some r.
Proof.
  intros Hr. rewrite (testbit_63_sign r Hr). unfold sign_extend.
  rewrite (shl1_u64_Some (64 - 1)) by lia. cbn [mbind option_bind].
  change (to_int64 (2 ^ (64 - 1))) with (- 2 ^ 63).
  destruct (Z.ltb_spec r 0).
  - rewrite decide_True by (now apply land_min_int64). reflexivity.
  - rewrite decide_False; [reflexivity|].
    intros E. apply land_min_int64 in E; [lia | exact Hr].
Qed.




(** C9: for a signal of 1 to 64 bits whose unsigned decode is [v], the
    signed decode of the same bits is [v] when bit [sigSize - 1] of [v] is
    clear, and [v - 2^sigSize] when that bit is set and the signal has at
    most 63 bits; the 4-bit signed raw value 0b1000 decodes to -8.  With 64
    bits and the sign bit set, [v] is returned negative by the unsigned
    decode already, and the signed decode, which should return the same
    number, shifts [1ULL] by 64 for its mask and has no defined result. *)
Theorem sign_extension_relation data startBit sigSize le v :
  1 <= sigSize <= 64 ->
  processIntegerSignal_int data startBit sigSize le false = Some v ->
  (Z.testbit v (sigSize - 1) = false ->
   processIntegerSignal_int data startBit sigSize le true = Some v) /\
  (Z.testbit v (sigSize - 1) = true -> sigSize <= 63 ->
   processIntegerSignal_int data startBit sigSize le true = Some (v - 2 ^ sigSize)) /\
  (Z.testbit v (sigSize - 1) = true -> sigSize = 64 ->
   v < 0 /\ processIntegerSignal_int data startBit sigSize le true = None) /\
  processIntegerSignal_int [Byte.x08] 0 4 true true = Some (-8).
Proof.
  intros Hn Hv.
  assert (Hzero : forall P Q : Prop,
            (Z.testbit 0 (sigSize - 1) = true -> P) /\
            (Z.testbit 0 (sigSize - 1) = true -> Q))
    by (intros P Q; rewrite Z.bits_0; split; discriminate).
  destruct (processIntegerSignal_int_Some _ _ _ _ _ _ Hv) as (H1 & H2 & H3).
  split; [| split; [| split; [| vm_compute; reflexivity]]].
  - intros Hbit. revert Hv. rewrite !processIntegerSignal_int_unfold by assumption.
    destruct (size data <? (startBit + sigSize) ÷ 8); [auto|].
    destruct (for_loop (body_of_int data sigSize le) (Z.to_nat sigSize) 0 (St startBit 0))
      as [| z | s'] eqn:Hrun; [discriminate | auto |].
    intros [= <-].
    rewrite <- for_loop_int_refines in Hrun by (rewrite Hrun; discriminate).
    destruct (Z.eq_dec sigSize 64) as [-> | Hne].
    + rewrite sign_extend_64
        by (apply (for_loop_Continue_int64 data 64 le startBit s'); [lia | exact Hrun]).
      change (64 - 1) with 63 in Hbit. now rewrite Hbit.
    + rewrite sign_extend_field;
        [now rewrite Hbit | lia |
         apply (for_loop_Continue_field data sigSize le startBit s'); [lia | exact Hrun]].
  - intros Hbit H63. revert Hv. rewrite !processIntegerSignal_int_unfold by assumption.
    destruct (size data <? (startBit + sigSize) ÷ 8).
    { intros [= <-]. now apply (Hzero (Some 0 = Some (0 - 2 ^ sigSize)) True). }
    destruct (for_loop (body_of_int data sigSize le) (Z.to_nat sigSize) 0 (St startBit 0))
      as [| z | s'] eqn:Hrun; [discriminate | |].
    { intros [= <-].
      rewrite <- for_loop_int_refines in Hrun by (rewrite Hrun; discriminate).
      apply for_loop_Return in Hrun. subst z.
      now apply (Hzero (Some 0 = Some (0 - 2 ^ sigSize)) True). }
    intros [= <-].
    rewrite <- for_loop_int_refines in Hrun by (rewrite Hrun; discriminate).
    rewrite sign_extend_field;
      [now rewrite Hbit | lia |
         apply (for_loop_Continue_field data sigSize le startBit s'); [lia | exact Hrun]].
  - intros Hbit ->. change (64 - 1) with 63 in Hbit. revert Hv.
    rewrite !processIntegerSignal_int_unfold by assumption.
    destruct (size data <? (startBit + 64) ÷ 8).
    { intros [= <-]. rewrite Z.bits_0 in Hbit. discriminate Hbit. }
    destruct (for_loop (body_of_int data 64 le) (Z.to_nat 64) 0 (St startBit 0))
      as [| z | s'] eqn:Hrun; [discriminate | |].
    { intros [= <-].
      rewrite <- for_loop_int_refines in Hrun by (rewrite Hrun; discriminate).
      apply for_loop_Return in Hrun. subst z.
      rewrite Z.bits_0 in Hbit. discriminate Hbit. }
    intros [= <-].
    rewrite <- for_loop_int_refines in Hrun by (rewrite Hrun; discriminate).
    assert (Hr : in_int64 (result s'))
      by (apply (for_loop_Continue_int64 data 64 le startBit s'); [lia | exact Hrun]).
    split.
    + rewrite (testbit_63_sign _ Hr) in Hbit. now apply Z.ltb_lt.
    + rewrite sign_extend_64 by exact Hr. now rewrite Hbit.
Qed.

Lemma sign_extension_relation_witness :
  processIntegerSignal_int [Byte.xf8] 4 4 true true = Some (15 - 2 ^ 4) /\
  processIntegerSignal_int top_bit_payload 0 64 true false = Some (- 2 ^ 63) /\
  processIntegerSignal_int top_bit_payload 0 64 true true = None.
Proof.
  destruct (sign_extension_relation [Byte.xf8] 4 4 true 15) as (_ & Hset & _);
    [lia | vm_compute; reflexivity |].
  destruct (sign_extension_relation top_bit_payload 0 64 true (- 2 ^ 63))
    as (_ & _ & Hbug & _); [lia | vm_compute; reflexivity |].
  split; [| split].
  - apply Hset; [vm_compute; reflexivity | lia].
  - vm_compute. reflexivity.
  - apply Hbug; [vm_compute; reflexivity | reflexivity].
Defined.

End UtilityFacts.

(** ** The filter table and the ingestion paths *)

Module FilterFacts.
Import CANFrameModel.

Lemma scan_configured_spec vals : scan_configured vals = true <-> false ∈ vals.
Proof.
  induction vals as [|[|] vals IH]; simpl.
  - split; [discriminate | intros H; inversion H].
  - rewrite IH. split; [apply list_elem_of_further|].
    intros H. apply elem_of_cons in H as [H | H]; [discriminate | exact H].
  - split; [intros _; apply list_elem_of_here | reflexivity].
Qed.

(** The table counts as configured exactly when some key is disabled. *)
Lemma any_filters_are_configured_spec m :
  any_filters_are_configured m = true <-> exists k, filters m !! k = Some false.
Proof.
  unfold any_filters_are_configured. rewrite scan_configured_spec.
  rewrite list_elem_of_fmap. split.
  - intros ([k v] & Hv & Hin). simpl in Hv. subst v.
    apply elem_of_map_to_list in Hin. eauto.
  - intros (k & Hk). exists (k, false). split; [reflexivity|].
    now apply elem_of_map_to_list.
Qed.

Lemma index_filters_present k t v :
  t !! k = Some v -> index_filters k t = (v, t).
Proof. intros H. unfold index_filters. now rewrite H. Qed.

Lemma index_filters_value k t : (index_filters k t).1 = default false (t !! k).
Proof. unfold index_filters. destruct (t !! k); reflexivity. Qed.

(** [operator[]] keeps every entry and adds at most a disabled one. *)
Lemma index_filters_lookup k t k' :
  default false ((index_filters k t).2 !! k') = default false (t !! k') /\
  (forall v, t !! k' = Some v -> (index_filters k t).2 !! k' = Some v).
Proof.
  unfold index_filters. destruct (t !! k) eqn:Hk; simpl; [auto|].
  destruct (decide (k = k')) as [<- | Hne].
  - rewrite lookup_insert_eq, Hk. split; [reflexivity | discriminate].
  - rewrite lookup_insert_ne by exact Hne. auto.
Qed.

Lemma passes_present f m v :
  filters m !! filter_key (frameId f) = Some v ->
  passes f m = (v && filterFrameConsideringFunction (frameId f) m, with_filters (filters m) m).
Proof.
  intros H. unfold passes. rewrite (index_filters_present _ _ _ H). reflexivity.
Qed.

Lemma with_filters_same m : with_filters (filters m) m = m.
Proof. destruct m; reflexivity. Qed.

Lemma filters_append_fresh reset t m v :
  filters m !! filter_key (frameId t) = Some v ->
  filters (append_fresh reset t m) = filters m.
Proof.
  intros H. unfold append_fresh.
  rewrite (passes_present t (with_frames (frames m ++ [t]) m) v) by exact H.
  destruct (v && _); reflexivity.
Qed.

Lemma register_key_lookup k m :
  filters (register_key k m) !! k =
  match filters m !! k with
  | Some v => Some v
  | None => Some (negb (any_filters_are_configured m))
  end.
Proof.
  unfold register_key. destruct (filters m !! k) eqn:Hk; [exact Hk|].
  simpl. rewrite lookup_insert_eq. now destruct (any_filters_are_configured m).
Qed.

(** The table that [addFrame] leaves is the one its registration step
    leaves. *)
Lemma filters_addFrame frame autoRefresh m :
  filters (addFrame frame autoRefresh m) =
  filters (register_key (filter_key (frameId frame)) m).
Proof.
  unfold addFrame.
  set (t := setTimeStamp _ frame).
  set (m1 := with_lastUpdateNumFrames _ m).
  change (frameId t) with (frameId frame).
  set (k := filter_key (frameId frame)).
  set (m2 := register_key k m1).
  assert (Hk : is_Some (filters m2 !! k)).
  { subst m2. rewrite register_key_lookup. destruct (filters m1 !! k); eauto. }
  assert (E : filters m2 = filters (register_key k m)).
  { subst m2 m1. unfold register_key. simpl.
    destruct (filters m !! k); reflexivity. }
  destruct Hk as [v Hv]. rewrite <- E.
  destruct (negb (overwriteDups m2)).
  - now apply (filters_append_fresh _ t m2 v).
  - destruct (overwrite_scan t (frames m2)) as [[rows t']|].
    + reflexivity.
    + now apply (filters_append_fresh _ t m2 v).
Qed.

(** C3: a frame whose key [identifier & 0x7F] is not in the filter table
    gets the key registered by [addFrame]: enabled when no key is
    configured (no entry of the table is disabled, which is what
    [any_filters_are_configured] tests), disabled when some key is. *)
Theorem addFrame_default_policy frame autoRefresh m :
  filters m !! filter_key (frameId frame) = None ->
  ((forall k v, filters m !! k = Some v -> v = true) ->
   any_filters_are_configured m = false /\
   filters (addFrame frame autoRefresh m) !! filter_key (frameId frame) = Some true) /\
  ((exists k, filters m !! k = Some false) ->
   any_filters_are_configured m = true /\
   filters (addFrame frame autoRefresh m) !! filter_key (frameId frame) = Some false).
Proof.
  intros Hnew. rewrite filters_addFrame, register_key_lookup, Hnew. split.
  - intros Hall.
    assert (Hc : any_filters_are_configured m = false).
    { destruct (any_filters_are_configured m) eqn:E; [|reflexivity].
      apply any_filters_are_configured_spec in E as (k & Hk).
      apply Hall in Hk. discriminate. }
    now rewrite Hc.
  - intros Hex. apply any_filters_are_configured_spec in Hex. now rewrite Hex.
Qed.

Lemma addFrame_default_policy_witness :
  filters (addFrame (frame_with_id 0x185) false init) !! 5 = Some true /\
  filters (addFrame (frame_with_id 0x185) false
             (with_filters (<[3 := false]> ∅) init)) !! 5 = Some false.
Proof.
  split.
  - destruct (addFrame_default_policy (frame_with_id 0x185) false init) as [H _].
    + reflexivity.
    + apply H. intros k v Hk. simpl in Hk. rewrite lookup_empty in Hk. discriminate.
  - destruct (addFrame_default_policy (frame_with_id 0x185) false
                (with_filters (<[3 := false]> ∅) init)) as [_ H].
    + reflexivity.
    + apply H. exists 3. reflexivity.
Defined.

(** *** The wholesale refresh *)

Lemma agree_refl m : agree m m.
Proof. split; [now rewrite with_filters_same | auto]. Qed.

Lemma agree_trans m1 m2 m3 : agree m1 m2 -> agree m2 m3 -> agree m1 m3.
Proof.
  intros [E12 H12] [E23 H23]. split.
  - rewrite E23 at 1. rewrite E12. reflexivity.
  - intros k. destruct (H12 k) as [Hd Hs], (H23 k) as [Hd' Hs']. split.
    + congruence.
    + auto.
Qed.

Lemma shouldInclude_agree m m' f : agree m m' -> shouldInclude m' f = shouldInclude m f.
Proof.
  intros [E H]. unfold shouldInclude.
  destruct (H (filter_key (frameId f))) as [-> _]. f_equal.
  rewrite E. reflexivity.
Qed.

Lemma passes_spec f m :
  (passes f m).1 = shouldInclude m f /\ agree m (passes f m).2.
Proof.
  unfold passes, shouldInclude.
  pose proof (index_filters_value (filter_key (frameId f)) (filters m)) as Hv.
  pose proof (index_filters_lookup (filter_key (frameId f)) (filters m)) as Hl.
  destruct (index_filters (filter_key (frameId f)) (filters m)) as [v t].
  simpl in *. subst v. split; [reflexivity|].
  split; [reflexivity | exact Hl].
Qed.

Lemma refresh_scan_spec rows acc m :
  (refresh_scan rows acc m).1 = acc ++ List.filter (shouldInclude m) rows /\
  agree m (refresh_scan rows acc m).2.
Proof.
  revert acc m. induction rows as [|row rest IH]; intros acc m; simpl.
  - rewrite app_nil_r. split; [reflexivity | apply agree_refl].
  - destruct (passes_spec row m) as [Hv Ha].
    destruct (passes row m) as [ok m']. simpl in Hv, Ha. subst ok.
    destruct (IH (if shouldInclude m row then acc ++ [row] else acc) m') as [Hout Ha'].
    split.
    + rewrite Hout.
      rewrite (List.filter_ext (shouldInclude m') (shouldInclude m))
        by (intros f; now apply shouldInclude_agree).
      destruct (shouldInclude m row); [now rewrite <- app_assoc | reflexivity].
    + eapply agree_trans; eassumption.
Qed.

(** [sendRefresh] leaves the full store alone and recomputes the filtered
    view from it under the filter state of the moment. *)
Lemma sendRefresh_spec m :
  frames (sendRefresh m) = frames m /\
  filteredFrames (sendRefresh m) = List.filter (shouldInclude m) (frames m) /\
  forall k v, filters m !! k = Some v -> filters (sendRefresh m) !! k = Some v.
Proof.
  unfold sendRefresh.
  destruct (refresh_scan_spec (frames m) [] m) as [Hout [E H]].
  destruct (refresh_scan (frames m) [] m) as [out m']. simpl in *.
  subst out. repeat split.
  - rewrite E. reflexivity.
  - intros k v Hk. now apply H.
Qed.

(** When every key of the store is in the table, the refresh leaves the
    table as it is. *)
Lemma index_filters_absent_only k t :
  is_Some (t !! k) -> (index_filters k t).2 = t.
Proof. intros [v Hv]. now rewrite (index_filters_present _ _ _ Hv). Qed.

(** *** Filter edits *)

Lemma setFilterState_unknown ID state m :
  filters m !! filter_key ID = None -> setFilterState ID state m = m.
Proof. intros H. unfold setFilterState. now rewrite H. Qed.

Lemma setFilterState_known ID state m :
  is_Some (filters m !! filter_key ID) ->
  setFilterState ID state m =
  sendRefresh (with_filters (<[Int.to_int32 ID := state]> (filters m)) m).
Proof. intros [v H]. unfold setFilterState. now rewrite H. Qed.

Lemma filter_key_small ID : 0 <= ID <= 0x7F -> filter_key ID = ID /\ Int.to_int32 ID = ID.
Proof.
  intros H. split.
  - unfold filter_key. change 0x7F with (Z.ones 7).
    rewrite Z.land_ones by lia. apply Z.mod_small. simpl. lia.
  - unfold Int.to_int32. rewrite Z.mod_small; lia.
Qed.

(** For an identifier that is its own key the call does what its guard
    announces. *)
Lemma setFilterState_masked ID state m :
  0 <= ID <= 0x7F -> is_Some (filters m !! filter_key ID) ->
  filters (setFilterState ID state m) !! filter_key ID = Some state.
Proof.
  intros HID Hk. rewrite setFilterState_known by exact Hk.
  destruct (filter_key_small ID HID) as [-> ->].
  apply sendRefresh_spec. simpl. apply lookup_insert_eq.
Qed.

(** C5, evaluated where it fails: with key 5 in the table, the call for the
    identifier 0x85 (whose key is 5) leaves key 5 enabled and adds an entry
    for 0x85 itself. *)
Theorem setFilterState_writes_unmasked_key :
  filter_key 0x85 = 5 /\
  filters one_row_model !! 5 = Some true /\
  filters one_row_model !! 0x85 = None /\
  filters (setFilterState 0x85 false one_row_model) !! 5 = Some true /\
  filters (setFilterState 0x85 false one_row_model) !! 0x85 = Some false.
Proof. repeat split; vm_compute; reflexivity. Qed.

(** C6 (as the code has it): [setFilterState] on a known key and
    [setAllFilters] end with the wholesale refresh themselves: the full
    store is as before and the filtered view is the full store filtered
    under the edited table.  Disabling every key empties the view at once,
    and disabling a key leaves no frame of that key in it. *)
Theorem filter_edit_refreshes_view m :
  (forall ID state, is_Some (filters m !! filter_key ID) ->
     frames (setFilterState ID state m) = frames m /\
     filteredFrames (setFilterState ID state m) =
       List.filter
         (shouldInclude (with_filters (<[Int.to_int32 ID := state]> (filters m)) m))
         (frames m)) /\
  (forall state,
     frames (setAllFilters state m) = frames m /\
     filteredFrames (setAllFilters state m) =
       List.filter (shouldInclude (with_filters ((fun _ => state) <$> filters m) m))
         (frames m)) /\
  filteredFrames (setAllFilters false m) = [] /\
  (forall ID f, 0 <= ID <= 0x7F -> is_Some (filters m !! filter_key ID) ->
     f ∈ filteredFrames (setFilterState ID false m) -> filter_key (frameId f) <> ID).
Proof.
  split; [| split; [| split]].
  - intros ID state Hk. rewrite setFilterState_known by exact Hk.
    destruct (sendRefresh_spec (with_filters (<[Int.to_int32 ID := state]> (filters m)) m))
      as (Hf & Hv & _).
    split; [exact Hf | exact Hv].
  - intros state. unfold setAllFilters.
    destruct (sendRefresh_spec (with_filters ((fun _ => state) <$> filters m) m))
      as (Hf & Hv & _).
    split; [exact Hf | exact Hv].
  - unfold setAllFilters.
    destruct (sendRefresh_spec (with_filters ((fun _ => false) <$> filters m) m))
      as (_ & -> & _).
    simpl. induction (frames m) as [|f rest IH]; [reflexivity|]. simpl.
    unfold shouldInclude at 1. simpl. rewrite lookup_fmap.
    destruct (filters m !! filter_key (frameId f)); simpl; exact IH.
  - intros ID f HID Hk Hin Hkey. rewrite setFilterState_known in Hin by exact Hk.
    destruct (sendRefresh_spec (with_filters (<[Int.to_int32 ID := false]> (filters m)) m))
      as (_ & Hv & _).
    rewrite Hv in Hin. apply list_elem_of_In, List.filter_In in Hin as [_ Hin].
    unfold shouldInclude in Hin. simpl in Hin.
    destruct (filter_key_small ID HID) as [_ E]. rewrite E, Hkey in Hin.
    rewrite lookup_insert_eq in Hin. discriminate.
Qed.

Lemma filter_edit_refreshes_view_witness :
  filteredFrames (setFilterState 5 false one_row_model) = [] /\
  forall f, f ∈ filteredFrames (setFilterState 5 false one_row_model) ->
            filter_key (frameId f) <> 5.
Proof.
  destruct (filter_edit_refreshes_view one_row_model) as (H1 & _ & _ & H4).
  split.
  - destruct (H1 5 false) as [_ ->]; [vm_compute; eauto | reflexivity].
  - intros f. apply H4; [lia | vm_compute; eauto].
Defined.

(** C6 as the specification states it does not hold: the edit itself
    changes the filtered view. *)
Lemma filter_edit_changes_view :
  filteredFrames one_row_model = [Frame 5 0 false false true 0 [] 0 1] /\
  filteredFrames (setFilterState 5 false one_row_model) = [] /\
  filteredFrames (setAllFilters false one_row_model) = [] /\
  filteredFrames (setFilterState 5 false one_row_model) <> filteredFrames one_row_model.
Proof. repeat split. vm_compute. discriminate. Qed.

(** *** The bulk path *)

Lemma insert_one_lookup m f k :
  filters (insert_one m f) !! k =
  match filters m !! k with
  | Some v => Some v
  | None => if decide (k = filter_key (frameId f)) then Some true else None
  end.
Proof.
  unfold insert_one.
  set (m1 := with_frames (frames m ++ [f]) m).
  set (kf := filter_key (frameId f)).
  set (m2 := match filters m1 !! kf with
             | Some _ => m1
             | None => with_needFilterRefresh true (with_filters (<[kf := true]> (filters m1)) m1)
             end).
  assert (H2 : filters m2 !! k =
               match filters m !! k with
               | Some v => Some v
               | None => if decide (k = kf) then Some true else None
               end).
  { subst m2. change (filters m1) with (filters m).
    destruct (filters m !! kf) eqn:Hkf; simpl.
    - change (filters m1) with (filters m).
      destruct (filters m !! k) eqn:Hk; [reflexivity|].
      destruct (decide (k = kf)) as [-> |]; [congruence | reflexivity].
    - destruct (decide (k = kf)) as [-> | Hne].
      + now rewrite lookup_insert_eq, Hkf.
      + rewrite lookup_insert_ne by congruence. now destruct (filters m !! k). }
  assert (Hp : is_Some (filters m2 !! kf)).
  { subst m2. change (filters m1) with (filters m).
    destruct (filters m !! kf) eqn:Hkf; simpl; [now rewrite Hkf|].
    rewrite lookup_insert_eq. eauto. }
  destruct Hp as [v Hv]. rewrite (passes_present f m2 v Hv).
  destruct (v && _); exact H2.
Qed.

Lemma insert_loop_lookup fs m k :
  filters (foldl insert_one m fs) !! k =
  match filters m !! k with
  | Some v => Some v
  | None => if decide (k ∈ (fun f => filter_key (frameId f)) <$> fs) then Some true else None
  end.
Proof.
  revert m. induction fs as [|f fs IH]; intros m; cbn [foldl].
  - destruct (filters m !! k); [reflexivity|].
    rewrite decide_False; [reflexivity | apply not_elem_of_nil].
  - rewrite IH, insert_one_lookup, fmap_cons.
    destruct (filters m !! k); [reflexivity|].
    destruct (decide (k = filter_key (frameId f))) as [-> | Hne].
    + rewrite decide_True; [reflexivity | apply list_elem_of_here].
    + destruct (decide (k ∈ _ <$> fs)) as [Hin | Hnin].
      * rewrite decide_True; [reflexivity | now apply list_elem_of_further].
      * rewrite decide_False; [reflexivity|].
        intros H. apply elem_of_cons in H as [H | H]; contradiction.
Qed.

(** C10: [insertFrames] registers the key of every frame of the batch that
    the table does not hold as enabled, whatever the table holds; and it
    leaves the entries it finds as they are.  On the same state [addFrame]
    registers the key as disabled once some key is disabled. *)
Theorem insertFrames_registers_enabled newFrames m f :
  f ∈ newFrames ->
  filters m !! filter_key (frameId f) = None ->
  filters (insertFrames newFrames m) !! filter_key (frameId f) = Some true /\
  (forall k v, filters m !! k = Some v -> filters (insertFrames newFrames m) !! k = Some v) /\
  (any_filters_are_configured m = true ->
   forall autoRefresh,
     filters (addFrame f autoRefresh m) !! filter_key (frameId f) = Some false).
Proof.
  intros Hin Hnew. unfold insertFrames. simpl. split; [| split].
  - rewrite insert_loop_lookup, Hnew.
    rewrite decide_True; [reflexivity|].
    apply list_elem_of_fmap. eauto.
  - intros k v Hk. now rewrite insert_loop_lookup, Hk.
  - intros Hc autoRefresh. rewrite filters_addFrame, register_key_lookup, Hnew.
    now rewrite Hc.
Qed.

Lemma insertFrames_registers_enabled_witness :
  let m := with_filters (<[3 := false]> ∅) init in
  filters (insertFrames [frame_with_id 0x185] m) !! 5 = Some true /\
  filters (addFrame (frame_with_id 0x185) false m) !! 5 = Some false.
Proof.
  intros m.
  destruct (insertFrames_registers_enabled [frame_with_id 0x185] m (frame_with_id 0x185))
    as (H1 & _ & H3).
  - apply list_elem_of_here.
  - reflexivity.
  - split; [exact H1 | apply H3; reflexivity].
Defined.

End FilterFacts.

(** ** The filter file *)

Module FilterFileFacts.
Import CANFrameModel FilterFacts.

Lemma load_line_short raw t :
  Z.of_nat (length (QByteArray.simplified raw)) <= 2 -> load_line raw t = Some t.
Proof.
  intros H. unfold load_line.
  destruct (Z.gtb_spec (Z.of_nat (length (QByteArray.simplified raw))) 2); [lia | reflexivity].
Qed.

Lemma load_line_long raw t t0 t1 toks :
  2 < Z.of_nat (length (QByteArray.simplified raw)) ->
  QByteArray.split ","%char (QByteArray.simplified raw) = t0 :: t1 :: toks ->
  load_line raw t =
  Some (<[filter_key (QByteArray.toInt16 t0) :=
            bool_decide (QByteArray.toUpper t1 = ["T"%char])]> t).
Proof.
  intros H Hs. unfold load_line.
  destruct (Z.gtb_spec (Z.of_nat (length (QByteArray.simplified raw))) 2); [|lia].
  rewrite Hs. simpl.
  destruct (decide (QByteArray.toUpper t1 = ["T"%char])) as [E | E].
  - now rewrite bool_decide_eq_true_2.
  - now rewrite bool_decide_eq_false_2.
Qed.

Lemma two_line_file_table :
  load_lines (QByteArray.readLines (list_ascii_of_string two_line_file)) ∅ =
  Some (<[filter_key 0x456 := false]> (<[filter_key 0x123 := true]> (∅ : gmap Z bool))).
Proof. vm_compute. reflexivity. Qed.

(** [split] cuts at the first separator. *)
Lemma split_app sep a b :
  sep ∉ a -> QByteArray.split sep (a ++ sep :: b) = a :: QByteArray.split sep b.
Proof.
  induction a as [|c a IH]; intros Hnot; simpl.
  - now rewrite Ascii.eqb_refl.
  - apply not_elem_of_cons in Hnot as [Hc Ha].
    destruct (Ascii.eqb_spec c sep) as [E | _]; [congruence|].
    now rewrite IH.
Qed.

(** The first field that [split] yields is the text before the first
    separator. *)
Lemma split_before sep s :
  exists toks, QByteArray.split sep s = QByteArray.before sep s :: toks.
Proof.
  induction s as [|c s (toks & IH)]; simpl; [now exists []|].
  destruct (Ascii.eqb c sep); [eauto|]. rewrite IH. eauto.
Qed.

(** A line of more than two characters with a comma: the first field
    gives the key, the second field the flag. *)
Lemma load_line_fields raw t a b :
  2 < Z.of_nat (length (QByteArray.simplified raw)) ->
  QByteArray.simplified raw = a ++ ","%char :: b -> ","%char ∉ a ->
  load_line raw t =
  Some (<[filter_key (QByteArray.toInt16 a) :=
            bool_decide (QByteArray.toUpper (QByteArray.before ","%char b) = ["T"%char])]> t).
Proof.
  intros Hlen Hline Hnot.
  destruct (split_before ","%char b) as (toks & Hb).
  apply (load_line_long raw t a (QByteArray.before ","%char b) toks Hlen).
  now rewrite Hline, split_app, Hb.
Qed.

Lemma hex_digit_Some c d :
  QByteArray.hex_digit c = Some d ->
  0 <= d < 16 /\ QByteArray.isspace c = false /\ 48 <= QByteArray.code c /\
  QByteArray.code c <> 120 /\ QByteArray.code c <> 88.
Proof.
  intros H.
  assert (Hc : 0 <= d < 16 /\ 48 <= QByteArray.code c /\
               QByteArray.code c <> 120 /\ QByteArray.code c <> 88).
  { revert H. unfold QByteArray.hex_digit. cbv zeta.
    destruct (Z.leb_spec 48 (QByteArray.code c)), (Z.leb_spec (QByteArray.code c) 57),
      (Z.leb_spec 97 (QByteArray.code c)), (Z.leb_spec (QByteArray.code c) 102),
      (Z.leb_spec 65 (QByteArray.code c)), (Z.leb_spec (QByteArray.code c) 70);
      cbn [andb]; try discriminate; intros [= <-]; lia. }
  destruct Hc as (Hd & H48 & H120 & H88). repeat split; try lia.
  unfold QByteArray.isspace.
  destruct (Z.eqb_spec (QByteArray.code c) 32), (Z.leb_spec 9 (QByteArray.code c)),
    (Z.leb_spec (QByteArray.code c) 13); cbn [andb orb]; try reflexivity; lia.
Qed.

Lemma hex_digits_all acc s :
  QByteArray.all_hex s ->
  QByteArray.hex_digits acc s =
  Some (foldl (fun acc c => 16 * acc + default 0 (QByteArray.hex_digit c)) acc s).
Proof.
  intros H. revert acc. induction H as [|c s [d Hd] _ IH]; intros acc; simpl; [reflexivity|].
  rewrite Hd. simpl. apply IH.
Qed.

Lemma hex_value_nonneg s : 0 <= QByteArray.hex_value s.
Proof.
  unfold QByteArray.hex_value.
  enough (H : forall acc, 0 <= acc ->
            0 <= foldl (fun acc c => 16 * acc + default 0 (QByteArray.hex_digit c)) acc s)
    by (apply H; lia).
  induction s as [|c s IH]; intros acc Hacc; simpl; [exact Hacc|].
  apply IH. destruct (QByteArray.hex_digit c) as [d|] eqn:Hd; simpl; [|lia].
  apply hex_digit_Some in Hd. lia.
Qed.

(** [toInt(nullptr, 16)] on a text of hexadecimal digits: its value, and 0
    when the value is no [int]. *)
Lemma toInt16_hex s :
  s <> [] -> QByteArray.all_hex s ->
  QByteArray.toInt16 s =
  if QByteArray.hex_value s <? 2 ^ 31 then QByteArray.hex_value s else 0.
Proof.
  intros Hne Hall. pose proof (hex_digits_all 0 s Hall) as Hdigits.
  pose proof (hex_value_nonneg s) as Hpos. fold (QByteArray.hex_value s) in Hdigits.
  destruct s as [|c rest]; [congruence|].
  pose proof Hall as Hall'. apply Forall_cons in Hall' as [[d Hd] Hrest].
  destruct (hex_digit_Some c d Hd) as (_ & Hsp & H48 & _).
  unfold QByteArray.toInt16. cbn [QByteArray.skip_space]. rewrite Hsp.
  rewrite (proj2 (Z.eqb_neq (QByteArray.code c) 45)) by lia.
  rewrite (proj2 (Z.eqb_neq (QByteArray.code c) 43)) by lia.
  assert (Hskip : QByteArray.skip_0x (c :: rest) = c :: rest).
  { destruct rest as [|c1 rest]; [reflexivity|].
    apply Forall_cons in Hrest as [[d1 Hd1] _].
    destruct (hex_digit_Some c1 d1 Hd1) as (_ & _ & _ & H120 & H88).
    cbn [QByteArray.skip_0x].
    rewrite (proj2 (Z.eqb_neq (QByteArray.code c1) 120)) by lia.
    rewrite (proj2 (Z.eqb_neq (QByteArray.code c1) 88)) by lia.
    now rewrite andb_false_r. }
  rewrite Hskip, Hd, Hdigits.
  destruct (Z.leb_spec (- 2 ^ 31) (QByteArray.hex_value (c :: rest))); [reflexivity | lia].
Qed.

(** [toInt(nullptr, 16)] on a text that is no number: 0. *)
Lemma toInt16_no_number s :
  s = [] \/
  (exists c rest, s = c :: rest /\ QByteArray.hex_digit c = None /\
     QByteArray.isspace c = false /\ QByteArray.code c <> 45 /\ QByteArray.code c <> 43) ->
  QByteArray.toInt16 s = 0.
Proof.
  intros [-> | (c & rest & -> & Hd & Hsp & H45 & H43)]; [reflexivity|].
  unfold QByteArray.toInt16. cbn [QByteArray.skip_space]. rewrite Hsp.
  rewrite (proj2 (Z.eqb_neq (QByteArray.code c) 45)) by lia.
  rewrite (proj2 (Z.eqb_neq (QByteArray.code c) 43)) by lia.
  assert (Hskip : QByteArray.skip_0x (c :: rest) = c :: rest).
  { destruct rest as [|c1 rest]; [reflexivity|]. cbn [QByteArray.skip_0x].
    destruct (Z.eqb_spec (QByteArray.code c) 48) as [E|]; [|reflexivity].
    unfold QByteArray.hex_digit in Hd. rewrite E in Hd. discriminate Hd. }
  rewrite Hskip, Hd. reflexivity.
Qed.

(** C7 (as the code has it): when the file cannot be opened the load leaves
    the model as it is; a line whose simplified text has at most two
    characters is skipped; a longer line with a comma always sets the entry
    of the key [ID & 0x7F] to whether its second field, the text between
    the first comma and the next one or the end of the line, upper-cases to
    T, where [ID] is what [toInt(nullptr, 16)] yields for the first field,
    the text before the first comma: for a text of hexadecimal digits its
    value when that is below [2^31] and 0 from [2^31] on, and 0 for an
    empty text and for a text that begins with a character that is no
    hexadecimal digit, sign or white space; and the content
    ["123,T\n456,F\n"] yields a table with key [0x123 & 0x7F] enabled and
    key [0x456 & 0x7F] disabled, and nothing else when the store is
    empty. *)
Theorem loadFilterFile_lines m :
  loadFilterFile None m = Some m /\
  (forall raw rest t,
     Z.of_nat (length (QByteArray.simplified raw)) <= 2 ->
     load_lines (raw :: rest) t = load_lines rest t) /\
  (forall raw rest t,
     2 < Z.of_nat (length (QByteArray.simplified raw)) ->
     ","%char ∈ QByteArray.simplified raw ->
     exists a b,
       QByteArray.simplified raw = a ++ ","%char :: b /\ (","%char ∉ a) /\
       load_lines (raw :: rest) t =
       load_lines rest
         (<[filter_key (QByteArray.toInt16 a) :=
              bool_decide (QByteArray.toUpper (QByteArray.before ","%char b) = ["T"%char])]> t)) /\
  (forall a, a <> [] -> QByteArray.all_hex a ->
     QByteArray.toInt16 a =
     if QByteArray.hex_value a <? 2 ^ 31 then QByteArray.hex_value a else 0) /\
  (forall a,
     a = [] \/
     (exists c rest, a = c :: rest /\ QByteArray.hex_digit c = None /\
        QByteArray.isspace c = false /\
        QByteArray.code c <> 45 /\ QByteArray.code c <> 43) ->
     QByteArray.toInt16 a = 0) /\
  (exists m', loadFilterFile (Some two_line_file) m = Some m' /\
     filters m' !! filter_key 0x123 = Some true /\
     filters m' !! filter_key 0x456 = Some false /\
     (frames m = [] ->
      filters m' = <[filter_key 0x456 := false]> (<[filter_key 0x123 := true]> (∅ : gmap Z bool)))).
Proof.
  split; [reflexivity|]. split; [| split; [| split; [| split]]].
  - intros raw rest t H. simpl. now rewrite load_line_short.
  - intros raw rest t H Hin.
    destruct (list_elem_of_split_l _ _ Hin) as (a & b & Hline & Hnot).
    exists a, b. split; [exact Hline|]. split; [exact Hnot|]. simpl.
    now rewrite (load_line_fields raw t a b H Hline Hnot).
  - exact toInt16_hex.
  - exact toInt16_no_number.
  - unfold loadFilterFile. rewrite two_line_file_table. simpl.
    eexists. split; [reflexivity|].
    set (t := <[filter_key 0x456 := false]> (<[filter_key 0x123 := true]> (∅ : gmap Z bool))).
    destruct (sendRefresh_spec (with_filters t m)) as (_ & _ & Hkeep).
    split; [| split].
    + apply Hkeep. reflexivity.
    + apply Hkeep. reflexivity.
    + intros Hempty. unfold sendRefresh. simpl. rewrite Hempty. reflexivity.
Qed.

Lemma loadFilterFile_lines_witness :
  load_lines [list_ascii_of_string "7"; list_ascii_of_string "80000005,T";
              list_ascii_of_string "1f,t,x"] (∅ : gmap Z bool) =
  Some (<[31 := true]> (<[0 := true]> (∅ : gmap Z bool))).
Proof.
  destruct (loadFilterFile_lines init) as (_ & Hshort & Hlong & Hhex & _).
  assert (Hfree : forall a : list ascii,
            bool_decide (","%char ∈ a) = false -> ","%char ∉ a)
    by (intros a H Hin; apply bool_decide_eq_false in H; now apply H).
  assert (Hin : forall a : list ascii,
            bool_decide (","%char ∈ a) = true -> ","%char ∈ a)
    by (intros a H; now apply bool_decide_eq_true in H).
  assert (Hfirst : forall (s a b a' b' : list ascii),
            s = a ++ ","%char :: b -> ","%char ∉ a ->
            s = a' ++ ","%char :: b' -> ","%char ∉ a' -> a = a' /\ b = b').
  { intros s a. revert s. induction a as [|c a IH]; intros s b a' b' -> Hnot E Hnot'.
    - destruct a' as [|c' a']; simpl in E; [now injection E as <-|].
      injection E as <- _. exfalso. apply Hnot'. apply list_elem_of_here.
    - destruct a' as [|c' a']; simpl in E.
      + injection E as -> _. exfalso. apply Hnot. apply list_elem_of_here.
      + injection E as <- E. apply not_elem_of_cons in Hnot as [_ Hnot].
        apply not_elem_of_cons in Hnot' as [_ Hnot'].
        destruct (IH _ b a' b' eq_refl Hnot E Hnot') as [-> ->]. auto. }
  assert (Hdigits : forall a : list ascii,
            forallb (fun c => bool_decide (QByteArray.hex_digit c <> None)) a = true ->
            QByteArray.all_hex a).
  { intros a H. apply Forall_forall. intros c Hc.
    rewrite forallb_forall in H. apply list_elem_of_In, H, bool_decide_eq_true in Hc.
    destruct (QByteArray.hex_digit c); [eauto | congruence]. }
  rewrite (Hshort (list_ascii_of_string "7")) by (vm_compute; discriminate).
  destruct (Hlong (list_ascii_of_string "80000005,T")
              [list_ascii_of_string "1f,t,x"] ∅) as (a & b & Hline & Hnot & ->);
    [vm_compute; reflexivity | apply Hin; reflexivity |].
  destruct (Hfirst _ _ _ (list_ascii_of_string "80000005") (list_ascii_of_string "T")
              Hline Hnot) as [-> ->]; [reflexivity | apply Hfree; reflexivity |].
  rewrite (Hhex (list_ascii_of_string "80000005"));
    [| discriminate | apply Hdigits; reflexivity].
  match goal with
  | |- load_lines _ ?t = _ =>
      destruct (Hlong (list_ascii_of_string "1f,t,x") [] t)
        as (a & b & Hline' & Hnot' & ->);
        [vm_compute; reflexivity | apply Hin; reflexivity |]
  end.
  destruct (Hfirst _ _ _ (list_ascii_of_string "1f") (list_ascii_of_string "t,x")
              Hline' Hnot') as [-> ->]; [reflexivity | apply Hfree; reflexivity |].
  rewrite (Hhex (list_ascii_of_string "1f"));
    [| discriminate | apply Hdigits; reflexivity].
  reflexivity.
Defined.

(** C7 as the specification states it does not hold: a line whose key is no
    hexadecimal number is not skipped; it sets the entry of key 0. *)
Lemma loadFilterFile_keeps_malformed_line :
  (fun m' => filters m' !! 0) <$>
    loadFilterFile (Some ("zzz,T" ++ newline)%string) init = Some (Some true) /\
  (fun m' => filters m') <$>
    loadFilterFile (Some ("zzz,T" ++ newline)%string) init <> Some (∅ : gmap Z bool).
Proof.
  split; [vm_compute; reflexivity|].
  intros H. apply (f_equal (fun o => (fun t : gmap Z bool => t !! 0) <$> o)) in H.
  vm_compute in H. discriminate H.
Qed.

End FilterFileFacts.

(** ** The column sort *)

Module SortFacts.
Import CANFrameModel FilterFacts.

Lemma ord_refl asc a : ord asc a a.
Proof. destruct asc; simpl; lia. Qed.

Lemma ord_trans asc a b c : ord asc a b -> ord asc b c -> ord asc a c.
Proof. destruct asc; simpl; lia. Qed.

Lemma strictly_before_false asc a b : strictly_before asc a b = false <-> ord asc b a.
Proof. destruct asc; simpl; lia. Qed.

Lemma strictly_before_true asc a b : strictly_before asc a b = true <-> ~ ord asc b a.
Proof. destruct asc; simpl; lia. Qed.

Lemma strictly_before_ord asc a b : strictly_before asc a b = true -> ord asc a b.
Proof. destruct asc; simpl; lia. Qed.

(** *** Rows by index *)

Lemma at_row_Some rows k f :
  at_row rows k = Some f -> 0 <= k < Z.of_nat (length rows).
Proof.
  unfold at_row. destruct (decide (0 <= k)); [|discriminate].
  intros H. apply lookup_lt_Some in H. lia.
Qed.

Lemma at_row_is_Some rows k :
  0 <= k < Z.of_nat (length rows) -> is_Some (at_row rows k).
Proof.
  intros H. unfold at_row. rewrite decide_True by lia.
  apply lookup_lt_is_Some_2. lia.
Qed.

(** Rows after the exchange of rows [i] and [j]. *)
Lemma at_row_exchange rows i j a b k :
  at_row rows i = Some a -> at_row rows j = Some b ->
  at_row (<[Z.to_nat j := a]> (<[Z.to_nat i := b]> rows)) k =
  if decide (k = j) then Some a
  else if decide (k = i) then Some b
  else at_row rows k.
Proof.
  intros Hi Hj.
  pose proof (at_row_Some _ _ _ Hi) as Bi. pose proof (at_row_Some _ _ _ Hj) as Bj.
  unfold at_row in *.
  destruct (decide (0 <= k)) as [Hk | Hk].
  2:{ rewrite decide_False by lia. rewrite decide_False by lia. reflexivity. }
  destruct (decide (k = j)) as [-> | Hkj].
  { apply list_lookup_insert_eq. rewrite length_insert. lia. }
  rewrite list_lookup_insert_ne by lia.
  destruct (decide (k = i)) as [-> | Hki].
  { apply list_lookup_insert_eq. lia. }
  now rewrite list_lookup_insert_ne by lia.
Qed.

Lemma length_exchange (rows : list CANFrame) i j a b :
  length (<[Z.to_nat j := a]> (<[Z.to_nat i := b]> rows)) = length rows.
Proof. now rewrite !length_insert. Qed.

(** *** Exchanges between two bounds *)

Lemma permuted_within_length lo hi rows rows' :
  permuted_within lo hi rows rows' -> length rows' = length rows.
Proof.
  induction 1 as [|rows i j a b rows' Hi Hj Ha Hb _ IH]; [reflexivity|].
  now rewrite IH, length_exchange.
Qed.

Lemma permuted_within_outside lo hi rows rows' k :
  permuted_within lo hi rows rows' -> ~ (lo <= k <= hi) ->
  at_row rows' k = at_row rows k.
Proof.
  induction 1 as [|rows i j a b rows' Hi Hj Ha Hb _ IH]; [reflexivity|].
  intros Hk. rewrite IH by exact Hk.
  rewrite (at_row_exchange rows i j a b k Ha Hb).
  rewrite decide_False by lia. now rewrite decide_False by lia.
Qed.

(** What holds of every row between the bounds still holds of every row
    between them after the exchanges. *)
Lemma permuted_within_all lo hi rows rows' (P : CANFrame -> Prop) :
  permuted_within lo hi rows rows' ->
  (forall k f, lo <= k <= hi -> at_row rows k = Some f -> P f) ->
  forall k f, lo <= k <= hi -> at_row rows' k = Some f -> P f.
Proof.
  induction 1 as [|rows i j a b rows' Hi Hj Ha Hb _ IH]; [auto|].
  intros HP. apply IH. intros k f Hk.
  rewrite (at_row_exchange rows i j a b k Ha Hb).
  destruct (decide (k = j)) as [-> | Hkj]; [intros [= <-]; eauto|].
  destruct (decide (k = i)) as [-> | Hki]; [intros [= <-]; eauto|].
  eauto.
Qed.

Lemma permuted_within_trans lo hi r1 r2 r3 :
  permuted_within lo hi r1 r2 -> permuted_within lo hi r2 r3 ->
  permuted_within lo hi r1 r3.
Proof.
  induction 1 as [|rows i j a b rows' Hi Hj Ha Hb _ IH]; [auto|].
  intros H3. eapply pw_step; [exact Hi | exact Hj | exact Ha | exact Hb | exact (IH H3)].
Qed.

Lemma permuted_within_widen lo hi lo' hi' rows rows' :
  lo' <= lo -> hi <= hi' ->
  permuted_within lo hi rows rows' -> permuted_within lo' hi' rows rows'.
Proof.
  intros Hlo Hhi. induction 1 as [|rows i j a b rows' Hi Hj Ha Hb _ IH].
  - apply pw_refl.
  - eapply pw_step; [| | exact Ha | exact Hb | exact IH]; lia.
Qed.

Lemma permuted_within_Permutation lo hi rows rows' :
  permuted_within lo hi rows rows' -> rows' ≡ₚ rows.
Proof.
  induction 1 as [|rows i j a b rows' Hi Hj Ha Hb _ IH]; [reflexivity|].
  rewrite IH. unfold at_row in Ha, Hb.
  destruct (decide (0 <= i)); [|discriminate].
  destruct (decide (0 <= j)); [|discriminate].
  now apply Permutation_insert_swap.
Qed.

(** *** The scans and the partition *)

Section Sort.
Variables (asc : bool) (col : Column) (m0 : Model).

Local Abbreviation kf := (frameVal (overwriteDups m0) col).

Lemma getCANFrameVal_val rows k :
  getCANFrameVal k col (with_frames rows m0) = valL kf rows k.
Proof.
  unfold getCANFrameVal, valL. simpl.
  destruct (Z.geb_spec k (Z.of_nat (length rows))); [|reflexivity].
  unfold at_row. destruct (decide (0 <= k)); [|reflexivity].
  rewrite lookup_ge_None_2 by lia. reflexivity.
Qed.

Lemma valL_exchange rows i j a b k :
  at_row rows i = Some a -> at_row rows j = Some b ->
  valL kf (<[Z.to_nat j := a]> (<[Z.to_nat i := b]> rows)) k =
  if decide (k = j) then valL kf rows i
  else if decide (k = i) then valL kf rows j
  else valL kf rows k.
Proof.
  intros Hi Hj. unfold valL at 1.
  rewrite (at_row_exchange rows i j a b k Hi Hj).
  destruct (decide (k = j)); [unfold valL; now rewrite Hi|].
  destruct (decide (k = i)); [unfold valL; now rewrite Hj|].
  reflexivity.
Qed.

Lemma scan_up_eq n upperBound piv i m :
  scan_up asc n col upperBound piv i m =
  if (i + 1 <? upperBound) && strictly_before asc (getCANFrameVal (i + 1) col m) piv
  then match n with
       | O => None
       | S n' => scan_up asc n' col upperBound piv (i + 1) m
       end
  else Some (i + 1).
Proof. destruct n; reflexivity. Qed.

Lemma scan_down_eq n lowerBound piv j m :
  scan_down asc n col lowerBound piv j m =
  if (j - 1 >? lowerBound) && strictly_before asc piv (getCANFrameVal (j - 1) col m)
  then match n with
       | O => None
       | S n' => scan_down asc n' col lowerBound piv (j - 1) m
       end
  else Some (j - 1).
Proof. destruct n; reflexivity. Qed.

(** The upward scan stops at the first row after [i] that is at the upper
    bound or whose key is not strictly before the pivot. *)
Lemma scan_up_spec rows hi piv n i :
  hi - i <= Z.of_nat n + 1 ->
  exists i', scan_up asc n col hi piv i (with_frames rows m0) = Some i' /\ i < i' /\
    (forall k, i < k < i' -> k < hi /\ strictly_before asc (valL kf rows k) piv = true) /\
    (i' < hi -> strictly_before asc (valL kf rows i') piv = false).
Proof.
  revert i. induction n as [|n IH]; intros i Hn;
    rewrite scan_up_eq, getCANFrameVal_val;
    destruct ((i + 1 <? hi) && strictly_before asc (valL kf rows (i + 1)) piv) eqn:E.
  - apply andb_true_iff in E as [E1 _]. apply Z.ltb_lt in E1. lia.
  - exists (i + 1). split; [reflexivity|]. split; [lia|]. split; [intros k Hk; lia|].
    intros Hlt. apply andb_false_iff in E as [E | E]; [apply Z.ltb_ge in E; lia | exact E].
  - apply andb_true_iff in E as [E1 E2]. apply Z.ltb_lt in E1.
    destruct (IH (i + 1)) as (i' & H & Hlt & Hbetween & Hstop); [lia|].
    exists i'. split; [exact H|]. split; [lia|]. split; [|exact Hstop].
    intros k Hk. destruct (decide (k = i + 1)) as [-> | Hne]; [auto | apply Hbetween; lia].
  - exists (i + 1). split; [reflexivity|]. split; [lia|]. split; [intros k Hk; lia|].
    intros Hlt. apply andb_false_iff in E as [E | E]; [apply Z.ltb_ge in E; lia | exact E].
Qed.

(** The downward scan, likewise. *)
Lemma scan_down_spec rows lo piv n j :
  j - lo <= Z.of_nat n + 1 ->
  exists j', scan_down asc n col lo piv j (with_frames rows m0) = Some j' /\ j' < j /\
    (forall k, j' < k < j -> lo < k /\ strictly_before asc piv (valL kf rows k) = true) /\
    (lo < j' -> strictly_before asc piv (valL kf rows j') = false).
Proof.
  revert j. induction n as [|n IH]; intros j Hn;
    rewrite scan_down_eq, getCANFrameVal_val;
    destruct ((j - 1 >? lo) && strictly_before asc piv (valL kf rows (j - 1))) eqn:E.
  - apply andb_true_iff in E as [E1 _]. apply Z.gtb_lt in E1. lia.
  - exists (j - 1). split; [reflexivity|]. split; [lia|]. split; [intros k Hk; lia|].
    intros Hlt. apply andb_false_iff in E as [E | E]; [| exact E].
    destruct (Z.gtb_spec (j - 1) lo); [discriminate | lia].
  - apply andb_true_iff in E as [E1 E2]. apply Z.gtb_lt in E1.
    destruct (IH (j - 1)) as (j' & H & Hlt & Hbetween & Hstop); [lia|].
    exists j'. split; [exact H|]. split; [lia|]. split; [|exact Hstop].
    intros k Hk. destruct (decide (k = j - 1)) as [-> | Hne]; [split; [lia | exact E2] | apply Hbetween; lia].
  - exists (j - 1). split; [reflexivity|]. split; [lia|]. split; [intros k Hk; lia|].
    intros Hlt. apply andb_false_iff in E as [E | E]; [| exact E].
    destruct (Z.gtb_spec (j - 1) lo); [discriminate | lia].
Qed.

(** The partition: from a state in which the rows up to [i] are not after
    the pivot, the rows from [j] on are not before it, and each scan has a
    row that stops it, the loop ends with a cut [p] strictly below the
    upper bound. *)
Lemma partition_loop_spec lo hi piv n : forall i j rows,
  0 <= lo -> hi < Z.of_nat (length rows) ->
  lo - 1 <= i -> j <= hi + 1 -> i < j -> j - i <= 2 * Z.of_nat n ->
  (forall k, lo <= k <= i -> ord asc (valL kf rows k) piv) ->
  (forall k, j <= k <= hi -> ord asc piv (valL kf rows k)) ->
  (exists si, i < si <= hi /\ ord asc piv (valL kf rows si) /\ (j <= hi \/ si < hi)) ->
  (exists sj, lo <= sj < j /\ ord asc (valL kf rows sj) piv) ->
  exists p rows',
    partition_loop asc n col lo hi piv i j (with_frames rows m0)
      = Some (p, with_frames rows' m0) /\
    lo <= p < hi /\ permuted_within lo hi rows rows' /\
    (forall k, lo <= k <= p -> ord asc (valL kf rows' k) piv) /\
    (forall k, p < k <= hi -> ord asc piv (valL kf rows' k)).
Proof.
  induction n as [|n IH]; intros i j rows Hlo Hhi Hi Hj Hij Hfuel Hleft Hright
    (si & Hsi & Hsi_ord & Hsi_hi) (sj & Hsj & Hsj_ord); [lia|].
  cbn [partition_loop].
  destruct (scan_up_spec rows hi piv (Z.to_nat (hi - i)) i)
    as (i' & -> & Hii' & Hup & Hup_stop); [lia|].
  destruct (scan_down_spec rows lo piv (Z.to_nat (j - lo)) j)
    as (j' & -> & Hjj' & Hdown & Hdown_stop); [lia|].
  cbn [mbind option_bind].
  assert (Hi'si : i' <= si).
  { destruct (Z.le_gt_cases i' si) as [|Hgt]; [assumption|].
    destruct (Hup si ltac:(lia)) as [_ Hsb].
    apply strictly_before_true in Hsb. contradiction. }
  assert (Hi'ord : ord asc piv (valL kf rows i')).
  { destruct (Z.lt_ge_cases i' hi) as [Hlt | Hge].
    - now apply strictly_before_false, Hup_stop.
    - replace i' with si by lia. exact Hsi_ord. }
  assert (Hsjj' : sj <= j').
  { destruct (Z.le_gt_cases sj j') as [|Hgt]; [assumption|].
    destruct (Hdown sj ltac:(lia)) as [_ Hsb].
    apply strictly_before_true in Hsb. contradiction. }
  assert (Hj'ord : ord asc (valL kf rows j') piv).
  { destruct (Z.lt_ge_cases lo j') as [Hlt | Hge].
    - now apply strictly_before_false, Hdown_stop.
    - replace j' with sj by lia. exact Hsj_ord. }
  assert (Hleft' : forall k, lo <= k < i' -> ord asc (valL kf rows k) piv).
  { intros k Hk. destruct (Z.le_gt_cases k i) as [Hle | Hgt].
    - apply Hleft. lia.
    - apply strictly_before_ord. apply Hup. lia. }
  assert (Hright' : forall k, j' < k <= hi -> ord asc piv (valL kf rows k)).
  { intros k Hk. destruct (Z.le_gt_cases j k) as [Hle | Hgt].
    - apply Hright. lia.
    - apply strictly_before_ord. apply Hdown. lia. }
  destruct (Z.ltb_spec i' j') as [Hlt | Hge].
  - (* the two rows are exchanged and the loop goes on *)
    destruct (at_row_is_Some rows i' ltac:(lia)) as [a Ha].
    destruct (at_row_is_Some rows j' ltac:(lia)) as [b Hb].
    unfold swap_rows. cbn [frames with_frames]. rewrite Ha, Hb. cbn [mbind option_bind].
    set (rows2 := <[Z.to_nat j' := a]> (<[Z.to_nat i' := b]> rows)).
    change (with_frames rows2 (with_frames rows m0)) with (with_frames rows2 m0).
    assert (Hval : forall k, valL kf rows2 k =
                     if decide (k = j') then valL kf rows i'
                     else if decide (k = i') then valL kf rows j'
                     else valL kf rows k)
      by (intros k; apply valL_exchange; assumption).
    destruct (IH i' j' rows2) as (p & rows' & Hrun & Hp & Hperm & Hl & Hr); try lia.
    + subst rows2. rewrite length_exchange. lia.
    + intros k Hk. rewrite Hval.
      destruct (decide (k = j')); [lia|].
      destruct (decide (k = i')); [exact Hj'ord | apply Hleft'; lia].
    + intros k Hk. rewrite Hval.
      destruct (decide (k = j')); [exact Hi'ord|].
      destruct (decide (k = i')); [lia | apply Hright'; lia].
    + exists j'. split; [lia|]. rewrite Hval. rewrite decide_True by reflexivity.
      split; [exact Hi'ord | left; lia].
    + exists i'. split; [lia|]. rewrite Hval. rewrite decide_False by lia.
      rewrite decide_True by reflexivity. exact Hj'ord.
    + exists p, rows'. split; [exact Hrun|]. split; [exact Hp|].
      split; [| split; assumption].
      eapply pw_step; [| | exact Ha | exact Hb | exact Hperm]; lia.
  - (* the scans have met: the cut is [j'] *)
    exists j', rows. split; [reflexivity|]. split.
    { split; [lia|]. destruct Hsi_hi; lia. }
    split; [apply pw_refl|]. split.
    + intros k Hk. destruct (Z.lt_ge_cases k i') as [Hlt | Hge'].
      * apply Hleft'. lia.
      * replace k with j' by lia. exact Hj'ord.
    + intros k Hk. apply Hright'. lia.
Qed.

(** The recursion: with a budget of at least [upperBound - lowerBound] the
    sort returns, has exchanged rows between the bounds only, and leaves
    them in order. *)
Lemma qSortCANFrame_spec n : forall lo hi rows,
  0 <= lo -> hi < Z.of_nat (length rows) -> hi - lo <= Z.of_nat n ->
  exists rows',
    qSortCANFrame asc n col lo hi (with_frames rows m0) = Some (with_frames rows' m0) /\
    permuted_within lo hi rows rows' /\ sorted_between asc kf rows' lo hi.
Proof.
  induction n as [|n IH]; intros lo hi rows Hlo Hhi Hfuel.
  - exists rows. split; [|split; [apply pw_refl|]].
    + simpl. destruct (Z.ltb_spec lo hi); [lia | reflexivity].
    + intros a b Ha Hab Hb. replace b with a by lia. apply ord_refl.
  - cbn [qSortCANFrame]. destruct (Z.ltb_spec lo hi) as [Hlt | Hge].
    2:{ exists rows. split; [reflexivity|]. split; [apply pw_refl|].
        intros a b Ha Hab Hb. replace b with a by lia. apply ord_refl. }
    rewrite getCANFrameVal_val.
    set (mid := lo + (hi - lo) ÷ 2).
    assert (Hmid : lo <= mid < hi).
    { subst mid. pose proof (Z.quot_pos (hi - lo) 2 ltac:(lia) ltac:(lia)).
      pose proof (Z.quot_lt (hi - lo) 2 ltac:(lia) ltac:(lia)). lia. }
    set (piv := valL kf rows mid).
    destruct (partition_loop_spec lo hi piv (Z.to_nat (hi - lo + 2)) (lo - 1) (hi + 1) rows)
      as (p & rows1 & -> & Hp & Hperm1 & Hl1 & Hr1); try lia.
    + exists mid. split; [lia|]. split; [apply ord_refl | right; lia].
    + exists mid. split; [lia | apply ord_refl].
    + cbn [mbind option_bind].
      pose proof (permuted_within_length _ _ _ _ Hperm1) as Hlen1.
      destruct (IH lo p rows1) as (rows2 & -> & Hperm2 & Hsorted2); try lia.
      cbn [mbind option_bind].
      pose proof (permuted_within_length _ _ _ _ Hperm2) as Hlen2.
      destruct (IH (p + 1) hi rows2) as (rows3 & -> & Hperm3 & Hsorted3); try lia.
      exists rows3. split; [reflexivity|]. split.
      { eapply permuted_within_trans; [exact Hperm1|].
        eapply permuted_within_trans.
        - eapply permuted_within_widen; [| | exact Hperm2]; lia.
        - eapply permuted_within_widen; [| | exact Hperm3]; lia. }
      pose proof (permuted_within_length _ _ _ _ Hperm3) as Hlen3.
      (* the keys of the left part stay on the left of the pivot *)
      assert (Hl3 : forall k, lo <= k <= p -> ord asc (valL kf rows3 k) piv).
      { intros k Hk. unfold valL.
        rewrite (permuted_within_outside _ _ _ _ k Hperm3) by lia.
        destruct (at_row rows2 k) as [f|] eqn:Hf.
        2:{ destruct (at_row_is_Some rows2 k ltac:(lia)) as [f Hf']. congruence. }
        apply (permuted_within_all lo p rows1 rows2 (fun f => ord asc (kf f) piv) Hperm2)
          with (k := k); [| lia | exact Hf].
        intros k' f' Hk' Hf'. specialize (Hl1 k' Hk'). unfold valL in Hl1.
        now rewrite Hf' in Hl1. }
      assert (Hr3 : forall k, p < k <= hi -> ord asc piv (valL kf rows3 k)).
      { intros k Hk. unfold valL.
        destruct (at_row rows3 k) as [f|] eqn:Hf.
        2:{ destruct (at_row_is_Some rows3 k ltac:(lia)) as [f Hf']. congruence. }
        apply (permuted_within_all (p + 1) hi rows2 rows3 (fun f => ord asc piv (kf f)) Hperm3)
          with (k := k); [| lia | exact Hf].
        intros k' f' Hk' Hf'. specialize (Hr1 k' ltac:(lia)). unfold valL in Hr1.
        rewrite <- (permuted_within_outside _ _ _ _ k' Hperm2) in Hr1 by lia.
        now rewrite Hf' in Hr1. }
      intros a b Ha Hab Hb.
      destruct (Z.le_gt_cases b p) as [Hbp | Hbp].
      * (* both on the left: sorted by the first call, untouched by the second *)
        unfold valL. rewrite !(permuted_within_outside _ _ _ _ _ Hperm3) by lia.
        apply Hsorted2; lia.
      * destruct (Z.le_gt_cases a p) as [Hap | Hap].
        -- eapply ord_trans; [apply Hl3 | apply Hr3]; lia.
        -- apply Hsorted3; lia.
Qed.

End Sort.

(** *** sortByColumn *)

Lemma with_frames_same m : with_frames (frames m) m = m.
Proof. destruct m; reflexivity. Qed.

Lemma sendRefresh_fields m :
  frames (sendRefresh m) = frames m /\
  overwriteDups (sendRefresh m) = overwriteDups m /\
  sortDirAsc (sendRefresh m) = sortDirAsc m.
Proof.
  unfold sendRefresh.
  destruct (refresh_scan_spec (frames m) [] m) as [_ [E _]].
  destruct (refresh_scan (frames m) [] m) as [out m']. simpl in *.
  rewrite E. repeat split.
Qed.

Lemma getCANFrameVal_sendRefresh k col m :
  getCANFrameVal k col (sendRefresh m) = getCANFrameVal k col m.
Proof.
  destruct (sendRefresh_fields m) as (Hf & Hd & _).
  unfold getCANFrameVal. now rewrite Hf, Hd.
Qed.

(** One call: the direction flag flips, the call returns, the full store is
    a rearrangement of the old one, and adjacent rows are in the order of
    the new flag. *)
Lemma sortByColumn_once column m :
  exists m',
    sortByColumn column m = Some m' /\
    sortDirAsc m' = negb (sortDirAsc m) /\
    frames m' ≡ₚ frames m /\
    forall i, 0 <= i -> i + 1 < Z.of_nat (length (frames m')) ->
      ord (sortDirAsc m') (getCANFrameVal i column m') (getCANFrameVal (i + 1) column m').
Proof.
  unfold sortByColumn.
  set (m1 := with_sortDirAsc (negb (sortDirAsc m)) m).
  assert (Hq : (if sortDirAsc m1
                then qSortCANFrameAsc (length (frames m1)) column 0
                       (Z.of_nat (length (frames m1)) - 1) m1
                else qSortCANFrameDesc (length (frames m1)) column 0
                       (Z.of_nat (length (frames m1)) - 1) m1)
               = qSortCANFrame (sortDirAsc m1) (length (frames m1)) column 0
                   (Z.of_nat (length (frames m1)) - 1) (with_frames (frames m1) m1)).
  { rewrite with_frames_same. now destruct (sortDirAsc m1). }
  rewrite Hq.
  destruct (qSortCANFrame_spec (sortDirAsc m1) column m1 (length (frames m1)) 0
              (Z.of_nat (length (frames m1)) - 1) (frames m1))
    as (rows' & -> & Hperm & Hsorted); try lia.
  cbn [mbind option_bind].
  set (m2 := with_frames rows' m1).
  destruct (sendRefresh_fields m2) as (Hf & Hd & Hs).
  exists (sendRefresh m2). split; [reflexivity|]. split; [now rewrite Hs|].
  split.
  { rewrite Hf. apply (permuted_within_Permutation _ _ _ _ Hperm). }
  intros i Hi0 Hi1. rewrite Hs, !getCANFrameVal_sendRefresh.
  subst m2. rewrite !getCANFrameVal_val.
  rewrite Hf in Hi1. cbn [frames with_frames] in Hi1.
  pose proof (permuted_within_length _ _ _ _ Hperm) as Hlen.
  apply Hsorted; cbn [frames with_frames]; lia.
Qed.

(** C4: [sortByColumn] flips the direction flag and returns with the full
    store rearranged so that every adjacent pair of rows is in order for
    the key of the column: [key(i) <= key(i+1)] when the flag ends
    ascending, [key(i+1) <= key(i)] when it ends descending.  A second call
    on the same column flips the flag back, so that the store ends in the
    opposite order.  (The [Data] and [ASCII] keys are defined for frames of
    at most eight bytes.) *)
Theorem sortByColumn_sorts column m :
  (column = Data \/ column = ASCII ->
   Forall (fun f => (length (payload f) <= 8)%nat) (frames m)) ->
  exists m',
    sortByColumn column m = Some m' /\
    sortDirAsc m' = negb (sortDirAsc m) /\
    frames m' ≡ₚ frames m /\
    (forall i, 0 <= i -> i + 1 < Z.of_nat (length (frames m')) ->
       if sortDirAsc m'
       then getCANFrameVal i column m' <= getCANFrameVal (i + 1) column m'
       else getCANFrameVal (i + 1) column m' <= getCANFrameVal i column m') /\
    exists m'',
      sortByColumn column m' = Some m'' /\
      sortDirAsc m'' = negb (sortDirAsc m') /\
      sortDirAsc m'' = sortDirAsc m /\
      frames m'' ≡ₚ frames m /\
      (forall i, 0 <= i -> i + 1 < Z.of_nat (length (frames m'')) ->
         if sortDirAsc m''
         then getCANFrameVal i column m'' <= getCANFrameVal (i + 1) column m''
         else getCANFrameVal (i + 1) column m'' <= getCANFrameVal i column m'').
Proof.
  intros _.
  destruct (sortByColumn_once column m) as (m' & Hrun & Hdir & Hperm & Hsorted).
  destruct (sortByColumn_once column m') as (m'' & Hrun' & Hdir' & Hperm' & Hsorted').
  exists m'. split; [exact Hrun|]. split; [exact Hdir|]. split; [exact Hperm|]. split.
  - intros i Hi0 Hi1. specialize (Hsorted i Hi0 Hi1).
    unfold ord in Hsorted. destruct (sortDirAsc m'); exact Hsorted.
  - exists m''. split; [exact Hrun'|]. split; [exact Hdir'|]. split; [| split].
    + rewrite Hdir', Hdir. apply negb_involutive.
    + now rewrite Hperm'.
    + intros i Hi0 Hi1. specialize (Hsorted' i Hi0 Hi1).
      unfold ord in Hsorted'. destruct (sortDirAsc m''); exact Hsorted'.
Qed.

Lemma sortByColumn_sorts_witness :
  exists m',
    sortByColumn FrameId five_row_model = Some m' /\
    sortDirAsc m' = true /\
    getCANFrameVal 0 FrameId m' <= getCANFrameVal 1 FrameId m'.
Proof.
  destruct (sortByColumn_sorts FrameId five_row_model) as (m' & Hrun & Hdir & Hperm & Hsorted & _).
  - intros [H | H]; discriminate H.
  - exists m'. split; [exact Hrun|]. split; [exact Hdir|].
    specialize (Hsorted 0 ltac:(lia)).
    rewrite Hdir in Hsorted. apply Hsorted.
    rewrite (Permutation_length Hperm). vm_compute. reflexivity.
Defined.

End SortFacts.

(** ** Overwrite mode *)

Module DedupFacts.
Import CANFrameModel FilterFacts.

Lemma same_row_key a b : same_row a b = true <-> row_key a = row_key b.
Proof.
  unfold same_row, row_key. rewrite andb_true_iff, !Z.eqb_eq.
  split; [intros [-> ->]; reflexivity | intros [= -> ->]; auto].
Qed.

Lemma overwrite_scan_None t rows :
  overwrite_scan t rows = None <-> row_key t ∉ row_key <$> rows.
Proof.
  induction rows as [|row rest IH]; simpl.
  - split; [intros _; apply not_elem_of_nil | reflexivity].
  - rewrite not_elem_of_cons.
    destruct (same_row row t) eqn:E.
    + apply same_row_key in E. split; [discriminate | intros [H _]; congruence].
    + assert (row_key t <> row_key row).
      { intros H. symmetry in H. apply same_row_key in H. congruence. }
      destruct (overwrite_scan t rest) as [[rest' t']|].
      * split; [discriminate|]. intros [_ H']. now apply IH in H'.
      * split; [intros _; split; [assumption | now apply IH] | reflexivity].
Qed.

(** A successful scan replaces the first row of the frame's identifier and
    bus by the frame, which continues the row's count. *)
Lemma overwrite_scan_Some t rows rows' t' :
  overwrite_scan t rows = Some (rows', t') ->
  exists pre row post,
    rows = pre ++ row :: post /\ rows' = pre ++ t' :: post /\
    row_key row = row_key t /\ row_key t' = row_key t /\
    frameCount t' = frameCount row + 1.
Proof.
  revert rows'. induction rows as [|row rest IH]; intros rows'; simpl; [discriminate|].
  destruct (same_row row t) eqn:E.
  - intros [= <- <-]. exists [], row, rest.
    apply same_row_key in E. repeat split; assumption.
  - destruct (overwrite_scan t rest) as [[rest' t'']|]; [|discriminate].
    intros [= <- <-].
    destruct (IH rest' eq_refl) as (pre & row' & post & -> & -> & H).
    exists (row :: pre), row', post. repeat split; apply H.
Qed.

Lemma append_fresh_fields reset t m :
  frames (append_fresh reset t m) = frames m ++ [t] /\
  overwriteDups (append_fresh reset t m) = overwriteDups m.
Proof.
  unfold append_fresh.
  destruct (passes_spec t (with_frames (frames m ++ [t]) m)) as [_ [E _]].
  destruct (passes t (with_frames (frames m ++ [t]) m)) as [ok m2]. simpl in E.
  destruct ok; rewrite E; split; reflexivity.
Qed.

Lemma register_key_fields k m :
  frames (register_key k m) = frames m /\
  overwriteDups (register_key k m) = overwriteDups m /\
  timeOffset (register_key k m) = timeOffset m.
Proof. unfold register_key. destruct (filters m !! k); repeat split. Qed.

(** The full store after [addFrame] in overwrite mode. *)
Lemma frames_addFrame_overwrite frame autoRefresh m :
  overwriteDups m = true ->
  let t := setTimeStamp (timeStamp frame - timeOffset m) frame in
  overwriteDups (addFrame frame autoRefresh m) = true /\
  frames (addFrame frame autoRefresh m) =
    match overwrite_scan t (frames m) with
    | Some (rows, _) => rows
    | None => frames m ++ [t]
    end.
Proof.
  intros Hd t. unfold addFrame. fold t.
  set (m1 := with_lastUpdateNumFrames (lastUpdateNumFrames m + 1) m).
  set (m2 := register_key (filter_key (frameId t)) m1).
  destruct (register_key_fields (filter_key (frameId t)) m1) as (Hf & Ho & _).
  fold m2 in Hf, Ho. simpl in Hf, Ho.
  rewrite Ho, Hd. cbn [negb]. rewrite Hf.
  destruct (overwrite_scan t (frames m)) as [[rows t']|].
  - simpl. now rewrite Ho.
  - destruct (append_fresh_fields (fun t0 => setTimedelta 0 (setFrameCount 1 t0)) t m2)
      as [-> ->].
    now rewrite Ho, Hf.
Qed.

(** *** Counting over the ingested sequence *)

Lemma occurrences_snoc p fs f :
  occurrences p (fs ++ [f]) =
  occurrences p fs + (if bool_decide (row_key f = p) then 1 else 0).
Proof. induction fs as [|g fs IH]; simpl; [lia | rewrite IH; lia]. Qed.

Lemma occurrences_absent p fs : p ∉ row_key <$> fs -> occurrences p fs = 0.
Proof.
  induction fs as [|g fs IH]; simpl; [reflexivity|].
  rewrite not_elem_of_cons. intros [Hne Hnin].
  rewrite bool_decide_eq_false_2 by congruence. rewrite IH by exact Hnin. reflexivity.
Qed.

Lemma first_count_snoc_present p fs f :
  p ∈ row_key <$> fs -> first_count p (fs ++ [f]) = first_count p fs.
Proof.
  induction fs as [|g fs IH]; simpl; [intros H; inversion H|].
  intros H. destruct (bool_decide (row_key g = p)) eqn:E; [reflexivity|].
  apply bool_decide_eq_false in E.
  apply elem_of_cons in H as [H | H]; [congruence | now apply IH].
Qed.

Lemma first_count_snoc_absent p fs f :
  p ∉ row_key <$> fs ->
  first_count p (fs ++ [f]) = if bool_decide (row_key f = p) then frameCount f else 0.
Proof.
  induction fs as [|g fs IH]; simpl; [reflexivity|].
  rewrite not_elem_of_cons. intros [Hne Hnin].
  rewrite bool_decide_eq_false_2 by congruence. now apply IH.
Qed.

(** A row of another identifier or bus keeps its count when [f] arrives. *)
Lemma count_other fs f row :
  row_key row ∈ row_key <$> fs -> row_key row <> row_key f ->
  first_count (row_key row) (fs ++ [f]) + occurrences (row_key row) (fs ++ [f]) =
  first_count (row_key row) fs + occurrences (row_key row) fs.
Proof.
  intros Hin Hne. rewrite first_count_snoc_present by exact Hin.
  rewrite occurrences_snoc. rewrite bool_decide_eq_false_2 by congruence. lia.
Qed.

(** One [addFrame] in overwrite mode keeps the state of the store in step
    with the ingested sequence. *)
Lemma dedup_step fs f autoRefresh m :
  dedup_inv fs m -> dedup_inv (fs ++ [f]) (addFrame f autoRefresh m).
Proof.
  intros (Hd & Hnd & Hkeys & Hcount).
  destruct (frames_addFrame_overwrite f autoRefresh m Hd) as [Hd' Hf'].
  set (t := setTimeStamp (timeStamp f - timeOffset m) f) in *.
  assert (Ht : row_key t = row_key f) by reflexivity.
  assert (Htc : frameCount t = frameCount f) by reflexivity.
  assert (Hsnoc : forall p, p ∈ row_key <$> (fs ++ [f]) <-> p ∈ row_key <$> fs \/ p = row_key f).
  { intros p. rewrite fmap_app, elem_of_app. simpl. rewrite list_elem_of_singleton. tauto. }
  unfold dedup_inv. rewrite Hf'. split; [exact Hd'|].
  destruct (overwrite_scan t (frames m)) as [[rows t']|] eqn:Hscan.
  - apply overwrite_scan_Some in Hscan
      as (pre & row & post & Hrows & -> & Hrk & Htk & Htc').
    rewrite Ht in Hrk, Htk.
    assert (Hkeys' : row_key <$> (pre ++ t' :: post) = row_key <$> frames m).
    { rewrite Hrows, !fmap_app, !fmap_cons. congruence. }
    assert (Hrow_in : row ∈ frames m).
    { rewrite Hrows. apply elem_of_app. right. apply list_elem_of_here. }
    assert (Hf_in : row_key f ∈ row_key <$> fs).
    { apply Hkeys. rewrite <- Hrk. apply list_elem_of_fmap. eauto. }
    rewrite Hkeys'. split; [exact Hnd|]. split.
    + intros p. rewrite Hsnoc, Hkeys. split; [tauto | intros [H | ->]; assumption].
    + intros r Hr.
      assert (Hcases : r = t' \/ (r ∈ frames m /\ row_key r <> row_key f)).
      { rewrite Hrows, fmap_app, fmap_cons in Hnd.
        apply NoDup_app in Hnd as (_ & Hpre & Hpost).
        apply NoDup_cons in Hpost as [Hpost _].
        apply elem_of_app in Hr as [Hr | Hr].
        - right. split; [rewrite Hrows; apply elem_of_app; now left|].
          intros E. apply (Hpre (row_key r)).
          + apply list_elem_of_fmap. eauto.
          + rewrite E, <- Hrk. apply list_elem_of_here.
        - apply elem_of_cons in Hr as [-> | Hr]; [now left|].
          right. split; [rewrite Hrows; apply elem_of_app; right; now apply list_elem_of_further|].
          intros E. apply Hpost. rewrite Hrk, <- E. apply list_elem_of_fmap. eauto. }
      destruct Hcases as [-> | [Hin Hne]].
      * rewrite Htc', (Hcount row Hrow_in), Htk, Hrk.
        rewrite first_count_snoc_present by exact Hf_in.
        rewrite occurrences_snoc. rewrite bool_decide_eq_true_2 by reflexivity. lia.
      * rewrite (Hcount r Hin).
        pose proof (count_other fs f r) as Hc.
        rewrite <- Hc; [lia | | exact Hne].
        apply Hkeys. apply list_elem_of_fmap. eauto.
  - apply overwrite_scan_None in Hscan. rewrite Ht in Hscan.
    assert (Hf_out : row_key f ∉ row_key <$> fs) by (intros H; now apply Hkeys in H).
    rewrite fmap_app. simpl. split; [| split].
    + apply NoDup_app. split; [exact Hnd|]. split.
      * intros p Hp Hp'. apply list_elem_of_singleton in Hp'. congruence.
      * apply NoDup_singleton.
    + intros p. rewrite Hsnoc, elem_of_app, list_elem_of_singleton, Hkeys. tauto.
    + intros r Hr. apply elem_of_app in Hr as [Hr | Hr].
      * assert (Hne : row_key r <> row_key f).
        { intros E. apply Hscan. rewrite <- E. apply list_elem_of_fmap. eauto. }
        rewrite (Hcount r Hr).
        pose proof (count_other fs f r) as Hc.
        rewrite <- Hc; [lia | | exact Hne].
        apply Hkeys. apply list_elem_of_fmap. eauto.
      * apply list_elem_of_singleton in Hr as ->. rewrite Ht, Htc.
        rewrite first_count_snoc_absent by exact Hf_out.
        rewrite occurrences_snoc, (occurrences_absent _ _ Hf_out).
        rewrite !bool_decide_eq_true_2 by reflexivity. lia.
Qed.

(** From an empty store in overwrite mode, any sequence of frames leaves
    one row for each identifier and bus seen; the row's count is the count
    that the first frame of that identifier and bus carried, plus the
    number of frames of that identifier and bus that followed it. *)
Lemma dedup_rows fs m :
  overwriteDups m = true -> frames m = [] -> dedup_inv fs (addFrames fs m).
Proof.
  intros Hd He. induction fs as [|f fs IH] using rev_ind.
  - unfold dedup_inv. simpl. rewrite He. simpl.
    split; [exact Hd|]. split; [apply NoDup_nil_2|]. split; [tauto|].
    intros row H. inversion H.
  - unfold addFrames in *. rewrite foldl_app. simpl. now apply dedup_step.
Qed.

(** With frames that arrive with a count of 1 the row's count is the number
    of frames of its identifier and bus. *)
Lemma dedup_rows_unit_counts fs m row :
  overwriteDups m = true -> frames m = [] ->
  Forall (fun f => frameCount f = 1) fs ->
  row ∈ frames (addFrames fs m) ->
  frameCount row = occurrences (row_key row) fs.
Proof.
  intros Hd He Hone Hrow.
  destruct (dedup_rows fs m Hd He) as (_ & _ & Hkeys & Hcount).
  rewrite (Hcount row Hrow).
  assert (Hin : row_key row ∈ row_key <$> fs).
  { apply Hkeys. apply list_elem_of_fmap. eauto. }
  assert (first_count (row_key row) fs = 1); [|lia].
  clear -Hone Hin. induction fs as [|f fs IH]; simpl; [inversion Hin|].
  apply Forall_cons in Hone as [Hf Hone].
  destruct (bool_decide (row_key f = row_key row)) eqn:E; [exact Hf|].
  apply bool_decide_eq_false in E.
  apply elem_of_cons in Hin as [Hin | Hin]; [congruence | now apply IH].
Qed.

(** C2, evaluated where it fails: a first frame that arrives with a
    [frameCount] of 5 makes a row of count 5 in the full store (and of
    count 1 in the filtered view); a second frame of the same identifier
    and bus raises the row to 6. *)
Theorem addFrame_keeps_carried_count :
  frameCount <$> frames (addFrames [counted_frame] dedup_init) = [5] /\
  frameCount <$> filteredFrames (addFrames [counted_frame] dedup_init) = [1] /\
  occurrences (row_key counted_frame) [counted_frame] = 1 /\
  frameCount <$> frames (addFrames [counted_frame; counted_frame] dedup_init) = [6] /\
  occurrences (row_key counted_frame) [counted_frame; counted_frame] = 2.
Proof. repeat split; vm_compute; reflexivity. Qed.

End DedupFacts.

(** ** The bits of a decoded signal *)

Module SignalBits.
Import Int IntFacts Utility UtilityFacts.

Lemma byte_unsigned_range c : 0 <= Z.of_N (Byte.to_N c) < 256.
Proof. pose proof (Byte.to_N_bounded c). lia. Qed.

(** The promotion of a [char] keeps its low eight bits. *)
Lemma char_to_int_testbit c m :
  0 <= m < 8 -> Z.testbit (char_to_int c) m = Z.testbit (Z.of_N (Byte.to_N c)) m.
Proof.
  intros Hm. unfold char_to_int.
  destruct (Z.ltb_spec (Z.of_N (Byte.to_N c)) 128); [reflexivity|].
  rewrite <- (Z.mod_pow2_bits_low (Z.of_N (Byte.to_N c) - 256) 8 m) by lia.
  rewrite <- (Z.mod_pow2_bits_low (Z.of_N (Byte.to_N c)) 8 m) by lia.
  f_equal. replace (Z.of_N (Byte.to_N c) - 256) with (Z.of_N (Byte.to_N c) + (-1) * 2 ^ 8) by lia.
  apply Z.mod_add. lia.
Qed.

Lemma land_pow2_test x m :
  0 <= m -> negb (Z.land x (2 ^ m) =? 0) = Z.testbit x m.
Proof.
  intros Hm. destruct (Z.testbit x m) eqn:E.
  - apply land_pow2_eq in E; [|lia]. rewrite E.
    assert (0 < 2 ^ m) by (apply Z.pow_pos_nonneg; lia).
    destruct (Z.eqb_spec (2 ^ m) 0); [lia | reflexivity].
  - assert (H0 : Z.land x (2 ^ m) = 0).
    { apply Z.bits_inj'. intros n Hn. rewrite Z.land_spec, Z.bits_0, Z.pow2_bits_eqb by lia.
      destruct (Z.eqb_spec m n) as [<- |]; [now rewrite E | apply andb_false_r]. }
    now rewrite H0.
Qed.

(** Inside the payload the test of the loop reads the payload bit. *)
Lemma bit_set_payload_bit data b :
  0 <= b -> b ÷ 8 < size data -> bit_set data b = Some (payload_bit data b).
Proof.
  intros Hb Hlt. unfold bit_set, payload_bit.
  rewrite Z.quot_div_nonneg, Z.rem_mod_nonneg in * by lia.
  pose proof (Z.mod_pos_bound b 8 ltac:(lia)) as Hm.
  assert (His : is_Some (byte_at data (b / 8))).
  { unfold byte_at, size in *. assert (0 <= b / 8) by (apply Z.div_pos; lia).
    rewrite decide_True by lia. apply lookup_lt_is_Some_2. lia. }
  destruct His as [c Hc]. rewrite Hc. simpl.
  rewrite shl1_int_Some by lia. simpl. f_equal.
  rewrite land_pow2_test by lia. apply char_to_int_testbit. lia.
Qed.

Lemma read_bit_value data dest s :
  0 <= bit s -> 0 <= dest < 64 -> (bit s < 64 -> bit s ÷ 8 < size data) ->
  read_bit data dest s =
  Continue (if (bit s <? 64) && payload_bit data (bit s)
            then add_i64_u64 (result s) (2 ^ dest) else result s).
Proof.
  intros Hb Hd Hin. unfold read_bit.
  destruct (Z.ltb_spec (bit s) 64) as [Hlt | Hge]; [|reflexivity].
  specialize (Hin Hlt).
  destruct (Z.geb_spec (bit s ÷ 8) (size data)); [lia|].
  rewrite bit_set_payload_bit by lia. simpl.
  destruct (payload_bit data (bit s)); [|reflexivity].
  now rewrite shl1_u64_Some by lia.
Qed.

Lemma acc_ok_add_eq sigSize le k r :
  0 <= k < sigSize -> sigSize <= 63 -> acc_ok sigSize le k r ->
  add_i64_u64 r (2 ^ dest_of sigSize le k) = r + 2 ^ dest_of sigSize le k /\
  Z.testbit r (dest_of sigSize le k) = false /\ 0 <= r.
Proof.
  intros Hk H63. destruct le; simpl.
  - intros Hr.
    assert (2 ^ (k + 1) <= 2 ^ 63) by (apply Z.pow_le_mono_r; lia).
    rewrite Z.pow_add_r in * by lia.
    split; [rewrite add_i64_u64_small; lia|]. split; [|lia].
    apply Z.testbit_false; [lia|]. rewrite Z.div_small by lia. reflexivity.
  - intros (q & Hq & ->).
    assert (Hp : 0 < 2 ^ (sigSize - k - 1)) by (apply Z.pow_pos_nonneg; lia).
    assert (Hsplit : 2 ^ (sigSize - k) = 2 * 2 ^ (sigSize - k - 1)).
    { rewrite <- Z.pow_succ_r by lia. f_equal. lia. }
    assert (Htop : 2 ^ (k + 1) * 2 ^ (sigSize - k - 1) <= 2 ^ 63).
    { rewrite <- Z.pow_add_r by lia. apply Z.pow_le_mono_r; lia. }
    assert (Hk1 : 2 ^ (k + 1) = 2 * 2 ^ k) by (rewrite Z.pow_add_r by lia; lia).
    split; [| split].
    + rewrite Hsplit. rewrite add_i64_u64_small; [reflexivity | nia | lia | nia].
    + apply Z.mul_pow2_bits_low. lia.
    + nia.
Qed.

(** Adding a power of two whose bit is clear sets that bit and no other. *)
Lemma testbit_add_pow2 r d b :
  0 <= r -> 0 <= d -> 0 <= b -> Z.testbit r d = false ->
  Z.testbit (r + 2 ^ d) b = Z.testbit r b || (d =? b).
Proof.
  intros Hr Hd Hb Hclear.
  assert (Hdis : Z.land r (2 ^ d) = 0).
  { apply Z.bits_inj'. intros n Hn. rewrite Z.land_spec, Z.bits_0, Z.pow2_bits_eqb by lia.
    destruct (Z.eqb_spec d n) as [<- |]; [now rewrite Hclear | apply andb_false_r]. }
  rewrite (Z.add_nocarry_lxor _ _ Hdis), (Z.lxor_lor _ _ Hdis).
  now rewrite Z.lor_spec, Z.pow2_bits_eqb by lia.
Qed.

Lemma dest_of_inj sigSize le j k : dest_of sigSize le j = dest_of sigSize le k -> j = k.
Proof. destruct le; simpl; lia. Qed.

Lemma position_succ le startBit k :
  position le startBit (S k) = next_bit le (position le startBit k).
Proof. reflexivity. Qed.

Lemma position_nonneg le startBit k : 0 <= startBit -> 0 <= position le startBit k.
Proof.
  intros H. induction k as [|k IH]; [exact H|].
  rewrite position_succ. now apply next_bit_nonneg.
Qed.

Lemma traversal_lookup le startBit n k :
  (k < n)%nat -> traversal le startBit n !! k = Some (position le startBit k).
Proof.
  revert startBit k. induction n as [|n IH]; intros startBit k Hk; [lia|].
  destruct k as [|k]; [reflexivity|]. simpl traversal. simpl lookup.
  replace (if le then startBit + 1 else be_next startBit) with (next_bit le startBit)
    by (destruct le; reflexivity).
  rewrite IH by lia. f_equal. clear. induction k as [|k IHk]; [reflexivity|].
  rewrite !position_succ. now rewrite IHk.
Qed.

Lemma position_little_endian startBit k :
  position true startBit k = startBit + Z.of_nat k.
Proof.
  induction k as [|k IH]; [simpl; lia|].
  rewrite position_succ, IH. simpl. lia.
Qed.

(** Invariant rule for a loop whose body never returns. *)
Lemma for_loop_run (P : Z -> state -> Prop) body n bitpos s :
  P bitpos s ->
  (forall k st, bitpos <= k < bitpos + Z.of_nat n -> P k st ->
     exists st', body k st = Continue st' /\ P (k + 1) st') ->
  exists s', for_loop body n bitpos s = Continue s' /\ P (bitpos + Z.of_nat n) s'.
Proof.
  revert bitpos s. induction n as [|n IH]; intros bitpos s HP Hbody.
  - exists s. simpl. rewrite Z.add_0_r. auto.
  - simpl for_loop.
    destruct (Hbody bitpos s ltac:(lia) HP) as (st' & -> & HP').
    destruct (IH (bitpos + 1) st' HP') as (s' & -> & HP'').
    + intros k st Hk. apply Hbody. lia.
    + exists s'. split; [reflexivity|].
      replace (bitpos + Z.of_nat (S n)) with (bitpos + 1 + Z.of_nat n) by lia. exact HP''.
Qed.

(** The loop on a layout whose walk stays inside the payload below position
    64: it runs to its end, and result bit [dest k] is what pass [k] read. *)
Lemma for_loop_bits data sigSize le startBit :
  0 <= startBit -> 0 <= sigSize <= 63 ->
  (forall k, Z.of_nat k < sigSize ->
     position le startBit k < 64 -> position le startBit k ÷ 8 < size data) ->
  exists s', for_loop (body_of data sigSize le) (Z.to_nat sigSize) 0 (St startBit 0)
               = Continue s' /\
    0 <= result s' < 2 ^ sigSize /\
    forall k, Z.of_nat k < sigSize ->
      Z.testbit (result s') (dest_of sigSize le (Z.of_nat k)) = bit_read data le startBit k.
Proof.
  intros Hs Hn Hin.
  destruct (for_loop_run
              (fun k st => bit st = position le startBit (Z.to_nat k) /\
                           acc_ok sigSize le k (result st) /\
                           forall j, Z.of_nat j < k ->
                             Z.testbit (result st) (dest_of sigSize le (Z.of_nat j))
                             = bit_read data le startBit j)
              (body_of data sigSize le) (Z.to_nat sigSize) 0 (St startBit 0))
    as (s' & H & Hpos & Hacc & Hbits).
  - simpl. split; [reflexivity|]. split; [|intros j Hj; lia].
    destruct le; simpl; [lia|]. exists 0. lia.
  - intros k st Hk (Hpos & Hacc & Hbits).
    assert (Hb : 0 <= bit st) by (rewrite Hpos; now apply position_nonneg).
    rewrite body_of_eq.
    rewrite (read_bit_value data (dest_of sigSize le k) st Hb).
    2:{ apply dest_of_range; lia. }
    2:{ rewrite Hpos. apply Hin. lia. }
    eexists. split; [reflexivity|]. cbn [bit result].
    split; [| split].
    + rewrite Hpos. replace (Z.to_nat (k + 1)) with (S (Z.to_nat k)) by lia.
      now rewrite position_succ.
    + destruct ((bit st <? 64) && payload_bit data (bit st)).
      * apply acc_ok_add; [lia | lia | exact Hacc].
      * apply acc_ok_keep; [lia | exact Hacc].
    + destruct (acc_ok_add_eq sigSize le k (result st) ltac:(lia) ltac:(lia) Hacc)
        as (Hadd & Hclear & Hr0).
      assert (Hd : 0 <= dest_of sigSize le k < 64) by (apply dest_of_range; lia).
      assert (Hread : (bit st <? 64) && payload_bit data (bit st)
                      = bit_read data le startBit (Z.to_nat k)).
      { unfold bit_read. now rewrite <- Hpos. }
      intros j Hj.
      assert (Hdj : 0 <= dest_of sigSize le (Z.of_nat j) < 64) by (apply dest_of_range; lia).
      destruct (Z.eq_dec (Z.of_nat j) k) as [E | Hne].
      * replace j with (Z.to_nat k) by lia. rewrite Z2Nat.id by lia. rewrite <- Hread.
        destruct ((bit st <? 64) && payload_bit data (bit st)).
        -- rewrite Hadd, testbit_add_pow2 by (lia || exact Hclear).
           rewrite Z.eqb_refl. apply orb_true_r.
        -- exact Hclear.
      * rewrite <- (Hbits j ltac:(lia)).
        destruct ((bit st <? 64) && payload_bit data (bit st)); [|reflexivity].
        rewrite Hadd, testbit_add_pow2 by (lia || exact Hclear).
        destruct (Z.eqb_spec (dest_of sigSize le k) (dest_of sigSize le (Z.of_nat j))) as [E|];
          [apply dest_of_inj in E; lia | apply orb_false_r].
  - exists s'. split; [exact H|]. split.
    + apply (acc_ok_final sigSize le); [lia|].
      replace (0 + Z.of_nat (Z.to_nat sigSize)) with sigSize in Hacc by lia. exact Hacc.
    + intros k Hk. apply Hbits. lia.
Qed.

Lemma length_traversal le startBit n : length (traversal le startBit n) = n.
Proof. revert startBit. induction n as [|n IH]; intros; simpl; [reflexivity | now rewrite IH]. Qed.

Lemma traversal_lookup_Some le startBit n k p :
  traversal le startBit n !! k = Some p -> (k < n)%nat /\ p = position le startBit k.
Proof.
  intros H. assert (Hk : (k < n)%nat).
  { apply lookup_lt_Some in H. now rewrite length_traversal in H. }
  split; [exact Hk|]. rewrite traversal_lookup in H by exact Hk. congruence.
Qed.





End SignalBits.

(** ** Time normalisation *)

Module TimingFacts.
Import CANFrameModel FilterFacts DedupFacts.

Lemma lowest_stamp_spec rows t0 :
  lowest_stamp rows t0 <= t0 /\
  (forall f, f ∈ rows -> lowest_stamp rows t0 <= timeStamp f) /\
  (lowest_stamp rows t0 = t0 \/ exists f, f ∈ rows /\ timeStamp f = lowest_stamp rows t0).
Proof.
  revert t0. induction rows as [|row rest IH]; intros t0; simpl.
  - split; [lia|]. split; [intros f H; inversion H | now left].
  - destruct (IH (if timeStamp row <? t0 then timeStamp row else t0)) as (Hle & Hall & Hex).
    destruct (Z.ltb_spec (timeStamp row) t0) as [Hlt | Hge].
    + split; [lia|]. split.
      * intros f Hf. apply elem_of_cons in Hf as [-> | Hf]; [exact Hle | now apply Hall].
      * right. destruct Hex as [E | (f & Hf & E)].
        -- exists row. split; [apply list_elem_of_here | now rewrite E].
        -- exists f. split; [now apply list_elem_of_further | exact E].
    + split; [exact Hle|]. split.
      * intros f Hf. apply elem_of_cons in Hf as [-> | Hf]; [lia | now apply Hall].
      * destruct Hex as [E | (f & Hf & E)]; [now left|].
        right. exists f. split; [now apply list_elem_of_further | exact E].
Qed.

(** The offset that [normalizeTiming] finds on a store that is not empty. *)
Lemma normalizeTiming_offset m :
  frames m <> [] ->
  let off := timeOffset (normalizeTiming m) in
  (exists f, f ∈ frames m /\ timeStamp f = off) /\
  (forall f, f ∈ frames m -> off <= timeStamp f) /\
  frames (normalizeTiming m) = (fun f => setTimeStamp (timeStamp f - off) f) <$> frames m /\
  filteredFrames (normalizeTiming m)
    = (fun f => setTimeStamp (timeStamp f - off) f) <$> filteredFrames m /\
  overwriteDups (normalizeTiming m) = overwriteDups m.
Proof.
  intros Hne. unfold normalizeTiming.
  destruct (frames m) as [|first rest] eqn:E; [congruence|]. cbn zeta.
  cbn [timeOffset with_filteredFrames with_frames with_timeOffset frames filteredFrames overwriteDups].
  destruct (lowest_stamp_spec (first :: rest) (timeStamp first)) as (Hle & Hall & Hex).
  split; [| split; [exact Hall | auto]].
  destruct Hex as [Heq | Hex]; [|exact Hex].
  exists first. split; [apply list_elem_of_here | now rewrite Heq].
Qed.

Lemma frames_addFrame_normal frame autoRefresh m :
  overwriteDups m = false ->
  frames (addFrame frame autoRefresh m)
    = frames m ++ [setTimeStamp (timeStamp frame - timeOffset m) frame].
Proof.
  intros Hd. unfold addFrame.
  set (t := setTimeStamp (timeStamp frame - timeOffset m) frame).
  set (m1 := with_lastUpdateNumFrames (lastUpdateNumFrames m + 1) m).
  set (m2 := register_key (filter_key (frameId t)) m1).
  destruct (register_key_fields (filter_key (frameId t)) m1) as (Hf & Ho & _).
  fold m2 in Hf, Ho. simpl in Hf, Ho.
  rewrite Ho, Hd. cbn [negb].
  destruct (append_fresh_fields (setFrameCount 1) t m2) as [-> _].
  now rewrite Hf.
Qed.

Lemma setTimeStamp_same f : setTimeStamp (timeStamp f - 0) f = f.
Proof. destruct f. unfold setTimeStamp. simpl. now rewrite Z.sub_0_r. Qed.

(** The rows after [normalizeTiming]: none before 0, one at 0. *)
Lemma normalizeTiming_rows m :
  frames m <> [] ->
  (forall f', f' ∈ frames (normalizeTiming m) -> 0 <= timeStamp f') /\
  (exists f', f' ∈ frames (normalizeTiming m) /\ timeStamp f' = 0).
Proof.
  intros Hne.
  destruct (normalizeTiming_offset m Hne) as (Hex & Hall & Hf & _ & _).
  rewrite Hf. split.
  - intros f' Hf'. apply list_elem_of_fmap in Hf' as (f & -> & Hin).
    simpl. specialize (Hall f Hin). lia.
  - destruct Hex as (f & Hin & E). eexists. split.
    + apply list_elem_of_fmap. exists f. split; [reflexivity | exact Hin].
    + simpl. lia.
Qed.

(** X3: on a store that is not empty, [normalizeTiming] takes the lowest
    time stamp of the full store as the offset and subtracts it from every
    row of the store and of the view, changing nothing else in a row:
    afterwards no row of the store has a negative time stamp and some row
    has time stamp 0. *)
Theorem normalizeTiming_zero_based m :
  frames m <> [] ->
  Forall (fun f => 0 <= timeStamp f < 2 ^ 63) (frames m ++ filteredFrames m) ->
  exists off,
    timeOffset (normalizeTiming m) = off /\
    (exists f, f ∈ frames m /\ timeStamp f = off) /\
    (forall f, f ∈ frames m -> off <= timeStamp f) /\
    frames (normalizeTiming m) = (fun f => setTimeStamp (timeStamp f - off) f) <$> frames m /\
    filteredFrames (normalizeTiming m)
      = (fun f => setTimeStamp (timeStamp f - off) f) <$> filteredFrames m /\
    (forall f', f' ∈ frames (normalizeTiming m) -> 0 <= timeStamp f') /\
    (exists f', f' ∈ frames (normalizeTiming m) /\ timeStamp f' = 0).
Proof.
  intros Hne _.
  destruct (normalizeTiming_offset m Hne) as (Hex & Hall & Hf & Hv & _).
  destruct (normalizeTiming_rows m Hne) as (Hpos & Hzero).
  exists (timeOffset (normalizeTiming m)).
  split; [reflexivity|]. split; [exact Hex|]. split; [exact Hall|].
  split; [exact Hf|]. split; [exact Hv|]. split; [exact Hpos | exact Hzero].
Qed.

Lemma normalizeTiming_zero_based_witness :
  timeStamp <$> frames (normalizeTiming two_stamp_model) = [200; 0] /\
  timeOffset (normalizeTiming two_stamp_model) = 500.
Proof.
  destruct (normalizeTiming_zero_based two_stamp_model) as (off & Hoff & _ & _ & Hf & _).
  - discriminate.
  - cbn [frames filteredFrames two_stamp_model app].
    repeat (apply Forall_cons; split; [cbn [timeStamp]; lia|]). apply Forall_nil_2.
  - split; [rewrite Hf, <- Hoff; reflexivity | reflexivity].
Defined.



(** X5: a second [normalizeTiming] leaves the rows of the store and of the
    view as the first call left them, but replaces the offset by 0: a frame
    ingested after it is stored with the time stamp it was received with,
    no longer shifted like the rows before it. *)
Theorem normalizeTiming_twice m g autoRefresh :
  frames m <> [] -> overwriteDups m = false ->
  Forall (fun f => 0 <= timeStamp f < 2 ^ 63) (g :: frames m ++ filteredFrames m) ->
  let m2 := normalizeTiming (normalizeTiming m) in
  frames m2 = frames (normalizeTiming m) /\
  filteredFrames m2 = filteredFrames (normalizeTiming m) /\
  timeOffset m2 = 0 /\
  frames (addFrame g autoRefresh m2) = frames (normalizeTiming m) ++ [setTimeStamp (timeStamp g) g].
Proof.
  intros Hne Hd _ m2.
  destruct (normalizeTiming_rows m Hne) as (Hpos & (z & Hz & Hz0)).
  assert (Hne' : frames (normalizeTiming m) <> []).
  { intros E. rewrite E in Hz. inversion Hz. }
  destruct (normalizeTiming_offset (normalizeTiming m) Hne') as (Hex & Hall & Hf2 & Hv2 & Ho2).
  fold m2 in Hex, Hall, Hf2, Hv2, Ho2.
  assert (H0 : timeOffset m2 = 0).
  { destruct Hex as (f & Hin & E). specialize (Hpos f Hin). specialize (Hall z Hz). lia. }
  rewrite H0 in Hf2, Hv2.
  assert (Hid : forall l : list CANFrame,
             (fun f => setTimeStamp (timeStamp f - 0) f) <$> l = l).
  { intros l. induction l as [|x l IH]; [reflexivity|].
    rewrite fmap_cons, IH, setTimeStamp_same. reflexivity. }
  rewrite Hid in Hf2, Hv2.
  split; [exact Hf2|]. split; [exact Hv2|]. split; [exact H0|].
  rewrite frames_addFrame_normal.
  - rewrite Hf2, H0, Z.sub_0_r. reflexivity.
  - rewrite Ho2. destruct (normalizeTiming_offset m Hne) as (_ & _ & _ & _ & Ho). now rewrite Ho.
Qed.

Lemma normalizeTiming_twice_witness :
  timeOffset (normalizeTiming (normalizeTiming two_stamp_model)) = 0 /\
  timeStamp <$> frames (addFrame (Frame 3 0 false false true 900 [] 0 1) false
                          (normalizeTiming (normalizeTiming two_stamp_model)))
    = [200; 0; 900].
Proof.
  destruct (normalizeTiming_twice two_stamp_model
              (Frame 3 0 false false true 900 [] 0 1) false) as (_ & _ & H0 & Hfr).
  - discriminate.
  - reflexivity.
  - cbn [frames filteredFrames two_stamp_model app].
    repeat (apply Forall_cons; split; [cbn [timeStamp]; lia|]). apply Forall_nil_2.
  - split; [exact H0 | rewrite Hfr; reflexivity].
Defined.

End TimingFacts.

(** ** The view and the store *)

Module ViewFacts.
Import CANFrameModel FilterFacts DedupFacts TimingFacts.

Lemma passes_lookup f m k :
  filters (passes f m).2 !! k =
  match filters m !! k with
  | Some v => Some v
  | None => if decide (k = filter_key (frameId f)) then Some false else None
  end.
Proof.
  unfold passes, index_filters.
  destruct (filters m !! filter_key (frameId f)) eqn:Hk; simpl.
  - destruct (filters m !! k) eqn:Hk'; [reflexivity|].
    destruct (decide (k = filter_key (frameId f))) as [-> |]; [congruence | reflexivity].
  - destruct (decide (k = filter_key (frameId f))) as [-> | Hne].
    + now rewrite lookup_insert_eq, Hk.
    + rewrite lookup_insert_ne by congruence. now destruct (filters m !! k).
Qed.

Lemma refresh_scan_lookup rows acc m k :
  filters (refresh_scan rows acc m).2 !! k =
  match filters m !! k with
  | Some v => Some v
  | None => if decide (k ∈ (fun f => filter_key (frameId f)) <$> rows)
            then Some false else None
  end.
Proof.
  revert acc m. induction rows as [|row rest IH]; intros acc m; cbn [refresh_scan].
  - cbn [snd]. destruct (filters m !! k); [reflexivity|].
    rewrite decide_False; [reflexivity | apply not_elem_of_nil].
  - pose proof (passes_lookup row m k) as Hp.
    destruct (passes row m) as [ok m']. simpl in Hp.
    rewrite IH, Hp, fmap_cons.
    destruct (filters m !! k); [reflexivity|].
    destruct (decide (k = filter_key (frameId row))) as [-> | Hne].
    + rewrite decide_True; [reflexivity | apply list_elem_of_here].
    + destruct (decide (k ∈ _ <$> rest)) as [Hin | Hnin].
      * rewrite decide_True; [reflexivity | now apply list_elem_of_further].
      * rewrite decide_False; [reflexivity|].
        intros H. apply elem_of_cons in H as [H | H]; contradiction.
Qed.

(** The filter table after the wholesale refresh. *)
Lemma sendRefresh_lookup m k :
  filters (sendRefresh m) !! k =
  match filters m !! k with
  | Some v => Some v
  | None => if decide (k ∈ (fun f => filter_key (frameId f)) <$> frames m)
            then Some false else None
  end.
Proof.
  unfold sendRefresh.
  pose proof (refresh_scan_lookup (frames m) [] m k) as Hl.
  destruct (refresh_scan (frames m) [] m) as [out m']. exact Hl.
Qed.

Lemma lastUpdateNumFrames_sendRefresh m : lastUpdateNumFrames (sendRefresh m) = 0.
Proof.
  unfold sendRefresh. destruct (refresh_scan (frames m) [] m) as [out m']. reflexivity.
Qed.

(** X6: the wholesale refresh leaves the full store alone, fills the view
    with exactly the stored frames, in store order, whose key is enabled
    and whose protocol class passes, and, because it reads the table with
    [operator[]], registers the key of every stored frame that the table
    lacks as disabled; no other entry of the table changes. *)
Theorem sendRefresh_effect m :
  frames (sendRefresh m) = frames m /\
  filteredFrames (sendRefresh m) = List.filter (shouldInclude m) (frames m) /\
  lastUpdateNumFrames (sendRefresh m) = 0 /\
  forall k,
    filters (sendRefresh m) !! k =
    match filters m !! k with
    | Some v => Some v
    | None => if decide (k ∈ (fun f => filter_key (frameId f)) <$> frames m)
              then Some false else None
    end.
Proof.
  destruct (sendRefresh_spec m) as (Hf & Hv & _).
  split; [exact Hf|]. split; [exact Hv|].
  split; [apply lastUpdateNumFrames_sendRefresh | apply sendRefresh_lookup].
Qed.

(** When the table holds the key of every row, the scan leaves the state
    as it is. *)
Lemma refresh_scan_registered rows acc m :
  (forall f, f ∈ rows -> is_Some (filters m !! filter_key (frameId f))) ->
  refresh_scan rows acc m = (acc ++ List.filter (shouldInclude m) rows, m).
Proof.
  revert acc. induction rows as [|row rest IH]; intros acc Hreg; cbn [refresh_scan].
  - simpl. now rewrite app_nil_r.
  - destruct (Hreg row (list_elem_of_here _ _)) as [v Hv].
    rewrite (passes_present row m v Hv), with_filters_same.
    rewrite IH by (intros f Hf; apply Hreg; now apply list_elem_of_further).
    assert (Hinc : shouldInclude m row = v && filterFrameConsideringFunction (frameId row) m)
      by (unfold shouldInclude; now rewrite Hv).
    cbn [List.filter]. rewrite Hinc.
    destruct (v && filterFrameConsideringFunction (frameId row) m);
      [now rewrite <- app_assoc | reflexivity].
Qed.

Lemma sendRefresh_registered m :
  forall f, f ∈ frames (sendRefresh m) ->
    is_Some (filters (sendRefresh m) !! filter_key (frameId f)).
Proof.
  destruct (sendRefresh_spec m) as (Hf & _ & _). rewrite Hf.
  intros f Hin. rewrite sendRefresh_lookup.
  destruct (filters m !! filter_key (frameId f)); [eauto|].
  rewrite decide_True; [eauto|]. apply list_elem_of_fmap. eauto.
Qed.

Lemma shouldInclude_sendRefresh m f :
  shouldInclude (sendRefresh m) f = shouldInclude m f.
Proof.
  unfold sendRefresh.
  destruct (refresh_scan_spec (frames m) [] m) as [_ Ha].
  destruct (refresh_scan (frames m) [] m) as [out m']. simpl in Ha.
  rewrite <- (shouldInclude_agree m m' f Ha).
  unfold shouldInclude. reflexivity.
Qed.

(** X7: the wholesale refresh is idempotent: a second refresh right after
    the first changes nothing at all in the state, and the refreshed view
    is in step with the store. *)
Theorem sendRefresh_idempotent m :
  sendRefresh (sendRefresh m) = sendRefresh m /\ view_in_step (sendRefresh m).
Proof.
  assert (Hstep : view_in_step (sendRefresh m)).
  { split; [apply sendRefresh_registered|].
    destruct (sendRefresh_spec m) as (Hf & Hv & _). rewrite Hv, Hf.
    apply List.filter_ext. intros f. symmetry. apply shouldInclude_sendRefresh. }
  split; [|exact Hstep].
  destruct Hstep as [Hreg Hview].
  pose proof (lastUpdateNumFrames_sendRefresh m) as Hlast.
  unfold sendRefresh at 1.
  rewrite (refresh_scan_registered _ [] _ Hreg). cbn [app].
  rewrite <- Hview.
  destruct (sendRefresh m). simpl in Hlast. subst. reflexivity.
Qed.

(** *** Ingestion and the view *)

Lemma append_fresh_present reset t m v :
  filters m !! filter_key (frameId t) = Some v ->
  append_fresh reset t m =
  if v && filterFrameConsideringFunction (frameId t) m
  then with_filteredFrames (filteredFrames m ++ [reset t]) (with_frames (frames m ++ [t]) m)
  else with_frames (frames m ++ [t]) m.
Proof.
  intros Hv. unfold append_fresh.
  rewrite (passes_present t (with_frames (frames m ++ [t]) m) v Hv).
  rewrite with_filters_same. reflexivity.
Qed.

Lemma shouldInclude_eq m m' f :
  filters m' !! filter_key (frameId f) = filters m !! filter_key (frameId f) ->
  filterFrameConsideringFunction (frameId f) m' = filterFrameConsideringFunction (frameId f) m ->
  shouldInclude m' f = shouldInclude m f.
Proof. intros H1 H2. unfold shouldInclude. now rewrite H1, H2. Qed.

Lemma filter_snoc (P : CANFrame -> bool) l x :
  List.filter P (l ++ [x]) = List.filter P l ++ (if P x then [x] else []).
Proof. rewrite List.filter_app. reflexivity. Qed.

(** One pass of the loop of [insertFrames] keeps the view in step. *)
Lemma insert_one_step m f :
  view_in_step m ->
  view_in_step (insert_one m f) /\ frames (insert_one m f) = frames m ++ [f].
Proof.
  intros [Hreg Hview]. unfold insert_one.
  set (m1 := with_frames (frames m ++ [f]) m).
  set (kf := filter_key (frameId f)).
  set (m2 := match filters m1 !! kf with
             | Some _ => m1
             | None => with_needFilterRefresh true (with_filters (<[kf := true]> (filters m1)) m1)
             end).
  assert (Hm2 : frames m2 = frames m ++ [f] /\ filteredFrames m2 = filteredFrames m /\
                is_Some (filters m2 !! kf) /\
                (forall g, g ∈ frames m -> shouldInclude m2 g = shouldInclude m g) /\
                (forall g, g ∈ frames m -> is_Some (filters m2 !! filter_key (frameId g)))).
  { subst m2. change (filters m1) with (filters m).
    destruct (filters m !! kf) eqn:Hkf.
    - split; [reflexivity|]. split; [reflexivity|]. split; [|split].
      + change (filters m1) with (filters m). rewrite Hkf. eauto.
      + intros g Hg. reflexivity.
      + intros g Hg. exact (Hreg g Hg).
    - split; [reflexivity|]. split; [reflexivity|]. split; [|split].
      + cbn [filters with_needFilterRefresh with_filters]. rewrite lookup_insert_eq. eauto.
      + intros g Hg. apply shouldInclude_eq; [|reflexivity].
        cbn [filters with_needFilterRefresh with_filters].
        apply lookup_insert_ne. intros E. destruct (Hreg g Hg) as [v Hv].
        rewrite <- E in Hv. congruence.
      + intros g Hg. cbn [filters with_needFilterRefresh with_filters].
        destruct (Hreg g Hg) as [v Hv].
        destruct (decide (kf = filter_key (frameId g))) as [E | Hne];
          [rewrite <- E in Hv; congruence|].
        rewrite lookup_insert_ne by exact Hne. eauto. }
  destruct Hm2 as (Hf2 & Hv2 & [v Hk2] & Hsame & Hreg2).
  rewrite (passes_present f m2 v Hk2), with_filters_same.
  assert (Hinc : shouldInclude m2 f = v && filterFrameConsideringFunction (frameId f) m2).
  { unfold shouldInclude. fold kf. now rewrite Hk2. }
  rewrite <- Hinc.
  assert (Hfilter : List.filter (shouldInclude m2) (frames m) = filteredFrames m).
  { rewrite Hview. apply List.filter_ext_in. intros g Hg. apply Hsame.
    now apply list_elem_of_In. }
  assert (Hregall : forall g, g ∈ frames m ++ [f] ->
                      is_Some (filters m2 !! filter_key (frameId g))).
  { intros g Hg. apply elem_of_app in Hg as [Hg | Hg]; [now apply Hreg2|].
    apply list_elem_of_singleton in Hg as ->. eauto. }
  destruct (shouldInclude m2 f) eqn:Hok.
  - split; [|exact Hf2]. split; cbn [frames filters filteredFrames with_filteredFrames].
    + rewrite Hf2. exact Hregall.
    + change (shouldInclude (with_filteredFrames (filteredFrames m2 ++ [f]) m2))
        with (shouldInclude m2).
      rewrite Hf2, filter_snoc, Hfilter, Hok, Hv2. reflexivity.
  - split; [|exact Hf2]. split.
    + rewrite Hf2. exact Hregall.
    + rewrite Hf2, filter_snoc, Hfilter, Hok, app_nil_r. exact Hv2.
Qed.

Lemma insert_loop_step fs m :
  view_in_step m ->
  view_in_step (foldl insert_one m fs) /\ frames (foldl insert_one m fs) = frames m ++ fs.
Proof.
  revert m. induction fs as [|f fs IH]; intros m Hstep; cbn [foldl].
  - now rewrite app_nil_r.
  - destruct (insert_one_step m f Hstep) as [Hstep' Hf].
    destruct (IH _ Hstep') as [Hstep'' Hf'].
    split; [exact Hstep''|]. rewrite Hf', Hf, <- app_assoc. reflexivity.
Qed.

(** X8: [insertFrames] appends the whole batch to the full store and keeps
    the view in step with it: if, before the call, the table held the key
    of every stored frame and the view was the store as the filters let it
    pass, the same holds after the call, and a wholesale refresh would not
    change the view. *)
Theorem insertFrames_keeps_view_in_step newFrames m :
  view_in_step m ->
  frames (insertFrames newFrames m) = frames m ++ newFrames /\
  view_in_step (insertFrames newFrames m) /\
  filteredFrames (sendRefresh (insertFrames newFrames m))
    = filteredFrames (insertFrames newFrames m).
Proof.
  intros Hstep. destruct (insert_loop_step newFrames m Hstep) as [[Hreg Hview] Hf].
  assert (Hstep' : view_in_step (insertFrames newFrames m)).
  { unfold insertFrames. split; [exact Hreg | exact Hview]. }
  split; [exact Hf|]. split; [exact Hstep'|].
  destruct (sendRefresh_spec (insertFrames newFrames m)) as (_ & -> & _).
  symmetry. apply Hstep'.
Qed.

Lemma insertFrames_keeps_view_in_step_witness :
  view_in_step (insertFrames [frame_with_id 0x185; frame_with_id 0x203] one_row_model).
Proof.
  apply (insertFrames_keeps_view_in_step [frame_with_id 0x185; frame_with_id 0x203]
           one_row_model).
  split.
  - intros f Hf. vm_compute in Hf. apply list_elem_of_singleton in Hf as ->.
    vm_compute. eauto.
  - reflexivity.
Defined.

Lemma register_key_other k m k' :
  k' <> k -> filters (register_key k m) !! k' = filters m !! k'.
Proof.
  intros Hne. unfold register_key. destruct (filters m !! k); [reflexivity|].
  simpl. apply lookup_insert_ne. congruence.
Qed.

(** The state after [addFrame] outside overwrite mode. *)
Lemma addFrame_normal frame autoRefresh m :
  overwriteDups m = false ->
  let t := setTimeStamp (timeStamp frame - timeOffset m) frame in
  let m2 := register_key (filter_key (frameId frame))
              (with_lastUpdateNumFrames (lastUpdateNumFrames m + 1) m) in
  addFrame frame autoRefresh m =
  if shouldInclude m2 t
  then with_filteredFrames (filteredFrames m2 ++ [setFrameCount 1 t])
         (with_frames (frames m2 ++ [t]) m2)
  else with_frames (frames m2 ++ [t]) m2.
Proof.
  intros Hd t m2. unfold addFrame. fold t. change (frameId t) with (frameId frame). fold m2.
  destruct (register_key_fields (filter_key (frameId frame))
              (with_lastUpdateNumFrames (lastUpdateNumFrames m + 1) m)) as (_ & Ho & _).
  fold m2 in Ho. simpl in Ho. rewrite Ho, Hd. cbn [negb].
  assert (Hk : is_Some (filters m2 !! filter_key (frameId t))).
  { subst m2. change (frameId t) with (frameId frame). rewrite register_key_lookup.
    destruct (filters _ !! _); eauto. }
  destruct Hk as [v Hv]. rewrite (append_fresh_present _ t m2 v Hv).
  unfold shouldInclude. now rewrite Hv.
Qed.

Lemma register_key_counter k m :
  lastUpdateNumFrames (register_key k m) = lastUpdateNumFrames m /\
  filteredFrames (register_key k m) = filteredFrames m.
Proof. unfold register_key. destruct (filters m !! k); split; reflexivity. Qed.

(** X9: outside overwrite mode [addFrame] never rejects a frame: the frame,
    with the offset taken off its time stamp, is appended to the full
    store, the counter of the bulk refresh goes up by one, and a copy with
    [frameCount] 1 is appended to the view exactly when the frame's key, as
    the table holds it after the registration, is enabled and its protocol
    class passes; no entry of the table other than the frame's key can
    change. *)
Theorem addFrame_appends frame autoRefresh m :
  overwriteDups m = false ->
  let t := setTimeStamp (timeStamp frame - timeOffset m) frame in
  let m' := addFrame frame autoRefresh m in
  frames m' = frames m ++ [t] /\
  filteredFrames m' =
    filteredFrames m ++ (if shouldInclude m' t then [setFrameCount 1 t] else []) /\
  lastUpdateNumFrames m' = lastUpdateNumFrames m + 1 /\
  (forall k, k <> filter_key (frameId frame) -> filters m' !! k = filters m !! k).
Proof.
  intros Hd t m'. subst m'.
  pose proof (addFrame_normal frame autoRefresh m Hd) as E. cbn zeta in E. fold t in E.
  set (m2 := register_key (filter_key (frameId frame))
               (with_lastUpdateNumFrames (lastUpdateNumFrames m + 1) m)) in *.
  destruct (register_key_fields (filter_key (frameId frame))
              (with_lastUpdateNumFrames (lastUpdateNumFrames m + 1) m)) as (Hf & _ & _).
  destruct (register_key_counter (filter_key (frameId frame))
              (with_lastUpdateNumFrames (lastUpdateNumFrames m + 1) m)) as (Hc & Hv).
  fold m2 in Hf, Hc, Hv. simpl in Hf, Hc, Hv.
  assert (Hother : forall k, k <> filter_key (frameId frame) ->
                     filters m2 !! k = filters m !! k).
  { intros k Hk. subst m2. now rewrite register_key_other. }
  rewrite E. destruct (shouldInclude m2 t) eqn:Hok.
  - cbn [frames filteredFrames lastUpdateNumFrames filters with_filteredFrames with_frames].
    rewrite Hf, Hv, Hc.
    assert (Hok' : shouldInclude
                     (with_filteredFrames (filteredFrames m ++ [setFrameCount 1 t])
                        (with_frames (frames m ++ [t]) m2)) t = true) by exact Hok.
    rewrite Hok'. auto.
  - cbn [frames filteredFrames lastUpdateNumFrames filters with_frames].
    rewrite Hf, Hv, Hc.
    assert (Hok' : shouldInclude (with_frames (frames m ++ [t]) m2) t = false) by exact Hok.
    rewrite Hok', app_nil_r. auto.
Qed.

Lemma addFrame_appends_witness :
  frameId <$> frames (addFrame (frame_with_id 0x185) false one_row_model) = [5; 0x185] /\
  frameId <$> filteredFrames (addFrame (frame_with_id 0x185) false one_row_model) = [5; 0x185].
Proof.
  destruct (addFrame_appends (frame_with_id 0x185) false one_row_model) as (Hf & Hv & _).
  - reflexivity.
  - split; [rewrite Hf; reflexivity | rewrite Hv; reflexivity].
Defined.

(** X10: in overwrite mode, from an empty store, any sequence of frames
    leaves exactly one row for each identifier and bus that occurs in the
    sequence; the [frameCount] of the row is the [frameCount] that the
    first frame of that identifier and bus carried, plus the number of
    frames of that identifier and bus that followed it. *)
Theorem overwrite_mode_rows fs m :
  overwriteDups m = true -> frames m = [] ->
  NoDup (row_key <$> frames (addFrames fs m)) /\
  (forall p, p ∈ row_key <$> frames (addFrames fs m) <-> p ∈ row_key <$> fs) /\
  (forall row, row ∈ frames (addFrames fs m) ->
     frameCount row = first_count (row_key row) fs + occurrences (row_key row) fs - 1).
Proof. intros Hd He. destruct (dedup_rows fs m Hd He) as (_ & H). exact H. Qed.

Lemma overwrite_mode_rows_witness :
  NoDup (row_key <$> frames (addFrames [counted_frame; frame_with_id 7; counted_frame] dedup_init)).
Proof.
  destruct (overwrite_mode_rows [counted_frame; frame_with_id 7; counted_frame] dedup_init)
    as (H & _); [reflexivity | reflexivity | exact H].
Defined.

End ViewFacts.

(** ** The counter of the bulk refresh, and clearing *)

Module BulkFacts.
Import CANFrameModel FilterFacts DedupFacts ViewFacts.

Lemma append_fresh_counter reset t m :
  lastUpdateNumFrames (append_fresh reset t m) = lastUpdateNumFrames m.
Proof.
  unfold append_fresh.
  destruct (passes_spec t (with_frames (frames m ++ [t]) m)) as [_ [E _]].
  destruct (passes t (with_frames (frames m ++ [t]) m)) as [ok m2]. simpl in E.
  destruct ok; rewrite E; reflexivity.
Qed.

Lemma lastUpdateNumFrames_addFrame frame autoRefresh m :
  lastUpdateNumFrames (addFrame frame autoRefresh m) = lastUpdateNumFrames m + 1.
Proof.
  unfold addFrame.
  set (t := setTimeStamp (timeStamp frame - timeOffset m) frame).
  set (m1 := with_lastUpdateNumFrames (lastUpdateNumFrames m + 1) m).
  set (m2 := register_key (filter_key (frameId t)) m1).
  destruct (register_key_counter (filter_key (frameId t)) m1) as [Hc _].
  fold m2 in Hc. simpl in Hc.
  destruct (negb (overwriteDups m2)).
  - now rewrite append_fresh_counter.
  - destruct (overwrite_scan t (frames m2)) as [[rows t']|].
    + exact Hc.
    + now rewrite append_fresh_counter.
Qed.

Lemma lastUpdateNumFrames_addFrames fs m :
  lastUpdateNumFrames (addFrames fs m) = lastUpdateNumFrames m + Z.of_nat (length fs).
Proof.
  unfold addFrames. revert m. induction fs as [|f fs IH]; intros m; cbn [foldl length].
  - lia.
  - rewrite IH, lastUpdateNumFrames_addFrame. lia.
Qed.

(** X11: [insertFrames] sets the counter of the bulk refresh to the size of
    its batch, whatever the counter held: with a view that is not empty,
    [sendBulkRefresh] then reports the size of that batch alone and resets
    the counter, and reports 0 when called again. *)
Theorem sendBulkRefresh_after_insertFrames newFrames m :
  newFrames <> [] -> filteredFrames (insertFrames newFrames m) <> [] ->
  (sendBulkRefresh (insertFrames newFrames m)).1 = Z.of_nat (length newFrames) /\
  lastUpdateNumFrames (sendBulkRefresh (insertFrames newFrames m)).2 = 0 /\
  frames (sendBulkRefresh (insertFrames newFrames m)).2 = frames (insertFrames newFrames m) /\
  (sendBulkRefresh (sendBulkRefresh (insertFrames newFrames m)).2).1 = 0.
Proof.
  intros Hne Hview. unfold sendBulkRefresh at 1 2 3 5.
  assert (Hc : lastUpdateNumFrames (insertFrames newFrames m) = Z.of_nat (length newFrames))
    by reflexivity.
  rewrite Hc.
  assert (0 < Z.of_nat (length newFrames)) by (destruct newFrames; [congruence | simpl; lia]).
  destruct (Z.leb_spec (Z.of_nat (length newFrames)) 0); [lia|].
  destruct (Z.eqb_spec (Z.of_nat (length newFrames)) 0); [lia|]. cbn [andb].
  destruct (Z.eqb_spec (Z.of_nat (length (filteredFrames (insertFrames newFrames m)))) 0)
    as [E | _].
  { destruct (filteredFrames (insertFrames newFrames m)); [congruence | simpl in E; lia]. }
  cbn [fst snd]. repeat split.
Qed.

Lemma sendBulkRefresh_after_insertFrames_witness :
  (sendBulkRefresh (insertFrames [frame_with_id 0x185; frame_with_id 0x186]
                      (addFrame (frame_with_id 5) false one_row_model))).1 = 2.
Proof.
  destruct (sendBulkRefresh_after_insertFrames [frame_with_id 0x185; frame_with_id 0x186]
              (addFrame (frame_with_id 5) false one_row_model)) as (H & _).
  - discriminate.
  - vm_compute. discriminate.
  - exact H.
Defined.

(** X12: every [addFrame] raises the counter of the bulk refresh by one, in
    either mode: after a batch through [addFrames], [sendBulkRefresh]
    reports the frames added since the counter was last reset, provided the
    view is not empty; with an empty view it reports 0 and leaves the
    counter as it is. *)
Theorem sendBulkRefresh_after_addFrames fs m :
  0 <= lastUpdateNumFrames m -> fs <> [] ->
  lastUpdateNumFrames (addFrames fs m) = lastUpdateNumFrames m + Z.of_nat (length fs) /\
  (filteredFrames (addFrames fs m) <> [] ->
   (sendBulkRefresh (addFrames fs m)).1 = lastUpdateNumFrames m + Z.of_nat (length fs) /\
   lastUpdateNumFrames (sendBulkRefresh (addFrames fs m)).2 = 0) /\
  (filteredFrames (addFrames fs m) = [] ->
   sendBulkRefresh (addFrames fs m) = (0, addFrames fs m)).
Proof.
  intros H0 Hne.
  pose proof (lastUpdateNumFrames_addFrames fs m) as Hc.
  assert (0 < Z.of_nat (length fs)) by (destruct fs; [congruence | simpl; lia]).
  split; [exact Hc|]. unfold sendBulkRefresh. rewrite Hc.
  destruct (Z.leb_spec (lastUpdateNumFrames m + Z.of_nat (length fs)) 0); [lia|].
  destruct (Z.eqb_spec (lastUpdateNumFrames m + Z.of_nat (length fs)) 0); [lia|]. cbn [andb].
  split.
  - intros Hview.
    destruct (Z.eqb_spec (Z.of_nat (length (filteredFrames (addFrames fs m)))) 0) as [E | _].
    { destruct (filteredFrames (addFrames fs m)); [congruence | simpl in E; lia]. }
    split; reflexivity.
  - intros ->. reflexivity.
Qed.

Lemma sendBulkRefresh_after_addFrames_witness :
  (sendBulkRefresh (addFrames [frame_with_id 5; frame_with_id 5; frame_with_id 5] init)).1 = 3.
Proof.
  destruct (sendBulkRefresh_after_addFrames [frame_with_id 5; frame_with_id 5; frame_with_id 5] init)
    as (_ & H & _).
  - simpl. lia.
  - discriminate.
  - destruct H as [H _]; [vm_compute; discriminate | exact H].
Defined.

(** X13: [clearFrames] empties the full store and the view and resets the
    counter of the bulk refresh but keeps the filter table: a frame that is
    ingested afterwards (outside overwrite mode) and whose key the table
    held before the clear is stored, and is shown exactly when that key was
    enabled and the frame's protocol class passes. *)
Theorem clearFrames_keeps_filters m g autoRefresh v :
  overwriteDups m = false ->
  filters m !! filter_key (frameId g) = Some v ->
  let t := setTimeStamp (timeStamp g - timeOffset m) g in
  frames (clearFrames m) = [] /\ filteredFrames (clearFrames m) = [] /\
  lastUpdateNumFrames (clearFrames m) = 0 /\ filters (clearFrames m) = filters m /\
  frames (addFrame g autoRefresh (clearFrames m)) = [t] /\
  filteredFrames (addFrame g autoRefresh (clearFrames m)) =
    (if v && filterFrameConsideringFunction (frameId g) m then [setFrameCount 1 t] else []) /\
  filters (addFrame g autoRefresh (clearFrames m)) = filters m.
Proof.
  intros Hd Hk t. repeat (split; [reflexivity|]).
  assert (Hreg : register_key (filter_key (frameId g))
                   (with_lastUpdateNumFrames (lastUpdateNumFrames (clearFrames m) + 1)
                      (clearFrames m))
                 = with_lastUpdateNumFrames (lastUpdateNumFrames (clearFrames m) + 1)
                     (clearFrames m)).
  { unfold register_key. cbn [filters with_lastUpdateNumFrames clearFrames
                               with_filteredFrames with_frames]. now rewrite Hk. }
  rewrite (addFrame_normal g autoRefresh (clearFrames m)) by exact Hd.
  cbn zeta. rewrite Hreg.
  change (timeOffset (clearFrames m)) with (timeOffset m). fold t.
  assert (Hinc : shouldInclude
                   (with_lastUpdateNumFrames (lastUpdateNumFrames (clearFrames m) + 1)
                      (clearFrames m)) t
                 = v && filterFrameConsideringFunction (frameId g) m).
  { unfold shouldInclude. cbn [filters with_lastUpdateNumFrames clearFrames
                                 with_filteredFrames with_frames].
    change (frameId t) with (frameId g). now rewrite Hk. }
  rewrite Hinc.
  destruct (v && filterFrameConsideringFunction (frameId g) m); repeat split.
Qed.

Lemma clearFrames_keeps_filters_witness :
  filteredFrames (addFrame (frame_with_id 5) false
                    (clearFrames (setFilterState 5 false one_row_model))) = [] /\
  length (frames (addFrame (frame_with_id 5) false
                    (clearFrames (setFilterState 5 false one_row_model)))) = 1%nat.
Proof.
  destruct (clearFrames_keeps_filters (setFilterState 5 false one_row_model)
              (frame_with_id 5) false false) as (_ & _ & _ & _ & Hf & Hv & _).
  - reflexivity.
  - reflexivity.
  - split; [rewrite Hv; reflexivity | rewrite Hf; reflexivity].
Defined.

End BulkFacts.

(** ** Switching to overwrite mode *)

Module RecalcFacts.
Import CANFrameModel FilterFacts DedupFacts ViewFacts.

Lemma idAugmented_small f :
  small_key f -> idAugmented f = Some (frameId f + bus f * 2 ^ 29).
Proof.
  intros [Hid Hbus]. unfold idAugmented, shl_bus.
  rewrite decide_True by lia. simpl. f_equal.
  unfold Int.to_uint64. rewrite (Z.mod_small (frameId f)) by lia.
  rewrite (Z.mod_small (bus f * 2 ^ 29)) by lia. apply Z.mod_small. lia.
Qed.

Lemma idAugmented_row_key f g :
  small_key f -> small_key g ->
  (idAugmented f = idAugmented g <-> row_key f = row_key g).
Proof.
  intros Hf Hg. rewrite !idAugmented_small by assumption.
  destruct Hf as [Hf1 Hf2], Hg as [Hg1 Hg2]. unfold row_key. split.
  - intros [= E]. assert (bus f = bus g) by lia. f_equal; lia.
  - intros [= -> ->]. reflexivity.
Qed.

Lemma idAugmented_same_key f g : row_key f = row_key g -> idAugmented f = idAugmented g.
Proof. unfold row_key, idAugmented. intros [= -> ->]. reflexivity. Qed.

Lemma collected_step done h g :
  small_key g -> collected done h ->
  exists h', overwrite_collect [g] h = Some h' /\ collected (done ++ [g]) h'.
Proof.
  intros Hg [Hent Hall].
  pose proof (idAugmented_small g Hg) as Hk.
  set (k := frameId g + bus g * 2 ^ 29) in *.
  cbn [overwrite_collect]. rewrite Hk. cbn [mbind option_bind].
  assert (Hother : forall k' f, k' <> k -> h !! k' = Some f ->
            small_key f /\ idAugmented f = Some k' /\
            row_key f ∈ row_key <$> (done ++ [g]) /\
            frameCount f = occurrences (row_key f) (done ++ [g])).
  { intros k' f Hne Hf. destruct (Hent k' f Hf) as (Hs & Hi & Hin & Hc).
    split; [exact Hs|]. split; [exact Hi|]. split.
    - rewrite fmap_app. apply elem_of_app. now left.
    - rewrite occurrences_snoc, Hc. rewrite bool_decide_eq_false_2; [lia|].
      intros E. apply idAugmented_same_key in E. congruence. }
  assert (Hin_g : row_key g ∈ row_key <$> (done ++ [g])).
  { rewrite fmap_app. apply elem_of_app. right. apply list_elem_of_here. }
  assert (Hall' : forall h1 : gmap Z CANFrame,
            (forall k', is_Some (h !! k') -> is_Some (h1 !! k')) -> is_Some (h1 !! k) ->
            forall g', g' ∈ done ++ [g] -> exists k', idAugmented g' = Some k' /\ is_Some (h1 !! k')).
  { intros h1 Hkeep Hk1 g' Hg'. apply elem_of_app in Hg' as [Hg' | Hg'].
    - destruct (Hall g' Hg') as (k' & Hi & Hs). exists k'. auto.
    - apply list_elem_of_singleton in Hg' as ->. exists k. auto. }
  destruct (h !! k) as [prev|] eqn:Hprev.
  - eexists. split; [reflexivity|]. split.
    + intros k' f Hf. destruct (decide (k' = k)) as [-> | Hne].
      * rewrite lookup_insert_eq in Hf. injection Hf as <-.
        destruct (Hent k prev Hprev) as (Hs & Hi & Hin & Hc).
        assert (Hrk : row_key prev = row_key g).
        { apply idAugmented_row_key; [assumption | assumption | congruence]. }
        split; [exact Hg|]. split; [exact Hk|]. split; [exact Hin_g|].
        change (frameCount prev + 1 = occurrences (row_key g) (done ++ [g])).
        rewrite occurrences_snoc, bool_decide_eq_true_2 by reflexivity.
        rewrite Hc, Hrk. reflexivity.
      * rewrite lookup_insert_ne in Hf by congruence. now apply Hother.
    + apply Hall'.
      * intros k' Hs. destruct (decide (k = k')) as [<- |];
          [rewrite lookup_insert_eq; eauto | now rewrite lookup_insert_ne].
      * rewrite lookup_insert_eq. eauto.
  - eexists. split; [reflexivity|]. split.
    + intros k' f Hf. destruct (decide (k' = k)) as [-> | Hne].
      * rewrite lookup_insert_eq in Hf. injection Hf as <-.
        split; [exact Hg|]. split; [exact Hk|]. split; [exact Hin_g|].
        change (1 = occurrences (row_key g) (done ++ [g])).
        rewrite occurrences_snoc, bool_decide_eq_true_2 by reflexivity.
        rewrite occurrences_absent; [reflexivity|].
        intros Hin. apply list_elem_of_fmap in Hin as (g' & E & Hg').
        destruct (Hall g' Hg') as (k' & Hi & Hs).
        symmetry in E. apply idAugmented_same_key in E.
        assert (k' = k) by congruence. subst k'. rewrite Hprev in Hs. now destruct Hs.
      * rewrite lookup_insert_ne in Hf by congruence. now apply Hother.
    + apply Hall'.
      * intros k' Hs. destruct (decide (k = k')) as [<- |];
          [rewrite lookup_insert_eq; eauto | now rewrite lookup_insert_ne].
      * rewrite lookup_insert_eq. eauto.
Qed.

Lemma overwrite_collect_app rows1 rows2 h :
  overwrite_collect (rows1 ++ rows2) h =
  overwrite_collect rows1 h ≫= overwrite_collect rows2.
Proof.
  revert h. induction rows1 as [|f rows1 IH]; intros h; [reflexivity|].
  cbn [app overwrite_collect].
  destruct (idAugmented f) as [k|]; [|reflexivity]. cbn [mbind option_bind].
  destruct (h !! k); apply IH.
Qed.

Lemma overwrite_collect_spec rows : forall done h,
  Forall small_key rows -> collected done h ->
  exists h', overwrite_collect rows h = Some h' /\ collected (done ++ rows) h'.
Proof.
  induction rows as [|g rows IH]; intros done h Hsmall Hc.
  - exists h. rewrite app_nil_r. auto.
  - apply Forall_cons in Hsmall as [Hg Hsmall].
    destruct (collected_step done h g Hg Hc) as (h1 & Hrun & Hc1).
    destruct (IH (done ++ [g]) h1 Hsmall Hc1) as (h' & Hrun' & Hc').
    exists h'. split.
    + change (g :: rows) with ([g] ++ rows).
      rewrite overwrite_collect_app, Hrun. exact Hrun'.
    + now rewrite <- app_assoc in Hc'.
Qed.

Lemma collected_values done h (rows : list CANFrame) :
  Forall small_key done -> collected done h -> rows ≡ₚ (map_to_list h).*2 ->
  NoDup (row_key <$> rows) /\
  (forall p, p ∈ row_key <$> rows <-> p ∈ row_key <$> done) /\
  (forall row, row ∈ rows -> frameCount row = occurrences (row_key row) done).
Proof.
  intros Hsmall [Hent Hall] Hperm.
  assert (Hrow : forall row, row ∈ rows <-> exists k, h !! k = Some row).
  { intros row. rewrite Hperm, list_elem_of_fmap. split.
    - intros ([k f] & -> & Hin). apply elem_of_map_to_list in Hin. eauto.
    - intros (k & Hk). exists (k, row). split; [reflexivity | now apply elem_of_map_to_list]. }
  split; [| split].
  - rewrite Hperm, <- list_fmap_compose.
    apply NoDup_fmap_2_strong; [| apply NoDup_map_to_list].
    intros [k1 f1] [k2 f2] H1 H2 E. simpl in E.
    apply elem_of_map_to_list in H1, H2.
    destruct (Hent k1 f1 H1) as (Hs1 & Hi1 & _), (Hent k2 f2 H2) as (Hs2 & Hi2 & _).
    apply idAugmented_same_key in E. assert (k1 = k2) by congruence. subst k2.
    f_equal. congruence.
  - intros p. split.
    + intros Hp. apply list_elem_of_fmap in Hp as (row & -> & Hin).
      apply Hrow in Hin as (k & Hk). now destruct (Hent k row Hk) as (_ & _ & Hin & _).
    + intros Hp. apply list_elem_of_fmap in Hp as (g & -> & Hg).
      destruct (Hall g Hg) as (k & Hi & [f Hf]).
      destruct (Hent k f Hf) as (Hs & Hi' & _).
      apply list_elem_of_fmap. exists f. split; [|apply Hrow; eauto].
      apply idAugmented_row_key; [| exact Hs | congruence].
      apply (proj1 (Forall_forall _ _) Hsmall). exact Hg.
  - intros row Hin. apply Hrow in Hin as (k & Hk).
    now destruct (Hent k row Hk) as (_ & _ & _ & Hc).
Qed.

Lemma collected_empty : collected [] ∅.
Proof.
  split.
  - intros k f H. rewrite lookup_empty in H. discriminate.
  - intros g H. inversion H.
Qed.

(** X14: switching overwrite mode on collapses the full store (of frames
    with identifiers of at most 29 bits on buses 0 to 3) to one row for each
    identifier and bus that it holds, in whatever order the hash lists its
    values; every row counts the stored frames of its identifier and bus,
    starting from 1 whatever count the frames carried; and the view is
    rebuilt from the collapsed store under the filters.  Switching the mode
    off returns at once: the store stays as it is. *)
Theorem setOverwriteMode_collapses values m :
  (forall h : gmap Z CANFrame, values h ≡ₚ (map_to_list h).*2) ->
  Forall small_key (frames m) ->
  (exists m',
     setOverwriteMode values true m = Some m' /\
     overwriteDups m' = true /\
     NoDup (row_key <$> frames m') /\
     (forall p, p ∈ row_key <$> frames m' <-> p ∈ row_key <$> frames m) /\
     (forall row, row ∈ frames m' ->
        frameCount row = occurrences (row_key row) (frames m)) /\
     filteredFrames m' = List.filter (shouldInclude m) (frames m')) /\
  setOverwriteMode values false m = Some (with_overwriteDups false m).
Proof.
  intros Hvalues Hsmall. split; [|reflexivity].
  unfold setOverwriteMode, recalcOverwrite.
  cbn [overwriteDups with_overwriteDups negb frames].
  destruct (overwrite_collect_spec (frames m) [] ∅ Hsmall collected_empty)
    as (h & -> & Hc).
  cbn [mbind option_bind app].
  set (m1 := with_frames (values h) (with_overwriteDups true m)).
  destruct (refresh_scan_spec (frames m1) [] m1) as [Hout [E _]].
  destruct (refresh_scan (frames m1) [] m1) as [view m2]. simpl in Hout, E.
  destruct (collected_values (frames m) h (values h) Hsmall Hc (Hvalues h))
    as (Hnd & Hkeys & Hcount).
  eexists. split; [reflexivity|].
  cbn [overwriteDups frames filteredFrames with_filteredFrames].
  rewrite E. cbn [overwriteDups frames with_filters]. subst m1.
  cbn [overwriteDups frames with_frames with_overwriteDups].
  split; [reflexivity|]. split; [exact Hnd|]. split; [exact Hkeys|]. split; [exact Hcount|].
  exact Hout.
Qed.

Lemma setOverwriteMode_collapses_witness :
  exists m',
    setOverwriteMode (fun h => (map_to_list h).*2) true repeated_model = Some m' /\
    length (frames m') = 2%nat.
Proof.
  destruct (setOverwriteMode_collapses (fun h => (map_to_list h).*2) repeated_model)
    as ((m' & Hrun & _) & _).
  - reflexivity.
  - repeat constructor; vm_compute; discriminate.
  - exists m'. split; [exact Hrun|].
    pose proof (f_equal (fmap (fun x => length (frames x))) Hrun) as E.
    vm_compute in E. injection E as E. symmetry. exact E.
Defined.

End RecalcFacts.
